(** * The dotenv loader of auto_vcs ([src/env_loader.c]), embedded in Rocq.

    C strings are modelled as lists of characters (the bytes before the
    terminating NUL), the process environment as a finite map from names to
    values, and everything the loader does to the outside world (the
    environment, files, standard input, the console, the allocator) as
    explicit state passing over a [World] record.  Whether [malloc],
    [realloc] and the writes to the file succeed is read from two lists of
    answers that the world carries, so that the paths of the code that
    handle a failure can be run and reasoned about.  The libc functions the
    code calls ([isspace], [fgets], [strtok], [getenv], [setenv], ...) are
    modelled after the C and POSIX standards, in the "C" locale; output to
    a file goes through the buffer of its stream, which [fprintf] fills and
    [fflush] writes.

    The first part is the code, function by function, with the notions
    needed to state its properties; the second part proves them. *)

From Stdlib Require Import Ascii String ZArith Lia.
From stdpp Require Import gmap strings list.

Open Scope char_scope.
Open Scope list_scope.
Open Scope nat_scope.

(** ** C strings *)

Abbreviation cstring := (list ascii).

(** A string literal of the C source. *)
Definition cs (s : string) : cstring := list_ascii_of_string s.

Definition NUL : ascii := "000".
Definition LF : ascii := "010".
Definition CR : ascii := "013".
Definition DQUOTE : ascii := "034".
Definition SQUOTE : ascii := "'".
Definition BACKSLASH : ascii := "\".

(** [#define LINE_MAX 4096] *)
Definition LINE_MAX : nat := 4096.

(** The bytes of a buffer seen as a C string: everything before the first
    NUL. *)
Fixpoint c_str (buf : cstring) : cstring :=
  match buf with
  | [] => []
  | c :: buf' => if (c =? NUL)%char then [] else c :: c_str buf'
  end.

(** [isspace] in the "C" locale: space, and the control characters
    [\t \n \v \f \r]. *)
Definition isspace (c : ascii) : bool :=
  let n := nat_of_ascii c in
  (n =? 32) || ((9 <=? n) && (n <=? 13)).

(** the loop [while ( *p && isspace( *p)) p++;] *)
Fixpoint skip_space (p : cstring) : cstring :=
  match p with
  | [] => []
  | c :: p' => if isspace c then skip_space p' else p
  end.

(** Moving an end index down over trailing whitespace and cutting the string
    there: [while (idx > 0 && isspace(s[idx - 1])) idx--; s[idx] = '\0';] *)
Definition strip_trailing_space (s : cstring) : cstring :=
  reverse (skip_space (reverse s)).

(** Lines 52-61.  The end pointer never moves below [start], so the first
    character of the trimmed text is kept whatever it is. *)
Definition trim_inplace (s : cstring) : cstring :=
  match skip_space s with
  | [] => []
  | c :: rest => c :: strip_trailing_space rest
  end.

(** [while (l > 0 && (s[l-1] == '\n' || s[l-1] == '\r')) s[--l] = '\0';] *)
Fixpoint skip_eol (p : cstring) : cstring :=
  match p with
  | [] => []
  | c :: p' => if (c =? LF)%char || (c =? CR)%char then skip_eol p' else p
  end.

Definition strip_eol (s : cstring) : cstring := reverse (skip_eol (reverse s)).

(** [strchr(s, c)] for a non-NUL [c]: the text before the first [c] and the
    text after it, or [None] for a NULL result. *)
Fixpoint strchr (s : cstring) (c : ascii) : option (cstring * cstring) :=
  match s with
  | [] => None
  | d :: s' =>
      if (d =? c)%char then Some ([], s')
      else match strchr s' c with
           | Some (before, after) => Some (d :: before, after)
           | None => None
           end
  end.

(** [strncmp(s, prefix, strlen(prefix)) == 0] *)
Fixpoint starts_with (prefix s : cstring) : bool :=
  match prefix, s with
  | [], _ => true
  | _ :: _, [] => false
  | a :: prefix', b :: s' => (a =? b)%char && starts_with prefix' s'
  end.

(** [strncpy(dst, src, n); dst[n] = '\0';] *)
Definition strncpy (src : cstring) (n : nat) : cstring := take n src.

(** ** The world the loader runs in *)

Inductive stream := Stdout | Stderr.

Inductive arg :=
  | AStr (s : cstring)
  | AInt (n : Z).

(** One call of [printf] or [fprintf(stderr, ...)]: the format string and
    its arguments. *)
Record output := Printf {
  out_stream : stream;
  out_fmt : string;
  out_args : list arg
}.

Record World := mkWorld {
  environ : gmap cstring cstring;  (* the process environment: the value
                                      of every variable, by its name *)
  files : gmap cstring cstring;    (* the files, by path *)
  stdin : cstring;                 (* what is still to be read from stdin *)
  stdin_tty : bool;                (* isatty(fileno(stdin)) *)
  console : list output;           (* what was printed, oldest first *)
  heap : list bool;  (* whether the next allocations succeed; all do once
                        the list is used up *)
  disk : list bool   (* whether the file can be opened to append and
                        whether the next writes to it go through; all do
                        once the list is used up *)
}.

Definition with_environ (e : gmap cstring cstring) (w : World) : World :=
  mkWorld e (files w) (stdin w) (stdin_tty w) (console w) (heap w) (disk w).
Definition with_files (f : gmap cstring cstring) (w : World) : World :=
  mkWorld (environ w) f (stdin w) (stdin_tty w) (console w) (heap w) (disk w).
Definition with_stdin (i : cstring) (w : World) : World :=
  mkWorld (environ w) (files w) i (stdin_tty w) (console w) (heap w) (disk w).
Definition with_console (c : list output) (w : World) : World :=
  mkWorld (environ w) (files w) (stdin w) (stdin_tty w) c (heap w) (disk w).
Definition with_heap (h : list bool) (w : World) : World :=
  mkWorld (environ w) (files w) (stdin w) (stdin_tty w) (console w) h (disk w).
Definition with_disk (d : list bool) (w : World) : World :=
  mkWorld (environ w) (files w) (stdin w) (stdin_tty w) (console w) (heap w) d.

(** Computations that read and change the world. *)
Definition M (A : Type) : Type := World → A * World.

#[global] Instance M_ret : MRet M := λ A x w, (x, w).
#[global] Instance M_bind : MBind M := λ A B f m w,
  let (x, w') := m w in f x w'.

(** [malloc] and [realloc]: whether the request is granted. *)
Definition malloc : M bool := λ w,
  match heap w with
  | [] => (true, w)
  | ok :: h => (ok, with_heap h w)
  end.

(** Lines 64-71. *)
Definition xstrdup (s : option cstring) : M (option cstring) :=
  match s with
  | None => mret None
  | Some s => ok ← malloc; mret (if ok : bool then Some s else None)
  end.

(** [getenv(name)] for the name of a variable, a text that is not empty
    and has no ['='] in it: the value the environment has under this name.
    For the empty text the C library answers [NULL], and for a text with
    ['='] in it the answer is left to the library (glibc compares the text
    with the start of an entry, so that [A=B] finds the entry [A=B=c];
    others answer [NULL]): the statements below that speak of what
    [expand_vars] looks up are about references that are names. *)
Definition getenv (name : cstring) : M (option cstring) := λ w,
  (environ w !! name, w).

(** POSIX [setenv(name, value, 1)]: [EINVAL] for an empty name or one with
    ['='] in it, else the variable is set, replacing an earlier value.
    (Lines 41-47, the POSIX branch.) *)
Definition set_env_var (key value : cstring) : M Z := λ w,
  if bool_decide (key = []) || existsb (λ c, (c =? "=")%char) key
  then ((-1)%Z, w)
  else (0%Z, with_environ (<[key := value]> (environ w)) w).

Definition printf (fmt : string) (args : list arg) : M unit := λ w,
  (tt, with_console (console w ++ [Printf Stdout fmt args]) w).

Definition eprintf (fmt : string) (args : list arg) : M unit := λ w,
  (tt, with_console (console w ++ [Printf Stderr fmt args]) w).

(** ** Value parser (lines 127-163) *)

(** The quoted branch: [while ( *p && *p != quote && idx < LINE_MAX - 1)]. *)
Fixpoint copy_quoted (quote : ascii) (p : cstring) (idx : nat) : cstring :=
  match p with
  | [] => []
  | c :: p' =>
      if (c =? quote)%char || negb (idx <? LINE_MAX - 1) then []
      else if (c =? BACKSLASH)%char then
        match p' with
        | d :: p'' => d :: copy_quoted quote p'' (S idx)
        | [] => c :: copy_quoted quote p' (S idx)
        end
      else c :: copy_quoted quote p' (S idx)
  end.

(** The unquoted branch: [while ( *p && idx < LINE_MAX - 1)], left at ['#']. *)
Fixpoint copy_unquoted (p : cstring) (idx : nat) : cstring :=
  match p with
  | [] => []
  | c :: p' =>
      if negb (idx <? LINE_MAX - 1) then []
      else if (c =? "#")%char then []
      else c :: copy_unquoted p' (S idx)
  end.

(** What [parse_value] hands to [xstrdup]. *)
Definition parse_value_buf (raw : cstring) : cstring :=
  match skip_space raw with
  | [] => []
  | c :: p' =>
      if (c =? DQUOTE)%char || (c =? SQUOTE)%char then copy_quoted c p' 0
      else skip_space (strip_trailing_space (copy_unquoted (c :: p') 0))
  end.

Definition parse_value (raw : cstring) : M (option cstring) :=
  xstrdup (Some (parse_value_buf raw)).


(** ** Variable expander (lines 76-122) *)

(** Scanning for the closing brace, [while ( *q && *q != '}') q++;]: the
    name before it and the text after it. *)
Definition find_close (q : cstring) : option (cstring * cstring) :=
  strchr q "}".

(** The [while ( *p)] loop.  [out] is the text written so far ([out_len] is
    its length) and [out_cap] the size of its buffer.  Every turn consumes
    at least one character of [p], so [length p] turns are enough. *)
Fixpoint expand_loop (fuel : nat) (p out : cstring) (out_cap : nat)
    : M (option cstring) :=
  match p with
  | [] => mret (Some out)
  | c :: p' =>
      match fuel with
      | 0 => mret (Some out)
      | S fuel =>
          let copy_char : M (option cstring) :=
            if out_cap <? length out + 2 then
              ok ← malloc;
              if ok : bool
              then expand_loop fuel p' (out ++ [c]) ((out_cap + 64) * 2)
              else mret None
            else expand_loop fuel p' (out ++ [c]) out_cap in
          if (c =? "$")%char && starts_with (cs "{") p' then
            match find_close (tail p') with
            | Some (name, rest) =>
                ok ← malloc;
                if ok : bool then
                  val ← getenv name;
                  let val := default [] val in
                  let need := length out + length val + 1 in
                  if out_cap <? need then
                    ok ← malloc;
                    if ok : bool
                    then expand_loop fuel rest (out ++ val) (need * 2)
                    else mret None
                  else expand_loop fuel rest (out ++ val) out_cap
                else mret None
            | None => copy_char
            end
          else copy_char
      end
  end.

Definition expand_vars (inp : cstring) : M (option cstring) :=
  ok ← malloc;
  if ok : bool
  then expand_loop (length inp) inp [] (length inp + 1)
  else mret None.

(** ** Files and standard input *)

(** Reading one line into a buffer with room for [room] characters: up to
    and including the newline. *)
Fixpoint read_line (room : nat) (input : cstring) : cstring * cstring :=
  match input with
  | [] => ([], [])
  | c :: rest =>
      if room =? 0 then ([], input)
      else if (c =? LF)%char then ([c], rest)
      else let (line, rest') := read_line (room - 1) rest in (c :: line, rest')
  end.

(** [fgets(buf, size, f)] on what is left of a stream: the bytes read and
    what is left then, or [None] at the end of the input. *)
Definition fgets (size : nat) (input : cstring) : option (cstring * cstring) :=
  match input with
  | [] => None
  | _ :: _ => Some (read_line (size - 1) input)
  end.

Definition fgets_stdin (size : nat) : M (option cstring) := λ w,
  match fgets size (stdin w) with
  | None => (None, w)
  | Some (line, rest) => (Some line, with_stdin rest w)
  end.

(** [fopen(filename, "r")]: the contents, or [None] when it cannot be
    opened. *)
Definition fopen_read (filename : cstring) : M (option cstring) := λ w,
  (files w !! filename, w).

(** [fopen(filename, "a")]: creates the file when it is not there. *)
Definition fopen_append (filename : cstring) : M bool := λ w,
  let create w :=
    with_files (<[filename := default [] (files w !! filename)]> (files w)) w in
  match disk w with
  | [] => (true, create w)
  | true :: d => (true, create (with_disk d w))
  | false :: d => (false, with_disk d w)
  end.

(** [fprintf(fw, "%s\n", text) < 0] negated, followed by [fflush(fw)]
    (lines 206-210).  [fprintf] puts the line in the buffer of the stream:
    with its newline the line has at most [LINE_MAX] bytes and the buffer
    was emptied by the [fflush] of the turn before, so nothing is written
    yet and the result is not negative.  [fflush] does the write, and the
    code does not look at what it returns: when the write is refused the
    line is lost, the file is as it was and the caller is not told. *)
Definition fprintf_line (filename text : cstring) : M bool := λ w,
  let append w :=
    with_files
      (<[filename := default [] (files w !! filename) ++ text ++ [LF]]>
         (files w)) w in
  match disk w with
  | [] => (true, append w)
  | true :: d => (true, append (with_disk d w))
  | false :: d => (true, with_disk d w)
  end.

Definition isatty_stdin : M bool := λ w, (stdin_tty w, w).

(** ** Interactive collector (lines 168-222) *)

(** The [for (;;)] loop.  Every turn that does not leave the loop has read
    at least one character of stdin.  ([added] is a C [int]; it cannot
    overflow on fewer than 2^31 lines.) *)
Fixpoint collect_loop (fuel : nat) (filename : cstring) (added : Z) : M Z :=
  _ ← printf "> " [];
  line ← fgets_stdin LINE_MAX;
  match line, fuel with
  | None, _ => mret added
  | Some _, 0 => mret added
  | Some line, S fuel =>
      let line := strip_eol (c_str line) in
      let tmp := trim_inplace (strncpy line (LINE_MAX - 1)) in
      match tmp with
      | [] => mret added
      | _ :: _ =>
          match strchr tmp "=" with
          | None =>
              _ ← printf "Invalid format (missing '='). Use KEY=VALUE.\n" [];
              collect_loop fuel filename added
          | Some (key, value) =>
              let keylen := length key in
              if keylen =? 0 then
                _ ← printf "Key is empty.\n" [];
                collect_loop fuel filename added
              else if LINE_MAX <=? keylen then
                _ ← printf "Key too long.\n" [];
                collect_loop fuel filename added
              else
                match trim_inplace (take keylen tmp) with
                | [] =>
                    _ ← printf "Key is empty (after trim).\n" [];
                    collect_loop fuel filename added
                | (_ :: _) as keybuf =>
                    ok ← fprintf_line filename tmp;
                    if ok : bool then
                      rc ← set_env_var keybuf value;
                      if (rc =? 0)%Z then
                        collect_loop fuel filename (added + 1)%Z
                      else
                        _ ← printf "Warning: failed to set env %s in process\n"
                              [AStr keybuf];
                        collect_loop fuel filename added
                    else mret (-1)%Z
                end
          end
      end
  end.

Definition interactive_create_entries (filename : cstring) : M Z :=
  fw ← fopen_append filename;
  if fw : bool then
    _ ← printf "Enter KEY=VALUE pairs (one per line). Empty line finishes.\n" [];
    ((λ w, collect_loop (length (stdin w)) filename 0%Z w) : M Z)
  else mret (-1)%Z.

(** ** Loader (lines 228-321) *)

(** What the loop body does with one line before it calls the parser: the
    key and the raw value, or [None] when the line is skipped. *)
Definition entry_of_line (line : cstring) : option (cstring * cstring) :=
  let s := trim_inplace (strncpy line (LINE_MAX - 1)) in
  match s with
  | [] => None
  | c :: _ =>
      if (c =? "#")%char then None
      else
        let s := if starts_with (cs "export ") s then drop 7 s else s in
        match strchr s "=" with
        | None => None
        | Some (key, val_raw) =>
            let keylen :=
              if LINE_MAX <=? length key then LINE_MAX - 1 else length key in
            match trim_inplace (take keylen s) with
            | [] => None
            | (_ :: _) as keybuf => Some (keybuf, strip_eol val_raw)
            end
        end
  end.

(** The [while (fgets(line, sizeof(line), f))] loop over what is left of the
    file: [inl] is an early [return] with its code, [inr] the value of
    [vars_set] when the file is read.  ([lineno] and [vars_set] are C [int]s;
    they cannot overflow on a file of less than 2^31 lines.) *)
Fixpoint load_lines (fuel : nat) (f : cstring) (lineno vars_set : Z)
    : M (Z + Z) :=
  match fgets LINE_MAX f, fuel with
  | None, _ => mret (inr vars_set)
  | Some _, 0 => mret (inr vars_set)
  | Some (line, f'), S fuel =>
      let lineno := (lineno + 1)%Z in
      match entry_of_line (c_str line) with
      | None => load_lines fuel f' lineno vars_set
      | Some (keybuf, val_raw) =>
          val_parsed ← parse_value val_raw;
          match val_parsed with
          | None => mret (inl (-2)%Z)
          | Some val_parsed =>
              val_expanded ← expand_vars val_parsed;
              match val_expanded with
              | None => mret (inl (-3)%Z)
              | Some val_expanded =>
                  rc ← set_env_var keybuf val_expanded;
                  if (rc =? 0)%Z then
                    load_lines fuel f' lineno (vars_set + 1)%Z
                  else
                    _ ← eprintf "warning: failed to set env %s (line %d)\n"
                          [AStr keybuf; AInt lineno];
                    load_lines fuel f' lineno vars_set
              end
          end
      end
  end.

(** Lines 229-286: opening and reading the file. *)
Definition load_file (filename : cstring) : M (bool * (Z + Z)) :=
  f ← fopen_read filename;
  match f with
  | None => mret (true, inr 0%Z)
  | Some content =>
      r ← load_lines (length content) content 0 0;
      mret (false, r)
  end.

(** Lines 303-317: reading the answer to the offer and, after a yes, running
    the collector and reporting what it did. *)
Definition answer_offer (filename : cstring) : M Z :=
  answer ← fgets_stdin 8;
  match answer with
  | Some (c :: _) =>
      if (c =? "y")%char || (c =? "Y")%char then
        added ← interactive_create_entries filename;
        if (added <? 0)%Z then
          _ ← eprintf "Error: failed to write to %s\n" [AStr filename];
          mret (-4)%Z
        else
          _ ← (if (added =? 0)%Z
               then printf "No entries added.\n" []
               else printf
                      "Added %d env entries to %s and set them in the process.\n"
                      [AInt added; AStr filename]);
          mret 0%Z
      else mret 0%Z
  | _ => mret 0%Z
  end.

(** Lines 288-320: the offer to create entries by hand. *)
Definition offer_entries (filename : cstring) (file_missing : bool)
    (vars_set : Z) : M Z :=
  input_is_tty ← isatty_stdin;
  if (vars_set =? 0)%Z && input_is_tty then
    _ ← (if file_missing
         then printf "No .env file found at '%s'.\n" [AStr filename]
         else printf "No environment variables were set from '%s'.\n"
                [AStr filename]);
    _ ← printf "Would you like to create/append entries to '%s' now? (y/N): "
          [AStr filename];
    answer_offer filename
  else mret 0%Z.

Definition load_dotenv (filename : cstring) : M Z :=
  '(file_missing, r) ← load_file filename;
  match r with
  | inl code => mret code
  | inr vars_set => offer_entries filename file_missing vars_set
  end.

(** ** Delimiter splitter (lines 333-419) *)

(** A slot of the [char **] array: not written yet, [NULL], or a pointer to
    a string. *)
Inductive cell :=
  | Uninit
  | Null
  | Str (s : cstring).

(** Lines 333-344.  For an empty copy the end pointer starts below the
    buffer, the loop is not entered and the terminator is written over
    itself. *)
Definition trim_string_copy (start : cstring) : M (option cstring) :=
  copy ← xstrdup (Some (skip_space start));
  mret (match copy with
        | None => None
        | Some [] => Some []
        | Some (c :: rest) => Some (c :: strip_trailing_space rest)
        end).

Definition is_delim (delim : cstring) (c : ascii) : bool :=
  existsb (Ascii.eqb c) delim.

(** [s += strspn(s, delim)] *)
Fixpoint skip_delims (delim s : cstring) : cstring :=
  match s with
  | [] => []
  | c :: s' => if is_delim delim c then skip_delims delim s' else s
  end.

(** [strpbrk(s, delim)]: the token before the first delimiter, and the text
    after that delimiter (which [strtok] overwrites with NUL). *)
Fixpoint token_end (delim s : cstring) : cstring * cstring :=
  match s with
  | [] => ([], [])
  | c :: s' =>
      if is_delim delim c then ([], s')
      else let (token, rest) := token_end delim s' in (c :: token, rest)
  end.

(** [strtok], with the saved pointer made explicit: the next token and where
    the following call resumes, or [None] when only delimiters are left. *)
Definition strtok (delim s : cstring) : option (cstring * cstring) :=
  match skip_delims delim s with
  | [] => None
  | (_ :: _) as s' => Some (token_end delim s')
  end.

(** The [while (token)] loop with the [strtok] call that feeds it, and the
    three statements after it.  [rest] is what [strtok] has not looked at
    yet; every token takes at least one character of it.  ([capacity] and
    [count] are C [int]s; they cannot overflow on a value of less than 2^30
    characters.) *)
Fixpoint split_loop (fuel : nat) (delim rest : cstring) (result : list cell)
    (capacity count : nat) : M (option (list cell * nat)) :=
  match strtok delim rest, fuel with
  | None, _ => mret (Some (<[count := Null]> result, count))
  | Some _, 0 => mret (Some (<[count := Null]> result, count))
  | Some (token, rest'), S fuel =>
      clean_token ← trim_string_copy token;
      match clean_token with
      | Some ((_ :: _) as clean_token) =>
          if capacity - 1 <=? count then
            tmp ← malloc;
            if tmp : bool then
              split_loop fuel delim rest'
                (<[count := Str clean_token]>
                   (result ++ replicate capacity Uninit))
                (capacity * 2) (S count)
            else mret None
          else
            split_loop fuel delim rest'
              (<[count := Str clean_token]> result) capacity (S count)
      | _ => split_loop fuel delim rest' result capacity count
      end
  end.

(** [count_out] says whether the caller passed a pointer for the count; the
    second component of the result is what is stored there at the end. *)
Definition get_env (key : cstring) (delim : option cstring) (count_out : bool)
    : M (option (list cell) * option nat) :=
  let report (n : nat) := if count_out then Some n else None in
  raw_val ← getenv key;
  match raw_val with
  | None | Some [] => mret (None, report 0)
  | Some ((_ :: _) as raw_val) =>
      match delim with
      | None | Some [] =>
          result ← malloc;
          if result : bool then
            first ← trim_string_copy raw_val;
            match first with
            | None => mret (None, report 0)
            | Some first => mret (Some [Str first; Null], report 1)
            end
          else mret (None, report 0)
      | Some ((_ :: _) as delim) =>
          work_str ← xstrdup (Some raw_val);
          match work_str with
          | None => mret (None, report 0)
          | Some work_str =>
              result ← malloc;
              if result : bool then
                r ← split_loop (length work_str) delim work_str
                      (replicate 10 Uninit) 10 0;
                match r with
                | None => mret (None, report 0)
                | Some (result, count) => mret (Some result, report count)
                end
              else mret (None, report 0)
          end
      end
  end.

(** ** The empty world *)

(** No variable, no file, nothing to read on a stdin that is no terminal,
    and an allocator and a disk that never fail. *)
Definition world0 : World :=
  mkWorld ∅ ∅ [] false [] [] [].

Definition dotenv : cstring := cs ".env".

(** ** Notions the statements below are written with *)

(** [quoted_text Q enc text]: [enc] is text as it is written between quotes
    [Q], with no unescaped [Q] in it, and [text] is what it stands for:
    a backslash and the character after it stand for that character. *)
Inductive quoted_text (Q : ascii) : cstring → cstring → Prop :=
  | quoted_nil : quoted_text Q [] []
  | quoted_plain c enc text :
      c ≠ Q → c ≠ BACKSLASH → quoted_text Q enc text →
      quoted_text Q (c :: enc) (c :: text)
  | quoted_escaped d enc text :
      quoted_text Q enc text →
      quoted_text Q (BACKSLASH :: d :: enc) (d :: text).

(** All characters of [s] are whitespace. *)
Definition blank (s : cstring) : Prop := Forall (λ c, isspace c = true) s.

(** [s] neither starts nor ends with whitespace. *)
Definition tight (s : cstring) : Prop :=
  (∀ c, head s = Some c → isspace c = false) ∧
  (∀ c, last s = Some c → isspace c = false).

(** The text [expand_vars] builds when no allocation fails, with the turns
    of its loop counted the same way. *)
Fixpoint expansion (env : gmap cstring cstring) (fuel : nat) (p : cstring)
    : cstring :=
  match p with
  | [] => []
  | c :: p' =>
      match fuel with
      | 0 => []
      | S fuel =>
          if (c =? "$")%char && starts_with (cs "{") p' then
            match find_close (tail p') with
            | Some (name, rest) =>
                default [] (env !! name) ++ expansion env fuel rest
            | None => c :: expansion env fuel p'
            end
          else c :: expansion env fuel p'
      end
  end.

Definition expand (env : gmap cstring cstring) (v : cstring) : cstring :=
  expansion env (length v) v.

(** Cutting a text at every character of [delim]: the pieces between them,
    empty ones included. *)
Fixpoint partitions (delim s : cstring) : list cstring :=
  match s with
  | [] => [[]]
  | c :: s' =>
      if is_delim delim c then [] :: partitions delim s'
      else match partitions delim s' with
           | p :: ps => (c :: p) :: ps
           | [] => [[c]]
           end
  end.

(** A text without the whitespace at its two ends. *)
Definition trim (s : cstring) : cstring :=
  strip_trailing_space (skip_space s).

(** The splitter as the specification words it: cut at every delimiter,
    trim every piece, drop the pieces that are empty then. *)
Definition split_spec (delim value : cstring) : list cstring :=
  filter (λ t, t ≠ []) (trim <$> partitions delim value).

(** An array that holds the strings [tokens], in this order, and [NULL]
    after the last of them. *)
Definition holds (array : list cell) (tokens : list cstring) : Prop :=
  take (length tokens) array = Str <$> tokens ∧
  array !! length tokens = Some Null.

(** The lines [fgets] hands to the loader one after the other. *)
Fixpoint file_lines (fuel : nat) (f : cstring) : list cstring :=
  match fgets LINE_MAX f, fuel with
  | Some (line, f'), S fuel => line :: file_lines fuel f'
  | _, _ => []
  end.

(** Key and raw value of every line that the loader does not skip. *)
Definition entries_of_lines (lines : list cstring)
    : list (cstring * cstring) :=
  omap (λ line, entry_of_line (c_str line)) lines.

Definition file_entries (content : cstring) : list (cstring * cstring) :=
  entries_of_lines (file_lines (length content) content).

(** Setting the entries one after the other, each value parsed and then
    expanded in the environment of that moment. *)
Definition install (env : gmap cstring cstring)
    (entries : list (cstring * cstring)) : gmap cstring cstring :=
  foldl (λ env entry, <[entry.1 := expand env (parse_value_buf entry.2)]> env)
        env entries.

(** The names that the expansion of [p] looks up. *)
Fixpoint references (fuel : nat) (p : cstring) : list cstring :=
  match p with
  | [] => []
  | c :: p' =>
      match fuel with
      | 0 => []
      | S fuel =>
          if (c =? "$")%char && starts_with (cs "{") p' then
            match find_close (tail p') with
            | Some (name, rest) => name :: references fuel rest
            | None => references fuel p'
            end
          else references fuel p'
      end
  end.

Definition var_refs (v : cstring) : list cstring := references (length v) v.

(** No value refers to a key that the file sets only on the same line or
    further down: every name a value refers to is a key of an earlier line
    ([seen]) or no key of this line or a later one. *)
Fixpoint scoped (seen : list cstring) (entries : list (cstring * cstring))
    : bool :=
  match entries with
  | [] => true
  | (key, raw) :: later =>
      forallb (λ name, bool_decide (name ∈ seen)
                       || bool_decide (name ∉ key :: later.*1))
              (var_refs (parse_value_buf raw))
      && scoped (key :: seen) later
  end.

(** Every [${...}] of the values of [entries] holds the name of a variable:
    a text that is not empty and has no ['='] in it, the texts for which
    [getenv] is a lookup by name. *)
Definition refers_to_names (entries : list (cstring * cstring)) : bool :=
  forallb (λ entry, forallb (λ name, bool_decide (name ≠ [] ∧ "=" ∉ name))
                      (var_refs (parse_value_buf entry.2)))
          entries.

(** The requests that the loop of [expand_vars] makes to the allocator
    when each of them is granted: one for every name it looks up, and one
    whenever the text does not fit the buffer it has.  [out_len] is the
    length of the text written so far. *)
Fixpoint requests_loop (env : gmap cstring cstring) (fuel : nat) (p : cstring)
    (out_len out_cap : nat) : nat :=
  match p with
  | [] => 0
  | c :: p' =>
      match fuel with
      | 0 => 0
      | S fuel =>
          let copy_char :=
            if out_cap <? out_len + 2
            then S (requests_loop env fuel p' (S out_len) ((out_cap + 64) * 2))
            else requests_loop env fuel p' (S out_len) out_cap in
          if (c =? "$")%char && starts_with (cs "{") p' then
            match find_close (tail p') with
            | Some (name, rest) =>
                let val := default [] (env !! name) in
                let need := out_len + length val + 1 in
                if out_cap <? need
                then S (S (requests_loop env fuel rest (out_len + length val)
                             (need * 2)))
                else S (requests_loop env fuel rest (out_len + length val)
                          out_cap)
            | None => copy_char
            end
          else copy_char
      end
  end.

(** The requests of [expand_vars] for the value [v]: its first buffer and
    those of its loop. *)
Definition requests (env : gmap cstring cstring) (v : cstring) : nat :=
  S (requests_loop env (length v) v 0 (length v + 1)).

(** The requests of the loader for [entries], each of them granted: for
    every entry the copy of the parsed value, then what its expansion asks
    for in the environment of that moment. *)
Fixpoint requests_of (env : gmap cstring cstring)
    (entries : list (cstring * cstring)) : nat :=
  match entries with
  | [] => 0
  | (key, raw) :: later =>
      let v := parse_value_buf raw in
      S (requests env v) + requests_of (<[key := expand env v]> env) later
  end.

(** The allocator [h] grants its next [n] requests. *)
Definition granted (n : nat) (h : list bool) : bool := forallb id (take n h).

(** The answer to the offer starts with [y] or [Y]. *)
Definition says_yes (input : cstring) : bool :=
  match input with
  | c :: _ => (c =? "y")%char || (c =? "Y")%char
  | [] => false
  end.

(** The disk [d] refuses what is asked of it next. *)
Definition refused (d : list bool) : bool :=
  match d with
  | false :: _ => true
  | _ => false
  end.

(** [w'] is [w] but for what the allocator will answer. *)
Definition same_but_heap (w w' : World) : Prop := w' = with_heap (heap w') w.

(** From [w] to [w'] no file was written, nothing was read from stdin and
    nothing was printed but warnings on stderr. *)
Definition quiet (w w' : World) : Prop :=
  files w' = files w ∧ stdin w' = stdin w ∧ stdin_tty w' = stdin_tty w ∧
  disk w' = disk w ∧
  ∃ warnings, console w' = console w ++ warnings ∧
              Forall (λ o, out_stream o = Stderr) warnings.

(** The world once the loader has printed its offer (lines 297-302). *)
Definition offered (filename : cstring) (file_missing : bool) (w : World)
    : World :=
  with_console
    (console w ++
     [Printf Stdout
        (if file_missing then "No .env file found at '%s'.\n"
         else "No environment variables were set from '%s'.\n")
        [AStr filename];
      Printf Stdout
        "Would you like to create/append entries to '%s' now? (y/N): "
        [AStr filename]]) w.

(** The world once the loader has reported what the collector did (lines
    307-315). *)
Definition reported (filename : cstring) (added : Z) (w : World) : World :=
  with_console
    (console w ++
     [if (added <? 0)%Z then
        Printf Stderr "Error: failed to write to %s\n" [AStr filename]
      else if (added =? 0)%Z then Printf Stdout "No entries added.\n" []
      else Printf Stdout
             "Added %d env entries to %s and set them in the process.\n"
             [AInt added; AStr filename]]) w.

(** A user at a terminal who types [typed]; no file, an empty
    environment. *)
Definition terminal (typed : cstring) : World :=
  mkWorld ∅ ∅ typed true [] [] [].

(** The world once the collector has printed its prompt. *)
Definition prompted (w : World) : World :=
  with_console (console w ++ [Printf Stdout "> " []]) w.

(** ** Worlds and files for the examples *)

(** A file whose first value refers to the key of its second line. *)
Definition forward_file : cstring :=
  cs "A=${B}" ++ [LF] ++ cs "B=1" ++ [LF].

(** A file whose references go to an earlier line or out of the file. *)
Definition scoped_file : cstring :=
  cs "B=1" ++ [LF] ++ cs "A=${B}/${HOME}" ++ [LF] ++ cs "B=2" ++ [LF].

(** Nothing but the given file, [.env]; stdin is no terminal. *)
Definition world_with_file (content : cstring) : World :=
  with_files {[ dotenv := content ]} world0.

(** Nothing but one variable. *)
Definition world_with_var (name value : cstring) : World :=
  with_environ {[ name := value ]} world0.

(** A user at a terminal, with no file yet, who says yes to the offer and
    types [A=1] and an empty line.  The file can be opened; the write of
    the line is refused. *)
Definition write_refused : World :=
  with_disk [true; false]
    (terminal (cs "y" ++ [LF] ++ cs "A=1" ++ [LF; LF])).

(** * More of the code

    What follows is the rest of [src/env_loader.c], the callers of the
    loader in [src/fsm_gh.c] and the helpers of [src/core.c] that they
    use. *)

(** ** Releasing the array (lines 325-331) *)

(** The [for] loop of [free_env] from index [i] on, [n] turns to go: the
    strings it hands to [free], in this order.  [free(NULL)] does nothing;
    reading a slot that was never written, or one past the end of the
    array, is undefined behaviour ([None]). *)
Fixpoint free_loop (array : list cell) (i n : nat) : option (list cstring) :=
  match n with
  | 0 => Some []
  | S n =>
      match array !! i with
      | Some (Str s) => cons s <$> free_loop array (S i) n
      | Some Null => free_loop array (S i) n
      | Some Uninit | None => None
      end
  end.

(** [free_env(array, count)]: nothing for a [NULL] array; else the strings
    of the first [count] slots are freed, then the array itself. *)
Definition free_env (array : option (list cell)) (count : nat)
    : option (list cstring) :=
  match array with
  | None => Some []
  | Some array => free_loop array 0 count
  end.

(** ** A caller: the first-run set-up of [state_start] ([src/fsm_gh.c]) *)

(** [snprintf(buf, size, ...)]: the text, cut to fit a buffer of [size]
    bytes. *)
Definition snprintf (size : nat) (text : cstring) : cstring :=
  take (size - 1) text.

(** Lines 271-272 and 283-284: the two lines made of what was typed, each a
    key, an equals sign, the input between double quotes, and a newline. *)
Definition usernames_line (input : cstring) : cstring :=
  snprintf 1024 (cs "USERNAMES=" ++ DQUOTE :: input ++ [DQUOTE; LF]).

Definition emails_line (input : cstring) : cstring :=
  snprintf 1024 (cs "EMAILS=" ++ DQUOTE :: input ++ [DQUOTE; LF]).

(** [fprintf(f, "%s", text)], its result not looked at. *)
Definition fprintf_text (filename text : cstring) : M unit := λ w,
  let append w :=
    with_files
      (<[filename := default [] (files w !! filename) ++ text]> (files w)) w in
  match disk w with
  | [] => (tt, append w)
  | true :: d => (tt, append (with_disk d w))
  | false :: d => (tt, with_disk d w)
  end.

(** Lines 286-295: appending the two lines to [.env]; whether the file
    could be opened.  (The pause and the [return -1] that follow in both
    cases are left out.) *)
Definition append_credentials (names mails : cstring) : M bool :=
  f ← fopen_append dotenv;
  if f : bool then
    _ ← fprintf_text dotenv (usernames_line names);
    _ ← fprintf_text dotenv (emails_line mails);
    _ ← printf "\n.env file updated with USERNAMES and EMAILS.\n" [];
    _ ← printf "The program will now exit. Restart to continue with git credential setup.\n" [];
    mret true
  else
    _ ← eprintf "Error: Could not write to .env file.\n" [];
    mret false.

(** * The terminal helpers ([src/core.c], POSIX branch) and the menu *)

(** [struct termios]; the code looks at [c_lflag] only. *)
Record termios := mkTermios {
  c_iflag : Z;
  c_oflag : Z;
  c_cflag : Z;
  c_lflag : Z;
  c_cc : list Z
}.

(** [<termios.h>] on Linux. *)
Definition ECHO : Z := 8.
Definition ICANON : Z := 2.

Definition with_c_lflag (flags : Z) (t : termios) : termios :=
  mkTermios (c_iflag t) (c_oflag t) (c_cflag t) flags (c_cc t).

(** The process with its terminal: the world of the loader, the settings of
    the terminal behind stdin, the two globals of lines 15-16, and what was
    handed to [atexit] and to [system].  The bytes of [stdin] are what the
    next reads deliver, whether through stdio or through [read]. *)
Record Session := mkSession {
  host : World;
  tty : termios;             (* the settings of the terminal *)
  orig_termios : termios;    (* struct termios orig_termios *)
  raw_mode_enabled : bool;   (* static int raw_mode_enabled *)
  atexit_calls : nat;        (* registrations of disable_raw_mode *)
  commands : list cstring;   (* the commands run by system(), oldest first *)
  statuses : list Z          (* what the next calls of system() return; 0
                                once the list is used up *)
}.

Definition with_host (w : World) (s : Session) : Session :=
  mkSession w (tty s) (orig_termios s) (raw_mode_enabled s) (atexit_calls s)
    (commands s) (statuses s).
Definition with_tty (t : termios) (s : Session) : Session :=
  mkSession (host s) t (orig_termios s) (raw_mode_enabled s) (atexit_calls s)
    (commands s) (statuses s).
Definition with_orig_termios (t : termios) (s : Session) : Session :=
  mkSession (host s) (tty s) t (raw_mode_enabled s) (atexit_calls s)
    (commands s) (statuses s).
Definition with_raw_mode_enabled (b : bool) (s : Session) : Session :=
  mkSession (host s) (tty s) (orig_termios s) b (atexit_calls s)
    (commands s) (statuses s).
Definition with_atexit_calls (n : nat) (s : Session) : Session :=
  mkSession (host s) (tty s) (orig_termios s) (raw_mode_enabled s) n
    (commands s) (statuses s).
Definition with_system (c : list cstring) (r : list Z) (s : Session)
    : Session :=
  mkSession (host s) (tty s) (orig_termios s) (raw_mode_enabled s)
    (atexit_calls s) c r.

(** Computations of the session. *)
Definition T (A : Type) : Type := Session → A * Session.

#[global] Instance T_ret : MRet T := λ A x s, (x, s).
#[global] Instance T_bind : MBind T := λ A B f m s,
  let (x, s') := m s in f x s'.

(** A computation of the loader's world, run in the session. *)
Definition on_host {A} (m : M A) : T A := λ s,
  let (x, w) := m (host s) in (x, with_host w s).

(** [tcgetattr(STDIN_FILENO, &t)]: [None] when stdin is no terminal. *)
Definition tcgetattr : T (option termios) := λ s,
  (if stdin_tty (host s) then Some (tty s) else None, s).

(** [tcsetattr(STDIN_FILENO, TCSANOW, &t)]; nothing happens when stdin is no
    terminal. *)
Definition tcsetattr (t : termios) : T unit := λ s,
  (tt, if stdin_tty (host s) then with_tty t s else s).

(** [atexit(disable_raw_mode)] *)
Definition atexit_disable_raw_mode : T unit := λ s,
  (tt, with_atexit_calls (S (atexit_calls s)) s).

(** Lines 18-24. *)
Definition disable_raw_mode : T unit := λ s,
  if raw_mode_enabled s then
    (_ ← tcsetattr (orig_termios s);
     _ ← on_host (printf "\033[?25h" []);
     ((λ s, (tt, with_raw_mode_enabled false s)) : T unit)) s
  else (tt, s).

(** Lines 26-36.  [raw.c_lflag &= ~(ECHO | ICANON)]. *)
Definition enable_raw_mode : T unit := λ s,
  let first (s : Session) : unit * Session :=
    if raw_mode_enabled s then (tt, s)
    else
      (t ← tcgetattr;
       _ ← ((λ s, (tt, match t with
                       | Some t => with_orig_termios t s
                       | None => s
                       end)) : T unit);
       _ ← atexit_disable_raw_mode;
       ((λ s, (tt, with_raw_mode_enabled true s)) : T unit)) s in
  (_ ← (first : T unit);
   ((λ s,
      let raw :=
        with_c_lflag
          (Z.land (c_lflag (orig_termios s)) (Z.lnot (Z.lor ECHO ICANON)))
          (orig_termios s) in
      (_ ← tcsetattr raw; on_host (printf "\033[?25l" [])) s) : T unit)) s.

(** Lines 40-46. *)
Definition clear_screen : T unit := on_host (printf "\033[H\033[J" []).

(** [getchar()], and [read(STDIN_FILENO, &c, 1) == 1] with the byte read:
    [None] at the end of the input. *)
Definition getchar : M (option ascii) := λ w,
  match stdin w with
  | [] => (None, w)
  | c :: rest => (Some c, with_stdin rest w)
  end.

(** Lines 49-77.  [fmt] is [None] for a NULL format. *)
Definition pausef (fmt : option (string * list arg)) : T unit :=
  _ ← match fmt with
      | Some (fmt, args) =>
          if (0 <? String.length fmt)%nat then on_host (printf fmt args)
          else mret tt
      | None => mret tt
      end;
  _ ← on_host (printf "Press any key to continue..." []);
  _ ← disable_raw_mode;
  _ ← on_host getchar;
  _ ← enable_raw_mode;
  on_host (printf "\n" []).

(** [if (len > 0 && buffer[len-1] == '\n') buffer[len-1] = '\0';] *)
Definition chomp (s : cstring) : cstring :=
  match reverse s with
  | c :: r => if (c =? LF)%char then reverse r else s
  | [] => s
  end.

(** Lines 79-96.  [buffer] is what the caller's buffer holds, [None] when
    it was never written; the result is what it holds afterwards. *)
Definition get_input_string (buffer : option cstring) (size : nat)
    : T (option cstring) :=
  _ ← disable_raw_mode;
  _ ← on_host (printf " > " []);
  line ← on_host (fgets_stdin size);
  _ ← enable_raw_mode;
  mret (match line with
        | Some line => Some (chomp (c_str line))
        | None => buffer
        end).

(** Key codes of [include/core.h], POSIX branch. *)
Definition KEY_UP : Z := 65.
Definition KEY_DOWN : Z := 66.
Definition KEY_ENTER : Z := 10.

Definition ESC : ascii := "027".

(** A [char] as an [int]; [char] is signed here, as on x86. *)
Definition int_of_char (c : ascii) : Z :=
  let n := Z.of_nat (nat_of_ascii c) in
  if (n <? 128)%Z then n else (n - 256)%Z.

(** Lines 98-122, POSIX branch.  At the end of the input [read] returns 0
    for ever and the loop of line 109 does not end: [None]. *)
Definition get_key : T (option Z) :=
  c ← on_host getchar;
  match c with
  | None => mret None
  | Some c =>
      if (c =? ESC)%char then
        seq0 ← on_host getchar;
        match seq0 with
        | None => mret (Some (int_of_char ESC))
        | Some seq0 =>
            seq1 ← on_host getchar;
            match seq1 with
            | None => mret (Some (int_of_char ESC))
            | Some seq1 =>
                mret (Some (if (seq0 =? "[")%char then
                              if (seq1 =? "A")%char then KEY_UP
                              else if (seq1 =? "B")%char then KEY_DOWN
                              else 0%Z
                            else 0%Z))
            end
        end
      else mret (Some (int_of_char c))
  end.

(** [system(command)] *)
Definition system (command : cstring) : T Z := λ s,
  (hd 0%Z (statuses s),
   with_system (commands s ++ [command]) (tl (statuses s)) s).

(** Lines 125-132, for a command line already put together from the format
    and its arguments: it is cut to the 1024 bytes of [command]. *)
Definition run_cmd (text : cstring) : T Z := system (snprintf 1024 text).

(** ** The menu ([src/fsm_gh.c], lines 84-120) *)

(** What a function that may not come back does. *)
Inductive outcome (A : Type) :=
  | Returns (a : A)
  | Hangs        (* waits for a key that never comes *)
  | Undefined.   (* has read past the end of an array *)
Arguments Returns {A} a.
Arguments Hangs {A}.
Arguments Undefined {A}.

(** The [for] loop of lines 96-106 from index [i] on, [n] turns to go;
    [false] when it has read past the end of [options]. *)
Fixpoint print_options (options : list cstring) (selected : Z) (i n : nat)
    : T bool :=
  match n with
  | 0 => mret true
  | S n =>
      match options !! i with
      | None => mret false
      | Some option =>
          _ ← on_host
                (printf (if (Z.of_nat i =? selected)%Z
                         then "\033[7m  -> %s \033[0m\n"
                         else "     %s\n") [AStr option]);
          print_options options selected (S i) n
      end
  end.

(** The [while (1)] loop.  Every turn that does not leave the loop has read
    at least one byte of the input, so that a key is never read with no
    turn left; that case is given the outcome [Undefined] to keep it apart
    from a real wait.  ([selected] stays between -1 and [count], so it
    cannot overflow.) *)
Fixpoint menu_loop (fuel : nat) (title : cstring) (options : list cstring)
    (count selected : Z) : T (outcome Z) :=
  _ ← clear_screen;
  _ ← on_host (printf "Current branch: " []);
  _ ← run_cmd (cs "git branch --show-current");
  _ ← on_host (printf "\n" []);
  _ ← on_host (printf "=== %s ===\n\n" [AStr title]);
  in_bounds ← print_options options selected 0 (Z.to_nat count);
  if in_bounds : bool then
    key ← get_key;
    match key, fuel with
    | None, _ => mret Hangs
    | Some _, 0 => mret Undefined
    | Some key, S fuel =>
        if (key =? KEY_UP)%Z then
          let selected := (selected - 1)%Z in
          menu_loop fuel title options count
            (if (selected <? 0)%Z then (count - 1)%Z else selected)
        else if (key =? KEY_DOWN)%Z then
          let selected := (selected + 1)%Z in
          menu_loop fuel title options count
            (if (count <=? selected)%Z then 0%Z else selected)
        else if (key =? KEY_ENTER)%Z then mret (Returns selected)
        else menu_loop fuel title options count selected
    end
  else mret Undefined.

Definition show_menu (title : cstring) (options : list cstring) (count : Z)
    : T (outcome Z) := λ s,
  menu_loop (length (stdin (host s))) title options count 0%Z s.

(** ** The title of a commit ([src/fsm_gh.c], lines 124-140 and 571-590) *)

Definition SEMANTIC_TYPES : list cstring :=
  [cs "feat      - new user-facing feature";
   cs "fix       - bug fix";
   cs "refactor  - no behavior change";
   cs "perf      - performance improvement";
   cs "test      - add or update tests";
   cs "docs      - documentation only";
   cs "chore     - tooling, config, deps";
   cs "build     - build system changes";
   cs "ci        - CI/CD pipeline changes";
   cs "style     - formatting only";
   cs "revert    - revert previous change"].

Definition SCOPES : list cstring :=
  [cs "auth"; cs "api"; cs "ui"; cs "db"; cs "cli"; cs "build"; cs "infra";
   cs "none"].

(** The characters up to the first whitespace. *)
Fixpoint word (s : cstring) : cstring :=
  match s with
  | [] => []
  | c :: s' => if isspace c then [] else c :: word s'
  end.

(** [sscanf(s, "%s", buf)] into a buffer of [size] bytes: the first word of
    [s]; [None] when the word and its terminator do not fit the buffer, or
    when there is no word and the buffer is left as it was, which here is
    uninitialised. *)
Definition sscanf_word (size : nat) (s : cstring) : option cstring :=
  match word (skip_space s) with
  | [] => None
  | (_ :: _) as w => if length w <? size then Some w else None
  end.

(** [sprintf(buf, ...)] into a buffer of [size] bytes, for a text already
    put together: [None] when the text and its terminator do not fit. *)
Definition sprintf (size : nat) (text : cstring) : option cstring :=
  if length text <? size then Some text else None.

(** Lines 574-590 of [action_push]: the title of the commit from the two
    indices that the menus have returned and the buffer [title] as
    [get_input_string] has left it, which is [None] for a buffer that was
    never written.  The result is [None] where the behaviour is not
    defined: an index outside its array, a buffer overrun, or the read of
    a buffer that was never written. *)
Definition commit_title (type_idx scope_idx : Z) (title : option cstring)
    : option cstring :=
  if (type_idx <? 0)%Z || (scope_idx <? 0)%Z then None
  else
    entry ← SEMANTIC_TYPES !! Z.to_nat type_idx;
    type_str ← sscanf_word 20 entry;
    scope_str ← SCOPES !! Z.to_nat scope_idx;
    title ← title;
    if bool_decide (scope_str = cs "none")
    then sprintf 512 (type_str ++ cs ": " ++ title)
    else sprintf 512 (type_str ++ cs "(" ++ scope_str ++ cs "): " ++ title).

(** * Notions for the further properties *)

(** ** Notions for the loader *)

(** From [w] to [w'] the file [f] was at most created or appended to, and
    no other file was touched. *)
Definition appended (f : cstring) (w w' : World) : Prop :=
  (∀ other, other ≠ f → files w' !! other = files w !! other) ∧
  (∀ old, files w !! f = Some old →
          ∃ more, files w' !! f = Some (old ++ more)).

(** An output that is neither of the two messages of lines 198 and 202. *)
Definition live_message (o : output) : Prop :=
  out_fmt o ≠ "Key too long.\n"%string ∧
  out_fmt o ≠ "Key is empty (after trim).\n"%string.

(** From [w] to [w'] the console got more outputs, all of them in [P]. *)
Definition printed (P : output → Prop) (w w' : World) : Prop :=
  ∃ extra, console w' = console w ++ extra ∧ Forall P extra.

(** ** Notions for the terminal helpers *)

(** The settings that [enable_raw_mode] starts from: the saved ones when
    raw mode is on; else those of the terminal, which it saves first. *)
Definition saved (s : Session) : termios :=
  if raw_mode_enabled s then orig_termios s
  else if stdin_tty (host s) then tty s else orig_termios s.

(** Settings with [ECHO] and [ICANON] switched off. *)
Definition raw_of (t : termios) : termios :=
  with_c_lflag (Z.land (c_lflag t) (Z.lnot (Z.lor ECHO ICANON))) t.

(** ** Notions for the menu *)

(** What [get_key] makes of the bytes to come: the key code and the bytes
    left, or [None] when there is no byte. *)
Definition decode_key (input : cstring) : option (Z * cstring) :=
  match input with
  | [] => None
  | c :: rest =>
      if (c =? ESC)%char then
        match rest with
        | seq0 :: seq1 :: rest' =>
            Some (if (seq0 =? "[")%char then
                    if (seq1 =? "A")%char then KEY_UP
                    else if (seq1 =? "B")%char then KEY_DOWN
                    else 0%Z
                  else 0%Z, rest')
        | [_] => Some (int_of_char ESC, [])
        | [] => Some (int_of_char ESC, [])
        end
      else Some (int_of_char c, rest)
  end.

(** What a user can press before Enter: the up and down arrows, which the
    terminal sends as [ESC [ A] and [ESC [ B]; the letters [A] and [B];
    another character; another escape sequence of three bytes. *)
Inductive press :=
  | ArrowUp
  | ArrowDown
  | LetterA
  | LetterB
  | Other (c : ascii)
  | Sequence (seq0 seq1 : ascii).

Definition bytes_of (p : press) : cstring :=
  match p with
  | ArrowUp => [ESC; "["; "A"]
  | ArrowDown => [ESC; "["; "B"]
  | LetterA => ["A"]
  | LetterB => ["B"]
  | Other c => [c]
  | Sequence seq0 seq1 => [ESC; seq0; seq1]
  end.

(** [Other] and [Sequence] stand for nothing that has its own case. *)
Definition proper (p : press) : Prop :=
  match p with
  | Other c => c ∉ [ESC; "A"; "B"; LF]
  | Sequence seq0 seq1 => ¬ (seq0 = "[" ∧ (seq1 = "A" ∨ seq1 = "B"))
  | _ => True
  end.

(** How far a press moves the selection down the menu. *)
Definition step_of (p : press) : Z :=
  match p with
  | ArrowUp | LetterA => (-1)%Z
  | ArrowDown | LetterB => 1%Z
  | Other _ | Sequence _ _ => 0%Z
  end.

Definition steps (presses : list press) : Z :=
  foldr (λ p sum, (step_of p + sum)%Z) 0%Z presses.

Definition typed (presses : list press) : cstring :=
  concat (bytes_of <$> presses).

(** The types of a conventional commit. *)
Definition commit_types : list cstring :=
  [cs "feat"; cs "fix"; cs "refactor"; cs "perf"; cs "test"; cs "docs";
   cs "chore"; cs "build"; cs "ci"; cs "style"; cs "revert"].

(** * Worlds and sessions for the further examples *)

(** An allocator that refuses the third request and grants all others. *)
Definition world_third_refused (name value : cstring) : World :=
  with_heap [true; true; false] (world_with_var name value).

(** A user at a terminal who types [A="x y"] and an empty line. *)
Definition quoted_entry : cstring := cs "A=" ++ [DQUOTE] ++ cs "x y" ++ [DQUOTE].


(** The next run after [state_start] has written two names and two
    addresses to a new [.env]: the files of that moment, nothing else. *)
Definition next_run : World :=
  with_files
    (files (append_credentials (cs "Ann;Bob") (cs "a@x.org;b@x.org") world0).2)
    world0.

(** A session on a terminal with the given settings, before anything was
    done, and with the given input. *)
Definition session0 (settings : termios) (input : cstring) : Session :=
  mkSession (terminal input) settings (mkTermios 0 0 0 0 []) false 0 [] [].

(** Settings of a terminal in its usual line mode (Linux: [ISIG | ICANON |
    ECHO | ECHOE | ECHOK | IEXTEN | ECHOCTL | ECHOKE] is 35387). *)
Definition cooked : termios := mkTermios 17664 5 191 35387 [].

(** A terminal in line mode where the down arrow and Enter are pressed. *)
Definition down_enter : Session :=
  session0 cooked (typed [ArrowDown] ++ [LF]).

(** The same with the letter [B] and three up arrows before Enter. *)
Definition letter_and_arrows : Session :=
  session0 cooked (typed [LetterB; ArrowUp; ArrowUp; ArrowUp] ++ [LF]).

(** Two names and two addresses as [state_start] reads them. *)
Definition two_names : World := world_with_var (cs "USERNAMES") (cs "Ann;Bob").

Definition two_addresses : World :=
  world_with_var (cs "EMAILS") (cs "a@x.org;b@x.org").

(** The array that [get_env] returns for two strings. *)
Definition array_of_two (first second : cstring) : list cell :=
  [Str first; Str second; Null; Uninit; Uninit; Uninit; Uninit; Uninit;
   Uninit; Uninit].

(** A terminal in line mode where Enter alone is pressed, and one where a
    title is typed. *)
Definition enter_only : Session := session0 cooked [LF].

Definition title_typed : Session :=
  session0 cooked (cs "add login button" ++ [LF]).

(** A terminal in line mode where a key and Enter are pressed at the pause,
    and a branch name is typed for the question after it. *)
Definition key_then_answer : Session :=
  session0 cooked (cs "x" ++ [LF] ++ cs "main" ++ [LF]).

(** A line of [LINE_MAX + 2] characters: [A=], as many [x] as fill the
    buffer of the loader, and [B=1]. *)
Definition long_line : cstring :=
  cs "A=" ++ replicate (LINE_MAX - 3) "x"%char ++ cs "B=1".

(** A file whose only line, [A=1], does not end in a newline, and a user at
    a terminal who types [B=2] and an empty line. *)
Definition unterminated : World :=
  with_files {[ dotenv := cs "A=1" ]} (terminal (cs "B=2" ++ [LF; LF])).

(** The file [scoped_file] and an allocator that refuses the third
    request. *)
Definition short_of_memory : World :=
  with_heap [true; true; false] (world_with_file scoped_file).

(** * Properties *)

(** Case analysis on the condition of the first [if] of the goal. *)
Ltac case_if :=
  match goal with |- context [if ?b then _ else _] => destruct b end.

(** Unfolding the monad and the console and stream primitives. *)
Ltac unfold_io :=
  unfold mbind, M_bind, mret, M_ret, printf, eprintf, isatty_stdin,
    fgets_stdin, fopen_read.

Lemma LINE_MAX_eq : LINE_MAX = 4096.
Proof. reflexivity. Qed.

Opaque LINE_MAX.

(** ** Characters and trimming *)

Lemma skip_space_blank ws s : blank ws → skip_space (ws ++ s) = skip_space s.
Proof.
  induction 1 as [|c ws Hc _ IH]; simpl; [done|]. by rewrite Hc.
Qed.

Lemma skip_space_head s :
  (∀ c, head s = Some c → isspace c = false) → skip_space s = s.
Proof.
  destruct s as [|c s]; simpl; [done|]. intros H. by rewrite (H c).
Qed.

Lemma skip_space_nonspace s c r : skip_space s = c :: r → isspace c = false.
Proof.
  induction s as [|d s IH]; simpl; [done|].
  destruct (isspace d) eqn:Hd; [done|]. by intros [= <- <-].
Qed.

Lemma blank_reverse ws : blank ws → blank (reverse ws).
Proof. apply Forall_reverse. Qed.

Lemma strip_trailing_space_blank s ws :
  blank ws → strip_trailing_space (s ++ ws) = strip_trailing_space s.
Proof.
  intros H. unfold strip_trailing_space.
  rewrite reverse_app, skip_space_blank; [done|]. by apply blank_reverse.
Qed.

Lemma strip_trailing_space_last s :
  (∀ c, last s = Some c → isspace c = false) → strip_trailing_space s = s.
Proof.
  intros H. unfold strip_trailing_space.
  rewrite skip_space_head; [apply reverse_involutive|].
  intros c Hc. apply H. by rewrite <- Hc, head_reverse.
Qed.

Lemma strip_trailing_space_cons c s :
  isspace c = false →
  strip_trailing_space (c :: s) = c :: strip_trailing_space s.
Proof.
  intros Hc. unfold strip_trailing_space. rewrite reverse_cons.
  induction (reverse s) as [|d r IH]; simpl.
  - by rewrite Hc.
  - destruct (isspace d); [apply IH|].
    by rewrite !reverse_cons, reverse_app, reverse_singleton.
Qed.

(** [trim_inplace] removes the whitespace at both ends. *)
Lemma trim_inplace_strip s :
  trim_inplace s = strip_trailing_space (skip_space s).
Proof.
  unfold trim_inplace.
  assert (H : ∀ c r, skip_space s = c :: r → isspace c = false).
  { induction s as [|d s IH]; simpl; [done|].
    destruct (isspace d) eqn:Hd; [done|]. intros c r [= <- <-]. done. }
  destruct (skip_space s) as [|c r]; [done|].
  by rewrite strip_trailing_space_cons; [|eapply H].
Qed.

Lemma trim_inplace_tight ws1 core ws2 :
  blank ws1 → blank ws2 → tight core →
  trim_inplace (ws1 ++ core ++ ws2) = core.
Proof.
  intros H1 H2 [Hh Hl]. rewrite trim_inplace_strip, skip_space_blank by done.
  destruct core as [|c core].
  - simpl. replace (skip_space ws2) with (@nil ascii); [done|].
    symmetry. rewrite <- (app_nil_r ws2). by rewrite skip_space_blank.
  - rewrite skip_space_head.
    + rewrite strip_trailing_space_blank by done.
      by apply strip_trailing_space_last.
    + simpl. intros d [= <-]. by apply Hh.
Qed.

(** ** Allocation that does not fail *)


Lemma malloc_ok w : heap w = [] → malloc w = (true, w).
Proof. unfold malloc. by intros ->. Qed.

Lemma xstrdup_ok s w : heap w = [] → xstrdup (Some s) w = (Some s, w).
Proof.
  intros H. unfold xstrdup, mbind, M_bind. by rewrite malloc_ok.
Qed.

(** ** Value parser: quoted values *)

Lemma copy_quoted_app Q enc text stop extra :
  Q ≠ BACKSLASH →
  quoted_text Q enc text →
  (∀ idx, copy_quoted Q stop idx = take (LINE_MAX - 1 - idx) extra) →
  ∀ idx, copy_quoted Q (enc ++ stop) idx
         = take (LINE_MAX - 1 - idx) (text ++ extra).
Proof.
  intros HQB Henc Hstop.
  induction Henc as [|c enc text HQ HB _ IH|d enc text _ IH]; intros idx.
  - apply Hstop.
  - simpl. apply Ascii.eqb_neq in HQ, HB. rewrite HQ, HB. simpl.
    destruct (Nat.ltb_spec idx (LINE_MAX - 1)); simpl.
    + rewrite IH.
      by replace (LINE_MAX - 1 - idx) with (S (LINE_MAX - 1 - S idx)) by lia.
    + by replace (LINE_MAX - 1 - idx) with 0 by lia.
  - cbn [copy_quoted app].
    assert ((BACKSLASH =? Q)%char = false) as ->
      by (apply Ascii.eqb_neq; congruence).
    rewrite Ascii.eqb_refl. cbn [orb negb].
    destruct (Nat.ltb_spec idx (LINE_MAX - 1)); simpl.
    + rewrite IH.
      by replace (LINE_MAX - 1 - idx) with (S (LINE_MAX - 1 - S idx)) by lia.
    + by replace (LINE_MAX - 1 - idx) with 0 by lia.
Qed.

Lemma copy_quoted_closed Q enc text tail :
  Q ≠ BACKSLASH → quoted_text Q enc text →
  copy_quoted Q (enc ++ Q :: tail) 0 = take (LINE_MAX - 1) text.
Proof.
  intros HQ H. rewrite (copy_quoted_app Q enc text (Q :: tail) []); try done.
  - by rewrite app_nil_r, Nat.sub_0_r.
  - intros idx. simpl. rewrite Ascii.eqb_refl. simpl. by rewrite take_nil.
Qed.

Lemma copy_quoted_open Q enc text :
  Q ≠ BACKSLASH → quoted_text Q enc text →
  copy_quoted Q enc 0 = take (LINE_MAX - 1) text.
Proof.
  intros HQ H. rewrite <- (app_nil_r enc).
  rewrite (copy_quoted_app Q enc text [] []); try done.
  - by rewrite app_nil_r, Nat.sub_0_r.
  - intros idx. by rewrite take_nil.
Qed.

Lemma copy_quoted_dangling Q enc text :
  Q ≠ BACKSLASH → quoted_text Q enc text →
  copy_quoted Q (enc ++ [BACKSLASH]) 0
  = take (LINE_MAX - 1) (text ++ [BACKSLASH]).
Proof.
  intros HQ H.
  rewrite (copy_quoted_app Q enc text [BACKSLASH] [BACKSLASH]);
    [by rewrite ?Nat.sub_0_r|done|done|].
  intros idx. cbn [copy_quoted].
    assert ((BACKSLASH =? Q)%char = false) as ->
      by (apply Ascii.eqb_neq; congruence).
  rewrite Ascii.eqb_refl. cbn [orb negb].
  destruct (Nat.ltb_spec idx (LINE_MAX - 1)); simpl.
  - destruct (LINE_MAX - 1 - idx) eqn:E; [lia|]. simpl. by rewrite take_nil.
  - by replace (LINE_MAX - 1 - idx) with 0 by lia.
Qed.

Lemma quoted_text_length Q enc text :
  quoted_text Q enc text → length text ≤ length enc.
Proof. induction 1; simpl; lia. Qed.

(** Every text splits into a quoted text and what ends it: the end of the
    input, a closing quote, or a backslash with nothing after it. *)
Lemma quoted_text_total Q body :
  ∃ enc text, quoted_text Q enc text ∧
    (body = enc ∨ body = enc ++ [BACKSLASH] ∨ ∃ tail, body = enc ++ Q :: tail).
Proof.
  assert (H : ∀ n body, length body < n → ∃ enc text, quoted_text Q enc text ∧
    (body = enc ∨ body = enc ++ [BACKSLASH] ∨ ∃ tail, body = enc ++ Q :: tail)).
  { clear body. induction n as [|n IH]; intros body Hn; [lia|].
    destruct body as [|c body].
    { exists [], []. split; [constructor|by left]. }
    destruct (decide (c = Q)) as [->|HQ].
    { exists [], []. split; [constructor|]. right; right. by exists body. }
    destruct (decide (c = BACKSLASH)) as [->|HB].
    - destruct body as [|d body].
      { exists [], []. split; [constructor|]. right; by left. }
      destruct (IH body) as (enc & text & Ht & Hb); [simpl in Hn; lia|].
      exists (BACKSLASH :: d :: enc), (d :: text). split; [by constructor|].
      destruct Hb as [->| [->|[tail ->]]]; [by left|right; by left|].
      right; right. by exists tail.
    - destruct (IH body) as (enc & text & Ht & Hb); [simpl in Hn; lia|].
      exists (c :: enc), (c :: text). split; [by constructor|].
      destruct Hb as [->| [->|[tail ->]]]; [by left|right; by left|].
      right; right. by exists tail. }
  apply (H (S (length body))). lia.
Qed.

Lemma parse_value_buf_quoted ws Q body :
  blank ws → Q = DQUOTE ∨ Q = SQUOTE →
  parse_value_buf (ws ++ Q :: body) = copy_quoted Q body 0.
Proof.
  intros Hws HQ. unfold parse_value_buf. rewrite skip_space_blank by done.
  by destruct HQ as [-> | ->].
Qed.

Lemma parse_value_ok raw w :
  heap w = [] → parse_value raw w = (Some (parse_value_buf raw), w).
Proof. intros H. unfold parse_value. by apply xstrdup_ok. Qed.

(** C3.  A value whose first character after the whitespace is a quote [Q]
    parses to the text between the quotes: the characters up to the next
    unescaped [Q], each backslash and its follower replaced by the follower,
    ['#'] kept.  Without a closing [Q] the text runs to the end of the input
    (a backslash that ends the input stands for itself).  In every case the
    result is cut after [LINE_MAX - 1] characters, which a value of fewer than
    [LINE_MAX] characters never reaches; allocation apart, no error
    arises. *)
Theorem parse_value_quoted (w : World) (ws : cstring) (Q : ascii) :
  heap w = [] → blank ws → Q = DQUOTE ∨ Q = SQUOTE →
  let parse raw := fst (parse_value raw w) in
  (∀ enc text tail, quoted_text Q enc text →
     parse (ws ++ Q :: enc ++ Q :: tail) = Some (take (LINE_MAX - 1) text)) ∧
  (∀ enc text, quoted_text Q enc text →
     parse (ws ++ Q :: enc) = Some (take (LINE_MAX - 1) text)) ∧
  (∀ enc text, quoted_text Q enc text →
     parse (ws ++ Q :: enc ++ [BACKSLASH])
     = Some (take (LINE_MAX - 1) (text ++ [BACKSLASH]))) ∧
  (∀ enc text, quoted_text Q enc text → length enc < LINE_MAX →
     take (LINE_MAX - 1) text = text) ∧
  (∀ enc text, quoted_text Q enc text →
     length (enc ++ [BACKSLASH]) < LINE_MAX →
     take (LINE_MAX - 1) (text ++ [BACKSLASH]) = text ++ [BACKSLASH]) ∧
  (∀ body, ∃ enc text, quoted_text Q enc text ∧
     (body = enc ∨ body = enc ++ [BACKSLASH] ∨
      ∃ tail, body = enc ++ Q :: tail)) ∧
  parse (DQUOTE :: cs "a#b" ++ [DQUOTE]) = Some (cs "a#b") ∧
  parse (DQUOTE :: cs "a\" ++ [DQUOTE] ++ cs "b" ++ [DQUOTE])
  = Some (cs "a" ++ [DQUOTE] ++ cs "b").
Proof.
  intros Hheap Hws HQ parse. subst parse. simpl.
  assert (HQB : Q ≠ BACKSLASH) by (by destruct HQ as [-> | ->]).
  repeat apply conj.
  - intros enc text tail Ht.
    rewrite parse_value_ok, parse_value_buf_quoted by done. simpl.
    by rewrite (copy_quoted_closed Q enc text).
  - intros enc text Ht.
    rewrite parse_value_ok, parse_value_buf_quoted by done. simpl.
    by rewrite (copy_quoted_open Q enc text).
  - intros enc text Ht.
    rewrite parse_value_ok, parse_value_buf_quoted by done. simpl.
    by rewrite (copy_quoted_dangling Q enc text).
  - intros enc text Ht Hlen. apply take_ge.
    apply quoted_text_length in Ht. lia.
  - intros enc text Ht Hlen. apply take_ge.
    apply quoted_text_length in Ht. rewrite length_app in *. simpl in *. lia.
  - apply quoted_text_total.
  - rewrite parse_value_ok by done. by vm_compute.
  - rewrite parse_value_ok by done. by vm_compute.
Qed.

Lemma parse_value_quoted_witness :
  heap world0 = [] ∧ blank [] ∧ (DQUOTE = DQUOTE ∨ DQUOTE = SQUOTE) ∧
  fst (parse_value (DQUOTE :: cs "x y" ++ [DQUOTE]) world0)
  = Some (take (LINE_MAX - 1) (cs "x y")).
Proof.
  split; [reflexivity|]. split; [constructor|]. split; [by left|].
  apply (proj1 (parse_value_quoted world0 [] DQUOTE
                  eq_refl (Forall_nil_2 _) (or_introl eq_refl))
           (cs "x y") (cs "x y") []).
  repeat constructor; discriminate.
Defined.

(** ** Value parser: unquoted values *)

Lemma copy_unquoted_span span rest :
  "#" ∉ span → rest = [] ∨ (∃ comment, rest = "#" :: comment) →
  ∀ idx, copy_unquoted (span ++ rest) idx = take (LINE_MAX - 1 - idx) span.
Proof.
  intros Hspan Hrest. induction span as [|c span IH]; intros idx.
  - rewrite take_nil. destruct Hrest as [-> | [comment ->]]; [done|].
    simpl. by destruct (negb _).
  - apply not_elem_of_cons in Hspan as [Hc Hspan].
    cbn [copy_unquoted app].
    assert ((c =? "#")%char = false) as -> by (apply Ascii.eqb_neq; congruence).
    destruct (Nat.ltb_spec idx (LINE_MAX - 1)); simpl.
    + rewrite IH by done.
      by replace (LINE_MAX - 1 - idx) with (S (LINE_MAX - 1 - S idx)) by lia.
    + by replace (LINE_MAX - 1 - idx) with 0 by lia.
Qed.

Lemma blank_take n ws : blank ws → blank (take n ws).
Proof. apply Forall_take. Qed.

Lemma blank_no_hash ws : blank ws → "#" ∉ ws.
Proof.
  intros H Hin. eapply Forall_forall in H; [|exact Hin]. discriminate.
Qed.

Lemma skip_space_all_blank ws : blank ws → skip_space ws = [].
Proof.
  intros H. rewrite <- (app_nil_r ws). by rewrite skip_space_blank.
Qed.

Lemma parse_value_buf_unquoted ws1 core ws2 rest :
  blank ws1 → blank ws2 → tight core → "#" ∉ core →
  (∀ c, head core = Some c → c ≠ DQUOTE ∧ c ≠ SQUOTE) →
  rest = [] ∨ (∃ comment, rest = "#" :: comment) →
  parse_value_buf (ws1 ++ core ++ ws2 ++ rest)
  = strip_trailing_space (take (LINE_MAX - 1) core).
Proof.
  intros H1 H2 [Hh Hl] Hhash Hquote Hrest.
  unfold parse_value_buf. rewrite skip_space_blank by done.
  destruct core as [|c core].
  - simpl. rewrite skip_space_blank by done. rewrite take_nil.
    destruct Hrest as [-> | [comment ->]]; [done|]. simpl.
    by destruct (negb _).
  - cbn [app]. cbn [skip_space]. rewrite (Hh c) by done.
    destruct (Hquote c) as [Hd Hs]; [done|].
    apply Ascii.eqb_neq in Hd, Hs. rewrite Hd, Hs. cbn [orb].
    change (c :: core ++ ws2 ++ rest) with ((c :: core) ++ ws2 ++ rest).
    rewrite app_assoc, copy_unquoted_span; [|..|done].
    + rewrite Nat.sub_0_r, take_app, strip_trailing_space_blank
        by by apply blank_take.
      rewrite LINE_MAX_eq. cbn [Nat.sub take].
      rewrite strip_trailing_space_cons by by apply Hh.
      cbn [skip_space]. by rewrite (Hh c).
    + rewrite not_elem_of_app. split; [done|]. by apply blank_no_hash.
Qed.

Lemma skip_space_decomp s : ∃ ws, s = ws ++ skip_space s ∧ blank ws.
Proof.
  induction s as [|c s (ws & Hs & Hws)]; simpl.
  - exists []. split; [done|constructor].
  - destruct (isspace c) eqn:Hc.
    + exists (c :: ws). split; [simpl; congruence|by constructor].
    + exists []. split; [done|constructor].
Qed.

(** Every text is its trimmed text with whitespace around it. *)
Lemma trim_decomposition s :
  ∃ ws1 ws2, s = ws1 ++ trim s ++ ws2 ∧ blank ws1 ∧ blank ws2 ∧ tight (trim s).
Proof.
  destruct (skip_space_decomp s) as (ws1 & Hs & H1).
  destruct (skip_space_decomp (reverse (skip_space s))) as (ws2 & Hr & H2).
  exists ws1, (reverse ws2). repeat apply conj.
  - rewrite Hs at 1. f_equal. unfold trim, strip_trailing_space.
    rewrite <- reverse_app, <- Hr. by rewrite reverse_involutive.
  - done.
  - by apply blank_reverse.
  - unfold trim. intros c Hc.
    destruct (skip_space s) as [|d r] eqn:E; [done|].
    assert (isspace d = false) by by eapply skip_space_nonspace.
    rewrite strip_trailing_space_cons in Hc by done. by injection Hc as <-.
  - unfold trim, strip_trailing_space. intros c Hc.
    rewrite last_reverse in Hc.
    destruct (skip_space (reverse (skip_space s))) as [|d r] eqn:E; [done|].
    injection Hc as <-. by eapply skip_space_nonspace.
Qed.

(** C4.  An unquoted value is copied up to the first ['#'] or the end of the
    input, and the whitespace at both ends of that span is removed: a value
    made of whitespace, a core without ['#'] that neither starts nor ends
    with whitespace (nor starts with a quote), whitespace again and then
    nothing or a comment parses to the core -- cut after [LINE_MAX - 1]
    characters, which a core of fewer than [LINE_MAX] characters never
    reaches.  Said with a function: a span without ['#'] that is shorter
    than [LINE_MAX] and whose first character after the whitespace is no
    quote, followed by nothing or a comment, parses to the span trimmed.  So
    a value without quotes and ['#'] comes back trimmed and otherwise
    unchanged, and [a # b] gives [a]. *)
Theorem parse_value_unquoted (w : World) (ws1 core ws2 rest : cstring) :
  heap w = [] → blank ws1 → blank ws2 → tight core → "#" ∉ core →
  (∀ c, head core = Some c → c ≠ DQUOTE ∧ c ≠ SQUOTE) →
  rest = [] ∨ (∃ comment, rest = "#" :: comment) →
  let parse raw := fst (parse_value raw w) in
  parse (ws1 ++ core ++ ws2 ++ rest)
  = Some (strip_trailing_space (take (LINE_MAX - 1) core)) ∧
  (length core < LINE_MAX → parse (ws1 ++ core ++ ws2 ++ rest) = Some core) ∧
  (∀ span,
     "#" ∉ span → length span < LINE_MAX →
     (∀ c, head (skip_space span) = Some c → c ≠ DQUOTE ∧ c ≠ SQUOTE) →
     parse (span ++ rest) = Some (trim span)) ∧
  parse (cs "a # b") = Some (cs "a").
Proof.
  intros Hheap H1 H2 Htight Hhash Hquote Hrest parse. subst parse. simpl.
  repeat apply conj.
  - by rewrite parse_value_ok, parse_value_buf_unquoted.
  - intros Hlen. rewrite parse_value_ok, parse_value_buf_unquoted by done.
    simpl. rewrite take_ge by lia.
    rewrite strip_trailing_space_last; [done|apply Htight].
  - intros span Hspan Hlen Hq.
    destruct (trim_decomposition span) as (l & r & Hs & Hl & Hr & Ht).
    assert (Hsub : ∀ c, c ∈ trim span → c ∈ span).
    { intros c Hc. rewrite Hs. rewrite !elem_of_app. right. by left. }
    assert (Hlen' : length (trim span) ≤ length span).
    { rewrite Hs at 2. rewrite !length_app. lia. }
    rewrite parse_value_ok by done. cbn [fst]. f_equal.
    rewrite Hs at 1. rewrite <- !app_assoc.
    rewrite parse_value_buf_unquoted; try done.
    + rewrite take_ge by lia. apply strip_trailing_space_last, Ht.
    + intros H. by apply Hspan, Hsub.
    + intros c Hc. apply Hq. unfold trim in Hc.
      destruct (skip_space span) as [|d t] eqn:E; [done|].
      assert (isspace d = false) by by eapply skip_space_nonspace.
      by rewrite strip_trailing_space_cons in Hc.
  - rewrite parse_value_ok by done. by vm_compute.
Qed.

Lemma parse_value_unquoted_witness :
  fst (parse_value (cs "  x y  # note") world0)
  = Some (strip_trailing_space (take (LINE_MAX - 1) (cs "x y"))).
Proof.
  refine (proj1 (parse_value_unquoted world0 (cs "  ") (cs "x y") (cs "  ")
                   (cs "# note") eq_refl _ _ _ _ _ _)).
  - repeat constructor.
  - repeat constructor.
  - split; intros c [= <-]; reflexivity.
  - intros H. by repeat (apply elem_of_cons in H as [H|H]; [discriminate|]);
      apply elem_of_nil in H.
  - intros c [= <-]. split; discriminate.
  - right. by eexists.
Defined.

(** ** Variable expander *)

Lemma strchr_Some s c before after :
  strchr s c = Some (before, after) → s = before ++ c :: after ∧ c ∉ before.
Proof.
  revert before. induction s as [|d s IH]; intros before; simpl; [done|].
  destruct (Ascii.eqb_spec d c) as [->|Hd].
  - intros [= <- <-]. split; [done|]. apply not_elem_of_nil.
  - destruct (strchr s c) as [[b a]|]; [|done]. intros [= <- <-].
    destruct (IH b eq_refl) as [-> Hb]. split; [done|].
    apply not_elem_of_cons. split; [congruence|done].
Qed.

Lemma strchr_None s c : strchr s c = None ↔ c ∉ s.
Proof.
  induction s as [|d s IH]; simpl.
  - split; [intros _; apply not_elem_of_nil|done].
  - destruct (Ascii.eqb_spec d c) as [->|Hd].
    + split; [done|]. intros H. destruct H. by left.
    + rewrite not_elem_of_cons. destruct (strchr s c) as [[b a]|].
      * split; [done|]. intros [_ H]. by apply IH in H.
      * split; [|done]. intros _. split; [congruence|]. by apply IH.
Qed.

Lemma strchr_app s c after : c ∉ s → strchr (s ++ c :: after) c = Some (s, after).
Proof.
  induction s as [|d s IH]; simpl; intros H.
  - by rewrite Ascii.eqb_refl.
  - apply not_elem_of_cons in H as [Hd H].
    assert ((d =? c)%char = false) as -> by (apply Ascii.eqb_neq; congruence).
    by rewrite IH.
Qed.

Lemma expand_loop_expansion w :
  heap w = [] →
  ∀ fuel p out out_cap,
    expand_loop fuel p out out_cap w
    = (Some (out ++ expansion (environ w) fuel p), w).
Proof.
  intros Hheap. induction fuel as [|fuel IH]; intros p out out_cap.
  - destruct p; simpl; by rewrite app_nil_r.
  - destruct p as [|c p']; [simpl; by rewrite app_nil_r|].
    assert (Hcopy :
      (if out_cap <? length out + 2
       then ok ← malloc;
            if ok : bool
            then expand_loop fuel p' (out ++ [c]) ((out_cap + 64) * 2)
            else mret None
       else expand_loop fuel p' (out ++ [c]) out_cap) w
      = (Some (out ++ c :: expansion (environ w) fuel p'), w)).
    { destruct (out_cap <? length out + 2);
        unfold mbind, M_bind; rewrite ?malloc_ok by done;
        rewrite IH; by rewrite <- app_assoc. }
    cbn [expand_loop expansion].
    destruct ((c =? "$")%char && starts_with (cs "{") p'); [|exact Hcopy].
    destruct (find_close (tail p')) as [[name rest]|]; [|exact Hcopy].
    unfold mbind, M_bind, getenv. rewrite malloc_ok by done.
    case_if; cbv beta; rewrite ?malloc_ok by done;
      rewrite IH; by rewrite <- app_assoc.
Qed.

Lemma expand_vars_ok w inp :
  heap w = [] → expand_vars inp w = (Some (expand (environ w) inp), w).
Proof.
  intros H. unfold expand_vars, mbind, M_bind. rewrite malloc_ok by done.
  by rewrite expand_loop_expansion.
Qed.


Lemma expand_nil env : expand env [] = [].
Proof. done. Qed.

Lemma expansion_cons env fuel c p' :
  expansion env (S fuel) (c :: p')
  = if (c =? "$")%char && starts_with (cs "{") p' then
      match find_close (tail p') with
      | Some (name, rest) => default [] (env !! name) ++ expansion env fuel rest
      | None => c :: expansion env fuel p'
      end
    else c :: expansion env fuel p'.
Proof. done. Qed.





(** ** Delimiter splitter *)

Lemma trim_string_copy_ok start w :
  heap w = [] → trim_string_copy start w = (Some (trim start), w).
Proof.
  intros H. unfold trim_string_copy, mbind, M_bind, trim.
  rewrite xstrdup_ok by done. destruct (skip_space start) as [|c r] eqn:E.
  - done.
  - rewrite strip_trailing_space_cons; [done|]. by eapply skip_space_nonspace.
Qed.

Lemma split_spec_delim delim c s :
  is_delim delim c = true → split_spec delim (c :: s) = split_spec delim s.
Proof.
  intros H. unfold split_spec. simpl. rewrite H. simpl.
  by rewrite filter_cons_False by (intros ?; done).
Qed.

Lemma split_spec_skip_delims delim s :
  split_spec delim (skip_delims delim s) = split_spec delim s.
Proof.
  induction s as [|c s IH]; simpl; [done|].
  destruct (is_delim delim c) eqn:Hc; [|done].
  by rewrite IH, split_spec_delim.
Qed.

Lemma partitions_token_end delim s :
  ∃ tl, partitions delim s = (token_end delim s).1 :: tl ∧
        (tl = partitions delim (token_end delim s).2 ∨
         (tl = [] ∧ (token_end delim s).2 = [])).
Proof.
  induction s as [|c s (tl & Hp & Htl)]; simpl.
  - exists []. split; [done|]. by right.
  - destruct (is_delim delim c).
    + exists (partitions delim s). split; [done|]. by left.
    + rewrite Hp. destruct (token_end delim s) as [token rest]. simpl in *.
      by exists tl.
Qed.

Lemma split_spec_token_end delim s :
  split_spec delim s
  = filter (λ t, t ≠ []) [trim (token_end delim s).1]
    ++ split_spec delim (token_end delim s).2.
Proof.
  destruct (partitions_token_end delim s) as (tl & Hp & Htl).
  assert (Htail : filter (λ t, t ≠ []) (trim <$> tl)
                  = split_spec delim (token_end delim s).2)
    by (destruct Htl as [-> | [-> ->]]; done).
  unfold split_spec at 1. rewrite Hp, fmap_cons, !filter_cons, filter_nil, Htail.
  by case_decide.
Qed.

Lemma token_end_length delim s :
  length (token_end delim s).2 ≤ length s.
Proof.
  induction s as [|c s IH]; simpl; [done|].
  destruct (is_delim delim c); simpl; [lia|].
  destruct (token_end delim s). simpl in *. lia.
Qed.

Lemma skip_delims_length delim s : length (skip_delims delim s) ≤ length s.
Proof.
  induction s as [|c s IH]; simpl; [done|].
  destruct (is_delim delim c); simpl; lia.
Qed.

Lemma strtok_None delim s : strtok delim s = None → split_spec delim s = [].
Proof.
  unfold strtok. intros H. rewrite <- split_spec_skip_delims.
  by destruct (skip_delims delim s).
Qed.

Lemma strtok_Some delim s token rest :
  strtok delim s = Some (token, rest) →
  split_spec delim s = filter (λ t, t ≠ []) [trim token] ++ split_spec delim rest
  ∧ length rest < length s.
Proof.
  unfold strtok. intros H. rewrite <- split_spec_skip_delims.
  pose proof (skip_delims_length delim s) as Hlen.
  destruct (skip_delims delim s) as [|c s'] eqn:E; [done|].
  assert (H' : token_end delim (c :: s') = (token, rest)) by congruence.
  clear H. rewrite split_spec_token_end, H'. split; [done|].
  assert (is_delim delim c = false) as Hc.
  { clear -E. induction s as [|d s IH]; simpl in E; [done|].
    destruct (is_delim delim d) eqn:Hd; [auto|]. by injection E as -> _. }
  cbn [token_end] in H'. rewrite Hc in H'.
  pose proof (token_end_length delim s') as Hlen'.
  destruct (token_end delim s'). injection H' as _ <-. simpl in *. lia.
Qed.

Lemma split_loop_ok w delim :
  heap w = [] →
  ∀ fuel rest result capacity count,
    length rest ≤ fuel → length result = capacity → count < capacity →
    ∃ array,
      split_loop fuel delim rest result capacity count w
      = (Some (array, count + length (split_spec delim rest)), w) ∧
      take (count + length (split_spec delim rest)) array
      = take count result ++ (Str <$> split_spec delim rest) ∧
      array !! (count + length (split_spec delim rest)) = Some Null.
Proof.
  intros Hheap.
  assert (Hstop : ∀ rest result capacity count,
    split_spec delim rest = [] → length result = capacity → count < capacity →
    ∃ array,
      (Some (<[count := Null]> result, count), w)
      = (Some (array, count + length (split_spec delim rest)), w) ∧
      take (count + length (split_spec delim rest)) array
      = take count result ++ (Str <$> split_spec delim rest) ∧
      array !! (count + length (split_spec delim rest)) = Some Null).
  { intros rest result capacity count -> Hlen Hcount. simpl.
    rewrite Nat.add_0_r, app_nil_r. eexists. split; [done|]. split.
    - by rewrite take_insert_ge.
    - apply list_lookup_insert_eq. lia. }
  induction fuel as [|fuel IH]; intros rest result capacity count Hfuel Hlen Hcount.
  - destruct rest; [|simpl in Hfuel; lia]. by eapply Hstop.
  - cbn [split_loop]. destruct (strtok delim rest) as [[token rest']|] eqn:Htok.
    2:{ eapply Hstop; [by apply strtok_None|done..]. }
    apply strtok_Some in Htok as [-> Hrest].
    unfold mbind, M_bind. rewrite trim_string_copy_ok by done.
    destruct (trim token) as [|c t] eqn:Htrim.
    + rewrite filter_cons_False by (intros ?; done). rewrite filter_nil.
      apply IH; [lia|done..].
    + rewrite filter_cons_True by done. rewrite filter_nil. cbn [app length fmap].
      replace (count + S (length (split_spec delim rest')))
        with (S count + length (split_spec delim rest')) by lia.
      destruct (Nat.leb_spec (capacity - 1) count);
        cbv beta; rewrite ?malloc_ok by done.
      * destruct (IH rest'
          (<[count:=Str (c :: t)]> (result ++ replicate capacity Uninit))
          (capacity * 2) (S count)) as (array & -> & Htake & Hnull);
          [lia | rewrite length_insert, length_app, length_replicate; lia
          | lia |].
        exists array. split; [done|]. split; [|done].
        rewrite Htake. rewrite (take_S_r _ _ (Str (c :: t)))
          by (apply list_lookup_insert_eq;
              rewrite length_app, length_replicate; lia).
        rewrite take_insert_ge, take_app_le by lia.
        by rewrite <- app_assoc.
      * destruct (IH rest' (<[count:=Str (c :: t)]> result) capacity (S count))
          as (array & -> & Htake & Hnull);
          [lia | by rewrite length_insert | lia |].
        exists array. split; [done|]. split; [|done].
        rewrite Htake. rewrite (take_S_r _ _ (Str (c :: t)))
          by (apply list_lookup_insert_eq; lia).
        rewrite take_insert_ge by lia. by rewrite <- app_assoc.
Qed.

Lemma get_env_split_ok w key value delim count_out :
  heap w = [] → environ w !! key = Some value → value ≠ [] → delim ≠ [] →
  ∃ array,
    get_env key (Some delim) count_out w
    = ((Some array,
        if count_out then Some (length (split_spec delim value)) else None), w)
    ∧ holds array (split_spec delim value).
Proof.
  intros Hheap Hkey Hvalue Hdelim.
  destruct value as [|v value]; [done|]. destruct delim as [|d delim]; [done|].
  destruct (split_loop_ok w (d :: delim) Hheap (length (v :: value))
              (v :: value) (replicate 10 Uninit) 10 0)
    as (array & Hloop & Htake & Hnull); [done|done|lia|].
  exists array. split; [|by split].
  unfold get_env, mbind, M_bind, getenv. rewrite Hkey.
  rewrite xstrdup_ok, malloc_ok by done. by rewrite Hloop.
Qed.

(** C5.  For a variable with a non-empty value and a non-empty delimiter
    string, [get_env] returns the pieces of the value between the delimiter
    characters, each trimmed, the ones that are empty after trimming left out,
    in their order, followed by [NULL], and reports how many they are.  The
    value [a, b ,c,, ] split at [,] gives [a], [b], [c]. *)
Theorem get_env_split (w : World) (key value delim : cstring) :
  heap w = [] → environ w !! key = Some value → value ≠ [] → delim ≠ [] →
  (∃ array,
     get_env key (Some delim) true w
     = ((Some array, Some (length (split_spec delim value))), w) ∧
     holds array (split_spec delim value)) ∧
  (value = cs "a, b ,c,, " → delim = cs "," →
   split_spec delim value = [cs "a"; cs "b"; cs "c"]).
Proof.
  intros Hheap Hkey Hvalue Hdelim. split.
  - by apply (get_env_split_ok w key value delim true).
  - intros -> ->. by vm_compute.
Qed.

Lemma get_env_split_witness :
  ∃ array,
    get_env (cs "USERS") (Some (cs ",")) true
      (world_with_var (cs "USERS") (cs "a, b ,c,, "))
    = ((Some array, Some 3), world_with_var (cs "USERS") (cs "a, b ,c,, ")) ∧
    holds array [cs "a"; cs "b"; cs "c"].
Proof.
  destruct (get_env_split (world_with_var (cs "USERS") (cs "a, b ,c,, "))
              (cs "USERS") (cs "a, b ,c,, ") (cs ","))
    as [Hsplit Hex]; [reflexivity|apply lookup_singleton_eq|done|done|].
  rewrite (Hex eq_refl eq_refl) in Hsplit. exact Hsplit.
Defined.

(** ** The array is NULL-terminated *)

Lemma split_loop_null delim fuel :
  ∀ rest result capacity count w array n w',
    length result = capacity → count < capacity →
    split_loop fuel delim rest result capacity count w
    = (Some (array, n), w') →
    array !! n = Some Null.
Proof.
  assert (Hstop : ∀ (result : list cell) capacity count (w : World)
                     array n (w' : World),
    length result = capacity → count < capacity →
    (Some (<[count := Null]> result, count), w) = (Some (array, n), w') →
    array !! n = Some Null).
  { intros result capacity count w array n w' Hlen Hcount [= <- <- _].
    apply list_lookup_insert_eq. lia. }
  induction fuel as [|fuel IH];
    intros rest result capacity count w array n w' Hlen Hcount.
  - cbn [split_loop]. destruct (strtok delim rest) as [[token rest']|];
      by apply (Hstop result capacity).
  - cbn [split_loop]. destruct (strtok delim rest) as [[token rest']|];
      [|by apply (Hstop result capacity)].
    unfold mbind, M_bind.
    destruct (trim_string_copy token w) as [[[|c t]|] w1];
      [by apply IH| |by apply IH].
    destruct (Nat.leb_spec (capacity - 1) count).
    + destruct (malloc w1) as [[] w2]; [|done].
      apply IH; [|lia].
      rewrite length_insert, length_app, length_replicate. lia.
    + apply IH; [by rewrite length_insert | lia].
Qed.

(** C9.  Whenever [get_env] returns an array and a count [n], the array
    has [NULL] at index [n]: with a delimiter or without one, and whichever
    allocations fail. *)
Theorem get_env_null_terminated (w w' : World) (key : cstring)
    (delim : option cstring) (array : list cell) (n : nat) :
  get_env key delim true w = ((Some array, Some n), w') →
  array !! n = Some Null.
Proof.
  unfold get_env, mbind, M_bind, getenv.
  destruct (environ w !! key) as [[|v value]|]; [done| |done].
  destruct delim as [[|d delim]|].
  1,3: destruct (malloc w) as [[] w1]; [|done];
       destruct (trim_string_copy (v :: value) w1) as [[first|] w2]; [|done];
       by intros [= <- <- _].
  destruct (xstrdup (Some (v :: value)) w) as [[work_str|] w1]; [|done].
  destruct (malloc w1) as [[] w2]; [|done].
  destruct (split_loop _ _ _ _ _ _ w2) as [[[result count]|] w3] eqn:Hloop;
    [|done].
  intros [= <- <- _]. eapply split_loop_null; [| |exact Hloop]; [done|lia].
Qed.

Lemma get_env_null_terminated_witness :
  get_env (cs "NAME") None true (world_with_var (cs "NAME") (cs "Jaehoon Song"))
  = ((Some [Str (cs "Jaehoon Song"); Null], Some 1),
     world_with_var (cs "NAME") (cs "Jaehoon Song")) ∧
  [Str (cs "Jaehoon Song"); Null] !! 1 = Some Null.
Proof.
  split; [reflexivity|].
  apply (get_env_null_terminated
           (world_with_var (cs "NAME") (cs "Jaehoon Song"))
           (world_with_var (cs "NAME") (cs "Jaehoon Song"))
           (cs "NAME") None).
  reflexivity.
Defined.

(** ** A value with nothing but whitespace between its delimiters *)

Lemma partitions_blank delim s :
  (∀ c, c ∈ s → isspace c = true ∨ is_delim delim c = true) →
  Forall blank (partitions delim s).
Proof.
  induction s as [|c s IH]; intros H; simpl.
  - repeat constructor.
  - assert (Hs : Forall blank (partitions delim s)).
    { apply IH. intros d Hd. apply H. by right. }
    destruct (is_delim delim c) eqn:Hc.
    + constructor; [constructor|done].
    + destruct (H c) as [Hsp|Hd]; [by left| |congruence].
      destruct (partitions delim s) as [|p ps].
      * repeat constructor. done.
      * inversion Hs; subst. constructor; [by constructor|done].
Qed.

Lemma split_spec_blank delim s :
  (∀ c, c ∈ s → isspace c = true ∨ is_delim delim c = true) →
  split_spec delim s = [].
Proof.
  intros H. apply partitions_blank in H. unfold split_spec.
  induction H as [|p ps Hp _ IH]; [done|].
  rewrite fmap_cons, filter_cons_False; [done|].
  intros Hne. apply Hne. unfold trim. by rewrite skip_space_all_blank.
Qed.

(** C10.  A variable whose value is not empty but holds only whitespace
    between its delimiters (such as two spaces, a comma, two spaces, split
    at the comma) makes [get_env] return an array, with [NULL] in its first
    slot, and a count of 0; a variable that is not set or is empty makes it
    return [NULL]. *)
Theorem get_env_no_tokens (w : World) (key value delim : cstring) :
  heap w = [] → environ w !! key = Some value → value ≠ [] → delim ≠ [] →
  (∀ c, c ∈ value → isspace c = true ∨ is_delim delim c = true) →
  (∃ array,
     get_env key (Some delim) true w = ((Some array, Some 0), w) ∧
     array !! 0 = Some Null) ∧
  (∀ unset, environ w !! unset = None ∨ environ w !! unset = Some [] →
     get_env unset (Some delim) true w = ((None, Some 0), w)).
Proof.
  intros Hheap Hkey Hvalue Hdelim Hblank. split.
  - destruct (get_env_split_ok w key value delim true)
      as (array & Hget & Htake & Hnull); [done..|].
    rewrite (split_spec_blank delim value) in * by done.
    by exists array.
  - intros unset H. unfold get_env, mbind, M_bind, getenv.
    by destruct H as [-> | ->].
Qed.

Lemma get_env_no_tokens_witness :
  ∃ array,
    get_env (cs "E") (Some (cs ",")) true (world_with_var (cs "E") (cs "  ,  "))
    = ((Some array, Some 0), world_with_var (cs "E") (cs "  ,  ")) ∧
    array !! 0 = Some Null.
Proof.
  apply (get_env_no_tokens (world_with_var (cs "E") (cs "  ,  "))
           (cs "E") (cs "  ,  ") (cs ","));
    [reflexivity|apply lookup_singleton_eq|done|done|].
  intros c Hc.
  repeat (apply elem_of_cons in Hc as [-> | Hc]; [by vm_compute; auto|]).
  by apply elem_of_nil in Hc.
Defined.

(** ** Loader: reading the file *)

Lemma elem_of_skip_space c s : c ∈ skip_space s → c ∈ s.
Proof.
  induction s as [|d s IH]; simpl; [done|].
  destruct (isspace d); [|done]. intros H. right. by apply IH.
Qed.

Lemma elem_of_trim_inplace c s : c ∈ trim_inplace s → c ∈ s.
Proof.
  rewrite trim_inplace_strip. unfold strip_trailing_space.
  rewrite elem_of_reverse. intros H. apply elem_of_skip_space in H.
  rewrite elem_of_reverse in H. by apply elem_of_skip_space.
Qed.

(** A key that the loader takes from a line is one [setenv] accepts. *)
Lemma entry_of_line_key line key raw :
  entry_of_line line = Some (key, raw) → key ≠ [] ∧ "=" ∉ key.
Proof.
  unfold entry_of_line.
  destruct (trim_inplace (strncpy line (LINE_MAX - 1))) as [|c s]; [done|].
  destruct (c =? "#")%char; [done|].
  destruct (strchr _ "=") as [[k v]|] eqn:Heq; [|done].
  apply strchr_Some in Heq as [Hs Hk].
  destruct (trim_inplace (take _ _)) as [|k0 key'] eqn:Hkey; [done|].
  intros [= <- _]. split; [done|]. rewrite <- Hkey. intros Hin.
  apply elem_of_trim_inplace in Hin. rewrite Hs in Hin.
  destruct (Nat.leb_spec LINE_MAX (length k));
    rewrite take_app_le in Hin by lia; apply Hk;
    [rewrite <- (take_drop (LINE_MAX - 1) k)
    |rewrite <- (take_drop (length k) k)];
    apply elem_of_app; by left.
Qed.

Lemma set_env_var_ok key value w :
  key ≠ [] → "=" ∉ key →
  set_env_var key value w
  = (0%Z, with_environ (<[key := value]> (environ w)) w).
Proof.
  intros Hne Heq. unfold set_env_var.
  rewrite bool_decide_eq_false_2 by done.
  assert (existsb (λ c, (c =? "=")%char) key = false) as ->; [|done].
  apply not_true_is_false. intros H. apply existsb_exists in H as (c & Hc & E).
  apply Ascii.eqb_eq in E. subst. apply Heq. by apply list_elem_of_In.
Qed.

Lemma load_lines_ok fuel :
  ∀ f lineno vars_set w,
    heap w = [] →
    load_lines fuel f lineno vars_set w
    = (inr (vars_set
            + Z.of_nat (length (entries_of_lines (file_lines fuel f))))%Z,
       with_environ
         (install (environ w) (entries_of_lines (file_lines fuel f))) w).
Proof.
  induction fuel as [|fuel IH]; intros f lineno vars_set w Hheap.
  - cbn [load_lines file_lines].
    destruct (fgets LINE_MAX f) as [[line f']|]; simpl;
      rewrite Z.add_0_r; by destruct w.
  - cbn [load_lines file_lines].
    destruct (fgets LINE_MAX f) as [[line f']|];
      [|simpl; rewrite Z.add_0_r; by destruct w].
    unfold entries_of_lines. cbn [omap list_omap].
    fold (entries_of_lines (file_lines fuel f')).
    destruct (entry_of_line (c_str line)) as [[key raw]|] eqn:Hentry.
    + apply entry_of_line_key in Hentry as [Hne Heq].
      unfold mbind, M_bind.
      rewrite parse_value_ok, expand_vars_ok, set_env_var_ok by done.
      cbn [Z.eqb]. rewrite IH by done. cbn [length install foldl fst snd].
      f_equal. f_equal. lia.
    + by rewrite IH.
Qed.

Lemma load_file_ok filename content w :
  heap w = [] → files w !! filename = Some content →
  load_file filename w
  = ((false, inr (Z.of_nat (length (file_entries content)))),
     with_environ (install (environ w) (file_entries content)) w).
Proof.
  intros Hheap Hfile. unfold load_file, mbind, M_bind, fopen_read.
  rewrite Hfile. by rewrite load_lines_ok.
Qed.

Lemma load_dotenv_quiet filename content w :
  heap w = [] → files w !! filename = Some content →
  stdin_tty w = false ∨ file_entries content ≠ [] →
  load_dotenv filename w
  = (0%Z, with_environ (install (environ w) (file_entries content)) w).
Proof.
  intros Hheap Hfile Hquiet. unfold load_dotenv, mbind, M_bind.
  rewrite (load_file_ok filename content) by done.
  unfold offer_entries, mbind, M_bind, isatty_stdin. cbn [stdin_tty with_environ].
  destruct Hquiet as [-> | Hne]; [by rewrite andb_false_r|].
  destruct (file_entries content); done.
Qed.

(** ** Loading a file twice *)

(** The expansion depends on the environment only through the names it
    looks up. *)
Lemma expansion_ext env1 env2 fuel :
  ∀ p, (∀ name, name ∈ references fuel p → env1 !! name = env2 !! name) →
       expansion env1 fuel p = expansion env2 fuel p.
Proof.
  induction fuel as [|fuel IH]; intros p H; [by destruct p|].
  destruct p as [|c p']; [done|]. cbn [expansion references] in *.
  destruct ((c =? "$")%char && starts_with (cs "{") p');
    [|by rewrite IH].
  destruct (find_close (tail p')) as [[name rest]|]; [|by rewrite IH].
  rewrite (H name) by by left. rewrite (IH rest); [done|].
  intros n Hn. apply H. by right.
Qed.

Lemma expand_ext env1 env2 v :
  (∀ name, name ∈ var_refs v → env1 !! name = env2 !! name) →
  expand env1 v = expand env2 v.
Proof. apply expansion_ext. Qed.

Lemma install_cons env key raw later :
  install env ((key, raw) :: later)
  = install (<[key := expand env (parse_value_buf raw)]> env) later.
Proof. done. Qed.

Lemma install_app env pre post :
  install env (pre ++ post) = install (install env pre) post.
Proof. apply foldl_app. Qed.

(** Keys that the entries do not set keep their value. *)
Lemma install_lookup_other env entries name :
  name ∉ entries.*1 → install env entries !! name = env !! name.
Proof.
  revert env. induction entries as [|[key raw] later IH]; intros env H; [done|].
  rewrite fmap_cons in H. apply not_elem_of_cons in H as [Hne H].
  rewrite install_cons, IH by done. by rewrite lookup_insert_ne.
Qed.

Lemma scoped_cons seen key raw later :
  scoped seen ((key, raw) :: later) = true →
  (∀ name, name ∈ var_refs (parse_value_buf raw) →
           name ∈ seen ∨ name ∉ key :: later.*1) ∧
  scoped (key :: seen) later = true.
Proof.
  cbn [scoped]. intros [Hrefs Hlater]%andb_true_iff. split; [|done].
  intros name Hname. rewrite forallb_forall in Hrefs.
  specialize (Hrefs name). rewrite <- list_elem_of_In in Hrefs.
  apply Hrefs in Hname. apply orb_true_iff in Hname as [H|H].
  - left. by apply bool_decide_eq_true in H.
  - right. by apply bool_decide_eq_true in H.
Qed.

(** Two environments that agree on the keys seen so far, and on the names
    that are no key of the remaining entries, end up the same. *)
Lemma install_agree entries :
  ∀ seen env1 env2,
    scoped seen entries = true →
    (∀ name, name ∈ seen → env1 !! name = env2 !! name) →
    (∀ name, name ∉ entries.*1 → env1 !! name = env2 !! name) →
    install env1 entries = install env2 entries.
Proof.
  induction entries as [|[key raw] later IH]; intros seen env1 env2 Hsc Hseen Hout.
  - apply map_eq. intros name. apply Hout. apply not_elem_of_nil.
  - apply scoped_cons in Hsc as [Hrefs Hlater]. rewrite !install_cons.
    assert (Hv : expand env1 (parse_value_buf raw)
                 = expand env2 (parse_value_buf raw)).
    { apply expand_ext. intros name Hname.
      destruct (Hrefs name Hname) as [H|H]; [by apply Hseen|by apply Hout]. }
    rewrite Hv. apply (IH (key :: seen)); [done|..].
    + intros name Hname. destruct (decide (name = key)) as [->|Hne].
      * by rewrite !lookup_insert_eq.
      * rewrite !lookup_insert_ne by done. apply Hseen.
        by apply elem_of_cons in Hname as [?|?].
    + intros name Hname. destruct (decide (name = key)) as [->|Hne].
      * by rewrite !lookup_insert_eq.
      * rewrite !lookup_insert_ne by done. apply Hout.
        rewrite fmap_cons. by apply not_elem_of_cons.
Qed.

Lemma install_twice env entries :
  scoped [] entries = true →
  install (install env entries) entries = install env entries.
Proof.
  intros H. symmetry. apply (install_agree entries []); [done|..].
  - intros name Hname. by apply elem_of_nil in Hname.
  - intros name Hname. by rewrite install_lookup_other.
Qed.

(** C8, as the code has it.  Take a file read without a failing
    allocation and without the offer to type entries (stdin is no terminal,
    or the file sets a variable), in which every [${NAME}] of a value holds
    the name of a variable (a text that is not empty and has no ['='] in
    it) and names a key of an earlier line or no key of the file from that
    line on.  Loading it a
    second time leaves everything as the first load left it, and every key
    has the value its last line gave it. *)
Theorem load_dotenv_twice (w : World) (filename content : cstring) :
  heap w = [] → files w !! filename = Some content →
  stdin_tty w = false ∨ file_entries content ≠ [] →
  refers_to_names (file_entries content) = true →
  scoped [] (file_entries content) = true →
  let once := load_dotenv filename w in
  let twice := load_dotenv filename (snd once) in
  fst once = 0%Z ∧ fst twice = 0%Z ∧ snd twice = snd once ∧
  (∀ pre key raw post,
     file_entries content = pre ++ (key, raw) :: post → key ∉ post.*1 →
     environ (snd twice) !! key
     = Some (expand (install (environ w) pre) (parse_value_buf raw))).
Proof.
  intros Hheap Hfile Hquiet _ Hscoped once twice. subst once twice.
  rewrite (load_dotenv_quiet filename content w) by done. cbn [fst snd].
  rewrite (load_dotenv_quiet filename content) by done. cbn [fst snd].
  cbn [environ with_environ]. rewrite install_twice by done.
  repeat apply conj; [done|done|by destruct w|].
  intros pre key raw post -> Hlast.
  rewrite install_app, install_cons, install_lookup_other by done.
  apply lookup_insert_eq.
Qed.

Lemma load_dotenv_twice_witness :
  snd (load_dotenv dotenv
         (snd (load_dotenv dotenv (world_with_file scoped_file))))
  = snd (load_dotenv dotenv (world_with_file scoped_file)).
Proof.
  refine (proj1 (proj2 (proj2
    (load_dotenv_twice (world_with_file scoped_file) dotenv scoped_file
       eq_refl _ _ _ _)))).
  - apply lookup_singleton_eq.
  - by left.
  - by vm_compute.
  - by vm_compute.
Defined.

(** C8 as it is stated fails: a value that refers to a key set further down
    is expanded with the old value the first time and with the new one the
    second time. *)
Lemma load_dotenv_twice_forward_reference :
  environ (load_dotenv dotenv (world_with_file forward_file)).2 !! cs "A"
  = Some [] ∧
  environ (load_dotenv dotenv
             (load_dotenv dotenv (world_with_file forward_file)).2).2 !! cs "A"
  = Some (cs "1") ∧
  environ (load_dotenv dotenv
             (load_dotenv dotenv (world_with_file forward_file)).2).2
  ≠ environ (load_dotenv dotenv (world_with_file forward_file)).2.
Proof.
  assert (H1 : environ (load_dotenv dotenv (world_with_file forward_file)).2
               !! cs "A" = Some []) by by vm_compute.
  assert (H2 : environ (load_dotenv dotenv
                 (load_dotenv dotenv (world_with_file forward_file)).2).2
               !! cs "A" = Some (cs "1")) by by vm_compute.
  repeat apply conj; [done|done|]. intros E. rewrite E, H1 in H2. discriminate.
Qed.

(** ** Loader: the status it returns *)


Lemma load_lines_code fuel :
  ∀ f lineno vars_set w code,
    (load_lines fuel f lineno vars_set w).1 = inl code →
    code = (-2)%Z ∨ code = (-3)%Z.
Proof.
  induction fuel as [|fuel IH]; intros f lineno vars_set w code;
    cbn [load_lines]; destruct (fgets LINE_MAX f) as [[line f']|]; try done.
  destruct (entry_of_line (c_str line)) as [[keybuf val_raw]|]; [|by apply IH].
  unfold mbind, M_bind.
  destruct (parse_value val_raw w) as [[val_parsed|] w1];
    [|intros [= <-]; by left].
  destruct (expand_vars val_parsed w1) as [[val_expanded|] w2];
    [|intros [= <-]; by right].
  destruct (set_env_var keybuf val_expanded w2) as [rc w3].
  destruct (rc =? 0)%Z; [by apply IH|]. unfold eprintf. by apply IH.
Qed.

Lemma same_but_heap_refl w : same_but_heap w w.
Proof. by destruct w. Qed.

Lemma same_but_heap_trans w1 w2 w3 :
  same_but_heap w1 w2 → same_but_heap w2 w3 → same_but_heap w1 w3.
Proof. unfold same_but_heap. intros -> ->. by destruct w1. Qed.

Lemma malloc_frame w : same_but_heap w (malloc w).2.
Proof. unfold malloc. destruct (heap w) eqn:E; [apply same_but_heap_refl|done]. Qed.

Lemma xstrdup_frame s w : same_but_heap w (xstrdup s w).2.
Proof.
  destruct s as [s|]; [|apply same_but_heap_refl].
  unfold xstrdup, mbind, M_bind. pose proof (malloc_frame w) as H.
  by destruct (malloc w).
Qed.

Lemma expand_loop_frame fuel :
  ∀ p out out_cap w, same_but_heap w (expand_loop fuel p out out_cap w).2.
Proof.
  induction fuel as [|fuel IH]; intros p out out_cap w;
    (destruct p as [|c p']; [apply same_but_heap_refl|]);
    [apply same_but_heap_refl|].
  assert (Hstep : ∀ q o cap,
    same_but_heap w
      ((ok ← malloc; if ok : bool then expand_loop fuel q o cap else mret None)
         w).2).
  { intros q o cap. unfold mbind, M_bind. pose proof (malloc_frame w) as H.
    destruct (malloc w) as [[] w1]; [|done].
    eapply same_but_heap_trans; [exact H|apply IH]. }
  cbn [expand_loop].
  destruct ((c =? "$")%char && starts_with (cs "{") p').
  2:{ case_if; [apply Hstep|apply IH]. }
  destruct (find_close (tail p')) as [[name rest]|].
  2:{ case_if; [apply Hstep|apply IH]. }
  unfold mbind, M_bind, getenv. pose proof (malloc_frame w) as H.
  destruct (malloc w) as [[] w1]; [|done]. cbn [snd] in H.
  eapply same_but_heap_trans; [exact H|].
  replace (environ w1) with (environ w) by (rewrite H; by destruct w).
  case_if; [|apply IH].
  pose proof (malloc_frame w1) as H1.
  destruct (malloc w1) as [[] w2]; [|done].
  eapply same_but_heap_trans; [exact H1|apply IH].
Qed.

Lemma expand_vars_frame inp w : same_but_heap w (expand_vars inp w).2.
Proof.
  unfold expand_vars, mbind, M_bind. pose proof (malloc_frame w) as H.
  destruct (malloc w) as [[] w1]; [|done].
  eapply same_but_heap_trans; [exact H|apply expand_loop_frame].
Qed.

Lemma quiet_refl w : quiet w w.
Proof.
  repeat split. exists []. by rewrite app_nil_r.
Qed.

Lemma quiet_trans w1 w2 w3 : quiet w1 w2 → quiet w2 w3 → quiet w1 w3.
Proof.
  intros (Hf & Hi & Ht & Hd & e & Hc & He) (Hf' & Hi' & Ht' & Hd' & e' & Hc' & He').
  repeat split; try congruence. exists (e ++ e'). split.
  - by rewrite Hc', Hc, app_assoc.
  - by apply Forall_app.
Qed.

Lemma same_but_heap_quiet w w' : same_but_heap w w' → quiet w w'.
Proof.
  intros H. rewrite H. repeat split. exists []. cbn. by rewrite app_nil_r.
Qed.

Lemma set_env_var_quiet key value w : quiet w (set_env_var key value w).2.
Proof.
  unfold set_env_var. case_if; [apply quiet_refl|].
  repeat split. exists []. cbn. by rewrite app_nil_r.
Qed.

Lemma eprintf_quiet fmt args w : quiet w (eprintf fmt args w).2.
Proof. repeat split. eexists. split; [done|]. by repeat constructor. Qed.

Lemma load_lines_quiet fuel :
  ∀ f lineno vars_set w, quiet w (load_lines fuel f lineno vars_set w).2.
Proof.
  induction fuel as [|fuel IH]; intros f lineno vars_set w;
    cbn [load_lines]; destruct (fgets LINE_MAX f) as [[line f']|];
    try apply quiet_refl.
  destruct (entry_of_line (c_str line)) as [[keybuf val_raw]|]; [|by apply IH].
  unfold mbind, M_bind.
  pose proof (xstrdup_frame (Some (parse_value_buf val_raw)) w) as H1.
  fold (parse_value val_raw) in H1. apply same_but_heap_quiet in H1.
  destruct (parse_value val_raw w) as [[val_parsed|] w1]; [|done].
  pose proof (expand_vars_frame val_parsed w1) as H2.
  apply same_but_heap_quiet in H2.
  destruct (expand_vars val_parsed w1) as [[val_expanded|] w2];
    [|by eapply quiet_trans].
  pose proof (set_env_var_quiet keybuf val_expanded w2) as H3.
  destruct (set_env_var keybuf val_expanded w2) as [rc w3].
  cbn [snd] in *.
  assert (quiet w w3) as H by (do 2 (eapply quiet_trans; [|done]); done).
  destruct (rc =? 0)%Z.
  - eapply quiet_trans; [exact H|apply IH].
  - eapply quiet_trans; [exact H|].
    eapply quiet_trans; [apply eprintf_quiet|apply IH].
Qed.

Lemma load_file_quiet filename w : quiet w (load_file filename w).2.
Proof.
  unfold load_file. unfold_io. destruct (files w !! filename) as [content|];
    [|apply quiet_refl].
  pose proof (load_lines_quiet (length content) content 0 0 w) as H.
  by destruct (load_lines _ _ _ _ w).
Qed.

(** ** Interactive collector: one typed line *)

Lemma read_line_newline line more :
  LF ∉ line → ∀ room, length line < room →
  read_line room (line ++ LF :: more) = (line ++ [LF], more).
Proof.
  intros Hline. induction line as [|c line IH]; intros room Hroom.
  - simpl. destruct room; [lia|]. done.
  - apply not_elem_of_cons in Hline as [Hc Hline]. cbn [app read_line].
    destruct room as [|room]; [simpl in Hroom; lia|]. cbn [Nat.eqb].
    assert ((c =? LF)%char = false) as -> by (apply Ascii.eqb_neq; congruence).
    rewrite Nat.sub_succ, Nat.sub_0_r, IH; [done|done|simpl in Hroom; lia].
Qed.

Lemma c_str_id s : NUL ∉ s → c_str s = s.
Proof.
  induction s as [|c s IH]; [done|]. intros [Hc Hs]%not_elem_of_cons. simpl.
  assert ((c =? NUL)%char = false) as -> by (apply Ascii.eqb_neq; congruence).
  by rewrite IH.
Qed.

Lemma strip_eol_newline s : strip_eol (s ++ [LF]) = strip_eol s.
Proof. unfold strip_eol. by rewrite reverse_app. Qed.

Lemma skip_eol_decomp r : ∃ t, r = t ++ skip_eol r ∧ blank t.
Proof.
  induction r as [|c r (t & Hr & Ht)]; simpl.
  - exists []. split; [done|constructor].
  - destruct ((c =? LF)%char || (c =? CR)%char) eqn:Hc.
    + exists (c :: t). split; [simpl; congruence|]. constructor; [|done].
      apply orb_true_iff in Hc as [Hc|Hc]; apply Ascii.eqb_eq in Hc; by subst.
    + exists []. split; [done|constructor].
Qed.

Lemma strip_eol_decomp s : ∃ t, s = strip_eol s ++ t ∧ blank t.
Proof.
  destruct (skip_eol_decomp (reverse s)) as (t & Hs & Ht).
  exists (reverse t). split; [|by apply blank_reverse].
  unfold strip_eol. rewrite <- reverse_app, <- Hs. by rewrite reverse_involutive.
Qed.

Lemma trim_inplace_blank_r e t :
  blank t → trim_inplace (e ++ t) = trim_inplace e.
Proof.
  intros Ht. rewrite !trim_inplace_strip. induction e as [|c e IH].
  - simpl. by rewrite skip_space_all_blank.
  - cbn [app skip_space]. destruct (isspace c); [done|].
    change (c :: e ++ t) with ((c :: e) ++ t).
    by rewrite strip_trailing_space_blank.
Qed.

Lemma trim_inplace_strip_eol s : trim_inplace (strip_eol s) = trim_inplace s.
Proof.
  destruct (strip_eol_decomp s) as (t & Hs & Ht).
  rewrite Hs at 2. by rewrite trim_inplace_blank_r.
Qed.

Lemma strip_eol_length s : length (strip_eol s) ≤ length s.
Proof.
  destruct (strip_eol_decomp s) as (t & Hs & Ht).
  rewrite Hs at 2. rewrite length_app. lia.
Qed.

(** What the collector makes of a line of fewer than [LINE_MAX - 1]
    characters that ends in a newline. *)
Lemma typed_line line more :
  LF ∉ line → NUL ∉ line → length line < LINE_MAX - 1 →
  fgets LINE_MAX (line ++ LF :: more) = Some (line ++ [LF], more) ∧
  trim_inplace (strncpy (strip_eol (c_str (line ++ [LF]))) (LINE_MAX - 1))
  = trim_inplace line.
Proof.
  intros HLF HNUL Hlen. split.
  - unfold fgets. rewrite read_line_newline by done. by destruct line.
  - rewrite c_str_id.
    + rewrite strip_eol_newline. unfold strncpy. rewrite take_ge.
      * apply trim_inplace_strip_eol.
      * pose proof (strip_eol_length line). lia.
    + rewrite not_elem_of_app. split; [done|].
      intros H. apply list_elem_of_singleton in H. discriminate.
Qed.

Lemma trim_inplace_length s : length (trim_inplace s) ≤ length s.
Proof.
  rewrite trim_inplace_strip. unfold strip_trailing_space.
  rewrite length_reverse.
  assert (H : ∀ r, length (skip_space r) ≤ length r).
  { induction r as [|c r IH]; simpl; [done|]. destruct (isspace c); simpl; lia. }
  etrans; [apply H|]. rewrite length_reverse. apply H.
Qed.

(** The checks of the collector on an accepted line. *)
Lemma accepted_checks line key value :
  length line < LINE_MAX →
  strchr (trim_inplace line) "=" = Some (key, value) → trim_inplace key ≠ [] →
  trim_inplace line ≠ [] ∧ (length key =? 0) = false ∧
  (LINE_MAX <=? length key) = false ∧
  take (length key) (trim_inplace line) = key ∧ "=" ∉ trim_inplace key.
Proof.
  intros Hlen Heq Hkey. apply strchr_Some in Heq as [Htmp Hnoeq].
  pose proof (trim_inplace_length line) as Hle.
  rewrite Htmp, length_app in Hle. cbn [length] in Hle.
  repeat apply conj.
  - rewrite Htmp. by destruct key.
  - apply Nat.eqb_neq. by destruct key.
  - apply Nat.leb_gt. lia.
  - rewrite Htmp. apply take_app_length.
  - intros H. by apply elem_of_trim_inplace in H.
Qed.

(** An accepted line is written to the file -- trimmed -- and its variable
    set; the collector goes on with one more entry. *)
Lemma collect_loop_accept fuel filename added w line more key value :
  stdin w = line ++ LF :: more →
  LF ∉ line → NUL ∉ line → length line < LINE_MAX - 1 →
  strchr (trim_inplace line) "=" = Some (key, value) → trim_inplace key ≠ [] →
  disk w = [] →
  collect_loop (S fuel) filename added w
  = collect_loop fuel filename (added + 1)%Z
      (with_environ (<[trim_inplace key := value]> (environ w))
         (with_files
            (<[filename := default [] (files w !! filename)
                           ++ trim_inplace line ++ [LF]]> (files w))
            (with_stdin more (prompted w)))).
Proof.
  intros Hstdin HLF HNUL Hlen Heq Hkey Hdisk.
  destruct (typed_line line more) as [Hgets Htmp]; [done..|].
  destruct (accepted_checks line key value) as (Hne & Hk0 & Hkmax & Htake & Hnoeq);
    [lia|done..|].
  cbn [collect_loop]. unfold_io. cbn [stdin with_console].
  rewrite Hstdin, Hgets, Htmp.
  destruct (trim_inplace line) as [|c tmp] eqn:Etmp; [done|].
  rewrite Heq, Hk0, Hkmax, Htake.
  destruct (trim_inplace key) as [|k keybuf] eqn:Ekey; [done|].
  unfold fprintf_line. cbn [disk with_stdin with_console]. rewrite Hdisk.
  rewrite set_env_var_ok by done. done.
Qed.

(** A line of whitespace ends the collection. *)
Lemma collect_loop_finish fuel filename added w line more :
  stdin w = line ++ LF :: more →
  LF ∉ line → NUL ∉ line → length line < LINE_MAX - 1 → blank line →
  collect_loop (S fuel) filename added w
  = (added, with_stdin more (prompted w)).
Proof.
  intros Hstdin HLF HNUL Hlen Hblank.
  destruct (typed_line line more) as [Hgets Htmp]; [done..|].
  cbn [collect_loop]. unfold_io. cbn [stdin with_console].
  rewrite Hstdin, Hgets, Htmp.
  by rewrite trim_inplace_strip, skip_space_all_blank.
Qed.

Lemma load_file_eq filename w :
  load_file filename w
  = match files w !! filename with
    | Some content =>
        let (r, w') := load_lines (length content) content 0 0 w in
        ((false, r), w')
    | None => ((true, inr 0%Z), w)
    end.
Proof.
  unfold load_file. unfold_io. destruct (files w !! filename); [|done].
  by destruct (load_lines _ _ _ _ w).
Qed.

Lemma load_dotenv_eq filename w :
  load_dotenv filename w
  = let '((file_missing, r), w1) := load_file filename w in
    match r with
    | inl code => (code, w1)
    | inr vars_set =>
        if (vars_set =? 0)%Z && stdin_tty w
        then answer_offer filename (offered filename file_missing w1)
        else (0%Z, w1)
    end.
Proof.
  unfold load_dotenv, mbind, M_bind.
  pose proof (load_file_quiet filename w) as (_ & _ & Htty & _).
  destruct (load_file filename w) as [[file_missing [code|vars_set]] w1];
    [done|].
  unfold offer_entries. unfold_io. cbn [snd] in Htty. rewrite Htty.
  destruct ((vars_set =? 0)%Z && stdin_tty w); [|done].
  destruct file_missing; f_equal; destruct w1; unfold offered, with_console;
    cbn; by rewrite <- app_assoc.
Qed.

Lemma answer_offer_eq filename w :
  answer_offer filename w
  = match fgets 8 (stdin w) with
    | Some (c :: line, rest) =>
        if (c =? "y")%char || (c =? "Y")%char then
          let (added, w') :=
            interactive_create_entries filename (with_stdin rest w) in
          ((if (added <? 0)%Z then -4 else 0)%Z, reported filename added w')
        else (0%Z, with_stdin rest w)
    | Some ([], rest) => (0%Z, with_stdin rest w)
    | None => (0%Z, w)
    end.
Proof.
  unfold answer_offer. unfold_io.
  destruct (fgets 8 (stdin w)) as [[[|c line] rest]|]; [done| |done].
  destruct ((c =? "y")%char || (c =? "Y")%char); [|done].
  destruct (interactive_create_entries _ _) as [added w'].
  unfold reported. destruct (added <? 0)%Z; [done|].
  by destruct (added =? 0)%Z.
Qed.

(** *** The requests to the allocator, counted *)

Lemma malloc_eq w : malloc w = (hd true (heap w), with_heap (tail (heap w)) w).
Proof. unfold malloc. destruct w as [e f i t c [|ok h] d]; reflexivity. Qed.

Lemma malloc_bind {A} (k : bool → M A) w :
  (ok ← malloc; k ok) w = k (hd true (heap w)) (with_heap (tail (heap w)) w).
Proof. unfold mbind, M_bind. by rewrite malloc_eq. Qed.

Lemma getenv_bind {A} name (k : option cstring → M A) w :
  (val ← getenv name; k val) w = k (environ w !! name) w.
Proof. done. Qed.

Lemma M_bind_eq {A B} (m : M A) (k : A → M B) w :
  (x ← m; k x) w = k (m w).1 (m w).2.
Proof. unfold mbind, M_bind. by destruct (m w). Qed.

Lemma drop_S_tail {A} n (h : list A) : drop (S n) h = drop n (tail h).
Proof. destruct h; [by destruct n|done]. Qed.

Lemma granted_S n h : granted (S n) h = hd true h && granted n (tail h).
Proof. destruct h; [by destruct n|done]. Qed.

Lemma granted_add n m h :
  granted (n + m) h = granted n h && granted m (drop n h).
Proof.
  revert h. induction n as [|n IH]; intros h; [done|].
  cbn [Nat.add]. rewrite !granted_S, drop_S_tail, IH. by rewrite andb_assoc.
Qed.

Lemma granted_replicate n j h :
  granted n (replicate j true ++ false :: h) = (n <=? j).
Proof.
  revert j. induction n as [|n IH]; intros j; [done|].
  rewrite granted_S. destruct j as [|j]; [done|]. cbn [replicate app hd tail].
  by rewrite IH.
Qed.

Lemma drop_replicate_app {A} n j (x : A) l :
  n ≤ j → drop n (replicate j x ++ l) = replicate (j - n) x ++ l.
Proof.
  intros H. rewrite drop_app_le by (rewrite length_replicate; lia).
  by rewrite drop_replicate.
Qed.

Lemma granted_0_drop w : with_heap (drop 0 (heap w)) w = w.
Proof. by destruct w. Qed.

(** What the loop of [expand_vars] does is decided by the answers to the
    requests it makes: granted, it builds the expansion and has used up
    these answers; one of them refused, it returns [NULL]. *)
Lemma expand_loop_requests fuel :
  ∀ p out out_cap w,
    let k := requests_loop (environ w) fuel p (length out) out_cap in
    (granted k (heap w) = true →
     expand_loop fuel p out out_cap w
     = (Some (out ++ expansion (environ w) fuel p),
        with_heap (drop k (heap w)) w)) ∧
    (granted k (heap w) = false →
     (expand_loop fuel p out out_cap w).1 = None).
Proof.
  induction fuel as [|fuel IH]; intros p out out_cap w.
  - destruct p; cbn; rewrite app_nil_r, granted_0_drop; by split.
  - destruct p as [|c p'];
      [cbn; rewrite app_nil_r, granted_0_drop; by split|].
    assert (Hstep : ∀ w q o cap,
      let k := requests_loop (environ w) fuel q (length o) cap in
      (granted (S k) (heap w) = true →
       (ok ← malloc; if ok : bool then expand_loop fuel q o cap else mret None) w
       = (Some (o ++ expansion (environ w) fuel q),
          with_heap (drop (S k) (heap w)) w)) ∧
      (granted (S k) (heap w) = false →
       ((ok ← malloc; if ok : bool then expand_loop fuel q o cap else mret None)
          w).1 = None)).
    { clear w. intros w q o cap k. rewrite malloc_bind, granted_S, drop_S_tail.
      destruct (IH q o cap (with_heap (tail (heap w)) w)) as [Hyes Hno].
      cbn [environ heap with_heap] in Hyes, Hno. fold k in Hyes, Hno.
      destruct (hd true (heap w)); cbn [andb]; [|by split].
      split; [|done]. intros Hk. by rewrite Hyes. }
    cbn [expand_loop expansion requests_loop].
    assert (Hcopy :
      let k := if out_cap <? length out + 2
               then S (requests_loop (environ w) fuel p' (S (length out))
                         ((out_cap + 64) * 2))
               else requests_loop (environ w) fuel p' (S (length out)) out_cap in
      (granted k (heap w) = true →
       (if out_cap <? length out + 2
        then ok ← malloc;
             if ok : bool
             then expand_loop fuel p' (out ++ [c]) ((out_cap + 64) * 2)
             else mret None
        else expand_loop fuel p' (out ++ [c]) out_cap) w
       = (Some (out ++ c :: expansion (environ w) fuel p'),
          with_heap (drop k (heap w)) w)) ∧
      (granted k (heap w) = false →
       ((if out_cap <? length out + 2
         then ok ← malloc;
              if ok : bool
              then expand_loop fuel p' (out ++ [c]) ((out_cap + 64) * 2)
              else mret None
         else expand_loop fuel p' (out ++ [c]) out_cap) w).1 = None)).
    { assert (Hlen : length (out ++ [c]) = S (length out))
        by (rewrite length_app; simpl; lia).
      destruct (out_cap <? length out + 2); cbv zeta.
      - pose proof (Hstep w p' (out ++ [c]) ((out_cap + 64) * 2)) as H.
        cbv zeta in H. rewrite Hlen, <- app_assoc in H. exact H.
      - pose proof (IH p' (out ++ [c]) out_cap w) as H.
        cbv zeta in H. rewrite Hlen, <- app_assoc in H. exact H. }
    destruct ((c =? "$")%char && starts_with (cs "{") p'); [|exact Hcopy].
    destruct (find_close (tail p')) as [[name rest]|]; [|exact Hcopy].
    clear Hcopy. cbv zeta.
    set (val := default [] (environ w !! name)).
    assert (Hlen : length (out ++ val) = length out + length val)
      by apply length_app.
    rewrite malloc_bind.
    destruct (hd true (heap w)) eqn:Hhd.
    2:{ case_if; rewrite granted_S, Hhd; by split. }
    rewrite getenv_bind. cbn [environ with_heap]. fold val.
    destruct (out_cap <? length out + length val + 1) eqn:Hcap;
      rewrite granted_S, drop_S_tail, Hhd; cbn [andb].
    + pose proof (Hstep (with_heap (tail (heap w)) w) rest (out ++ val)
                    ((length out + length val + 1) * 2)) as H.
      cbv zeta in H. cbn [environ heap with_heap] in H.
      rewrite Hlen, <- app_assoc in H. exact H.
    + pose proof (IH rest (out ++ val) out_cap (with_heap (tail (heap w)) w))
        as H.
      cbv zeta in H. cbn [environ heap with_heap] in H.
      rewrite Hlen, <- app_assoc in H. exact H.
Qed.

Lemma expand_vars_requests inp w :
  (granted (requests (environ w) inp) (heap w) = true →
   expand_vars inp w
   = (Some (expand (environ w) inp),
      with_heap (drop (requests (environ w) inp) (heap w)) w)) ∧
  (granted (requests (environ w) inp) (heap w) = false →
   (expand_vars inp w).1 = None).
Proof.
  unfold expand_vars, requests. rewrite malloc_bind, granted_S, drop_S_tail.
  destruct (hd true (heap w)); cbn [andb]; [|by split].
  apply (expand_loop_requests (length inp) inp [] (length inp + 1)
           (with_heap (tail (heap w)) w)).
Qed.

Lemma parse_value_requests raw w :
  parse_value raw w
  = (if hd true (heap w) then Some (parse_value_buf raw) else None,
     with_heap (tail (heap w)) w).
Proof. unfold parse_value, xstrdup. by rewrite malloc_bind. Qed.

(** One turn of the loop of the loader on a line that holds an entry. *)
Lemma load_lines_entry fuel f lineno vars_set w line f' key raw :
  fgets LINE_MAX f = Some (line, f') →
  entry_of_line (c_str line) = Some (key, raw) →
  let v := parse_value_buf raw in
  let r := requests (environ w) v in
  (granted (S r) (heap w) = true →
   load_lines (S fuel) f lineno vars_set w
   = load_lines fuel f' (lineno + 1) (vars_set + 1)
       (with_heap (drop (S r) (heap w))
          (with_environ (<[key := expand (environ w) v]> (environ w)) w))) ∧
  (hd true (heap w) = false →
   (load_lines (S fuel) f lineno vars_set w).1 = inl (-2)%Z) ∧
  (hd true (heap w) = true → granted r (tail (heap w)) = false →
   (load_lines (S fuel) f lineno vars_set w).1 = inl (-3)%Z).
Proof.
  intros Hgets Hentry. cbv zeta. cbn [load_lines]. rewrite Hgets, Hentry.
  apply entry_of_line_key in Hentry as [Hne Heq].
  rewrite M_bind_eq, parse_value_requests. cbn [fst snd].
  remember (parse_value_buf raw) as v eqn:Hv.
  remember (requests (environ w) v) as r eqn:Hr.
  rewrite granted_S, drop_S_tail.
  destruct (hd true (heap w)); cbn [andb]; [|by repeat split].
  rewrite M_bind_eq.
  destruct (expand_vars_requests v (with_heap (tail (heap w)) w)) as [Hyes Hno].
  cbn [environ heap with_heap] in Hyes, Hno. rewrite <- Hr in Hyes, Hno.
  repeat split; [|done|].
  - intros H. rewrite (Hyes H). cbn [fst snd]. rewrite M_bind_eq.
    rewrite set_env_var_ok by done. cbn [Z.eqb]. done.
  - intros _ H. by rewrite (Hno H).
Qed.

Lemma load_lines_requests fuel :
  ∀ f lineno vars_set w,
    let entries := entries_of_lines (file_lines fuel f) in
    granted (requests_of (environ w) entries) (heap w) = true →
    load_lines fuel f lineno vars_set w
    = (inr (vars_set + Z.of_nat (length entries))%Z,
       with_heap (drop (requests_of (environ w) entries) (heap w))
         (with_environ (install (environ w) entries) w)).
Proof.
  induction fuel as [|fuel IH]; intros f lineno vars_set w entries;
    subst entries.
  - cbn [load_lines file_lines].
    destruct (fgets LINE_MAX f) as [[line f']|]; simpl;
      rewrite Z.add_0_r; by destruct w.
  - cbn [file_lines].
    destruct (fgets LINE_MAX f) as [[line f']|] eqn:Hgets.
    2:{ cbn [load_lines]. rewrite Hgets. simpl. rewrite Z.add_0_r.
        by destruct w. }
    unfold entries_of_lines. cbn [omap list_omap].
    fold (entries_of_lines (file_lines fuel f')).
    destruct (entry_of_line (c_str line)) as [[key raw]|] eqn:Hentry.
    + cbn [requests_of length]. rewrite install_cons.
      change (S (requests (environ w) (parse_value_buf raw)) + ?n)
        with (S (requests (environ w) (parse_value_buf raw) + n)).
      rewrite <- Nat.add_succ_l, granted_add. intros [H1 H2]%andb_true_iff.
      destruct (load_lines_entry fuel f lineno vars_set w line f' key raw
                  Hgets Hentry) as (Hyes & _).
      cbv zeta in Hyes. rewrite (Hyes H1).
      rewrite IH by (cbn [environ heap with_heap with_environ]; exact H2).
      cbn [environ heap with_heap with_environ].
      rewrite drop_drop. f_equal. f_equal. lia.
    + intros H. cbn [load_lines]. rewrite Hgets, Hentry. by rewrite IH.
Qed.

Lemma load_lines_refused fuel :
  ∀ f lineno vars_set w pre key raw post j h,
    entries_of_lines (file_lines fuel f) = pre ++ (key, raw) :: post →
    heap w = replicate j true ++ false :: h →
    (j = requests_of (environ w) pre →
     (load_lines fuel f lineno vars_set w).1 = inl (-2)%Z) ∧
    (requests_of (environ w) pre < j
     < requests_of (environ w) (pre ++ [(key, raw)]) →
     (load_lines fuel f lineno vars_set w).1 = inl (-3)%Z).
Proof.
  induction fuel as [|fuel IH];
    intros f lineno vars_set w pre key raw post j h.
  - cbn [file_lines]. destruct (fgets LINE_MAX f) as [[??]|]; by destruct pre.
  - cbn [file_lines].
    destruct (fgets LINE_MAX f) as [[line f']|] eqn:Hgets; [|by destruct pre].
    unfold entries_of_lines. cbn [omap list_omap].
    fold (entries_of_lines (file_lines fuel f')).
    destruct (entry_of_line (c_str line)) as [[key0 raw0]|] eqn:Hentry.
    2:{ intros Hpre Hheap. cbn [load_lines]. rewrite Hgets, Hentry.
        by apply IH with post h. }
    intros Hpre Hheap.
    destruct (load_lines_entry fuel f lineno vars_set w line f' key0 raw0
                Hgets Hentry) as (Hyes & Hparse & Hexpand).
    rewrite Hheap in Hyes, Hparse, Hexpand.
    destruct pre as [|[key1 raw1] pre].
    + injection Hpre as -> -> Hpost. cbn [app requests_of]. split.
      * intros ->. by apply Hparse.
      * rewrite Nat.add_0_r. intros [Hlo Hhi].
        destruct j as [|j]; [lia|]. apply Hexpand; [done|].
        cbn [replicate app tail]. rewrite granted_replicate.
        apply Nat.leb_gt. lia.
    + injection Hpre as -> -> Hpost. cbn [app requests_of].
      remember (requests (environ w) (parse_value_buf raw1)) as r eqn:Hr.
      assert (Hstep : S r ≤ j →
        (load_lines (S fuel) f lineno vars_set w).1
        = (load_lines fuel f' (lineno + 1) (vars_set + 1)
             (with_heap (replicate (j - S r) true ++ false :: h)
                (with_environ
                   (<[key1 := expand (environ w) (parse_value_buf raw1)]>
                      (environ w)) w))).1).
      { intros Hle. rewrite Hyes, drop_replicate_app by
          (done || rewrite granted_replicate; by apply Nat.leb_le). done. }
      destruct (IH f' (lineno + 1)%Z (vars_set + 1)%Z
                  (with_heap (replicate (j - S r) true ++ false :: h)
                     (with_environ
                        (<[key1 := expand (environ w) (parse_value_buf raw1)]>
                           (environ w)) w))
                  pre key raw post (j - S r) h Hpost eq_refl) as [H2 H3].
      cbn [environ with_heap with_environ] in H2, H3.
      split; intros Hj; (rewrite Hstep by lia); [apply H2|apply H3]; lia.
Qed.

Lemma load_file_requests filename w :
  let entries := file_entries (default [] (files w !! filename)) in
  granted (requests_of (environ w) entries) (heap w) = true →
  load_file filename w
  = ((bool_decide (files w !! filename = None),
      inr (Z.of_nat (length entries))),
     with_heap (drop (requests_of (environ w) entries) (heap w))
       (with_environ (install (environ w) entries) w)).
Proof.
  rewrite load_file_eq. destruct (files w !! filename) as [content|];
    cbn [default]; cbv zeta.
  - intros H. unfold file_entries in *. by rewrite load_lines_requests.
  - intros _. cbn. by destruct w.
Qed.

(** *** The collector and the disk *)

Lemma fprintf_line_ok f text w : (fprintf_line f text w).1 = true.
Proof. unfold fprintf_line. by destruct (disk w) as [|[] d]. Qed.

(** The collector counts up from where it starts, whatever the disk does
    with the lines. *)
Lemma collect_loop_counts fuel :
  ∀ filename added w,
    (0 ≤ added)%Z → (0 ≤ (collect_loop fuel filename added w).1)%Z.
Proof.
  induction fuel as [|fuel IH]; intros filename added w Hadded;
    cbn [collect_loop]; unfold_io; cbn [stdin with_console];
    destruct (fgets LINE_MAX (stdin w)) as [[line rest]|]; try done.
  destruct (trim_inplace _) as [|c tmp]; [done|].
  destruct (strchr (c :: tmp) "=") as [[key value]|]; [|by apply IH].
  destruct (length key =? 0); [by apply IH|].
  destruct (LINE_MAX <=? length key); [by apply IH|].
  destruct (trim_inplace (take _ _)) as [|k keybuf]; [by apply IH|].
  match goal with
  | |- context [fprintf_line ?f ?t ?w1] =>
      pose proof (fprintf_line_ok f t w1) as Hok;
      destruct (fprintf_line f t w1) as [ok w2]; cbn [fst] in Hok; subst ok
  end.
  destruct (set_env_var _ _ w2) as [rc w3].
  destruct (rc =? 0)%Z; apply IH; lia.
Qed.

(** The collector fails when the file cannot be opened, and only then. *)
Lemma interactive_create_entries_status filename w :
  if refused (disk w)
  then (interactive_create_entries filename w).1 = (-1)%Z
  else (0 ≤ (interactive_create_entries filename w).1)%Z.
Proof.
  unfold interactive_create_entries, fopen_append. unfold_io.
  destruct (disk w) as [|[] d]; cbn [refused]; try done;
    by apply collect_loop_counts.
Qed.

Lemma fgets_head size c rest :
  1 < size →
  ∃ line rest', fgets size (c :: rest) = Some (c :: line, rest').
Proof.
  intros Hsize. unfold fgets. destruct size as [|[|size]]; [lia|lia|].
  cbn [Nat.sub read_line Nat.eqb].
  destruct (c =? LF)%char; [by eexists _, _|].
  destruct (read_line _ rest) as [line rest']. by eexists _, _.
Qed.

Lemma answer_offer_status filename w :
  (answer_offer filename w).1
  = if says_yes (stdin w) && refused (disk w) then (-4)%Z else 0%Z.
Proof.
  rewrite answer_offer_eq. destruct (stdin w) as [|c rest] eqn:Hstdin; [done|].
  destruct (fgets_head 8 c rest) as (line & rest' & ->); [lia|].
  cbn [says_yes]. destruct ((c =? "y")%char || (c =? "Y")%char); [|done].
  cbn [andb].
  pose proof (interactive_create_entries_status filename (with_stdin rest' w))
    as H. cbn [disk with_stdin] in H.
  destruct (interactive_create_entries _ _) as [added w']. cbn [fst] in *.
  destruct (refused (disk w)).
  - by rewrite H.
  - by destruct (Z.ltb_spec added 0); [lia|].
Qed.

(** The status of [load_dotenv], for every world.  It is 0, -2, -3 or -4,
    and 0 when the file is missing or has no entry and stdin is no
    terminal.  For a file whose [${...}] hold names of variables (texts
    that are not empty and have no ['='] in them), count the requests to
    the allocator that its entries make.  When they are granted, the file
    is read to its end and the status is 0, unless no entry was set, stdin
    is a terminal, the answer to the offer starts with [y] or [Y] and the
    file cannot be opened to append: then it is -4.  A line whose write is
    refused changes nothing in this.  When the copy of the parsed value of
    an entry is the first request refused, the status is -2; when it is a
    request of the expansion of an entry, -3. *)
Theorem load_dotenv_status (w : World) (filename : cstring) :
  let status := fst (load_dotenv filename w) in
  let entries := file_entries (default [] (files w !! filename)) in
  (status = 0 ∨ status = -2 ∨ status = -3 ∨ status = -4)%Z ∧
  (entries = [] → stdin_tty w = false → status = 0%Z) ∧
  (refers_to_names entries = true →
   (granted (requests_of (environ w) entries) (heap w) = true →
    status = if bool_decide (entries = []) && stdin_tty w
                && says_yes (stdin w) && refused (disk w)
             then (-4)%Z else 0%Z) ∧
   (∀ pre key raw post h,
      entries = pre ++ (key, raw) :: post →
      heap w = replicate (requests_of (environ w) pre) true ++ false :: h →
      status = (-2)%Z) ∧
   (∀ pre key raw post j h,
      entries = pre ++ (key, raw) :: post →
      heap w = replicate j true ++ false :: h →
      requests_of (environ w) pre < j
      < requests_of (environ w) (pre ++ [(key, raw)]) →
      status = (-3)%Z)).
Proof.
  intros status entries. subst status.
  assert (Hfail : ∀ pre key raw post j h,
    entries = pre ++ (key, raw) :: post →
    heap w = replicate j true ++ false :: h →
    (j = requests_of (environ w) pre →
     (load_dotenv filename w).1 = (-2)%Z) ∧
    (requests_of (environ w) pre < j
     < requests_of (environ w) (pre ++ [(key, raw)]) →
     (load_dotenv filename w).1 = (-3)%Z)).
  { intros pre key raw post j h Hentries Hheap. subst entries.
    rewrite load_dotenv_eq, load_file_eq.
    destruct (files w !! filename) as [content|]; [|by destruct pre].
    cbn [default] in Hentries.
    destruct (load_lines_refused (length content) content 0 0 w
                pre key raw post j h Hentries Hheap) as [H2 H3].
    destruct (load_lines _ _ _ _ w) as [r w1]. cbn [fst] in *.
    split; intros Hj; [rewrite H2 by done|rewrite H3 by done]; done. }
  assert (Hread :
    granted (requests_of (environ w) entries) (heap w) = true →
    (load_dotenv filename w).1
    = if bool_decide (entries = []) && stdin_tty w
         && says_yes (stdin w) && refused (disk w)
      then (-4)%Z else 0%Z).
  { intros Hgranted. rewrite load_dotenv_eq, load_file_requests by done.
    fold entries.
    assert ((Z.of_nat (length entries) =? 0)%Z = bool_decide (entries = []))
      as -> by by destruct entries.
    destruct (bool_decide (entries = []) && stdin_tty w); [|done].
    by rewrite answer_offer_status. }
  repeat apply conj.
  - rewrite load_dotenv_eq.
    destruct (load_file filename w) as [[file_missing [code|vars_set]] w1]
      eqn:Hload.
    + rewrite load_file_eq in Hload.
      destruct (files w !! filename) as [content|]; [|done].
      pose proof (load_lines_code (length content) content 0 0 w code) as H.
      destruct (load_lines _ _ _ _ w) as [r' w'].
      injection Hload as _ -> _. cbn [fst] in *. destruct H as [-> | ->]; auto.
    + case_if; [|by left]. rewrite answer_offer_status. case_if; auto.
  - intros Hentries Htty. rewrite Hread by by rewrite Hentries.
    by rewrite Htty, andb_false_r.
  - intros _. repeat apply conj.
    + exact Hread.
    + intros pre key raw post h Hentries Hheap.
      by apply (Hfail pre key raw post _ h Hentries Hheap).
    + intros pre key raw post j h Hentries Hheap Hj.
      by apply (Hfail pre key raw post j h Hentries Hheap).
Qed.

(** The file [scoped_file] with the third request refused: the first entry
    makes two requests, so the copy of the second value fails. *)
Example load_dotenv_status_short_of_memory :
  fst (load_dotenv dotenv short_of_memory) = (-2)%Z.
Proof.
  refine (proj1 (proj2 (proj2 (proj2
            (load_dotenv_status short_of_memory dotenv)) _))
            [(cs "B", cs "1")] (cs "A") (cs "${B}/${HOME}")
            [(cs "B", cs "2")] [] _ _); by vm_compute.
Qed.

(** An accepted line whose write is refused: the file stays as it is, the
    variable is set and the line is counted. *)
Lemma collect_loop_accept_refused fuel filename added w line more key value d :
  stdin w = line ++ LF :: more →
  LF ∉ line → NUL ∉ line → length line < LINE_MAX - 1 →
  strchr (trim_inplace line) "=" = Some (key, value) → trim_inplace key ≠ [] →
  disk w = false :: d →
  collect_loop (S fuel) filename added w
  = collect_loop fuel filename (added + 1)%Z
      (with_environ (<[trim_inplace key := value]> (environ w))
         (with_disk d (with_stdin more (prompted w)))).
Proof.
  intros Hstdin HLF HNUL Hlen Heq Hkey Hdisk.
  destruct (typed_line line more) as [Hgets Htmp]; [done..|].
  destruct (accepted_checks line key value) as (Hne & Hk0 & Hkmax & Htake & Hnoeq);
    [lia|done..|].
  cbn [collect_loop]. unfold_io. cbn [stdin with_console].
  rewrite Hstdin, Hgets, Htmp.
  destruct (trim_inplace line) as [|c tmp] eqn:Etmp; [done|].
  rewrite Heq, Hk0, Hkmax, Htake.
  destruct (trim_inplace key) as [|k keybuf] eqn:Ekey; [done|].
  unfold fprintf_line. cbn [disk with_stdin with_console]. rewrite Hdisk.
  rewrite set_env_var_ok by done. done.
Qed.

Lemma interactive_create_entries_refused filename w line more key value d :
  disk w = true :: false :: d → stdin w = line ++ LF :: LF :: more →
  LF ∉ line → NUL ∉ line → length line < LINE_MAX - 1 →
  strchr (trim_inplace line) "=" = Some (key, value) → trim_inplace key ≠ [] →
  (interactive_create_entries filename w).1 = 1%Z ∧
  files (interactive_create_entries filename w).2 !! filename
  = Some (default [] (files w !! filename)) ∧
  environ (interactive_create_entries filename w).2 !! trim_inplace key
  = Some value.
Proof.
  intros Hdisk Hstdin HLF HNUL Hlen Heq Hkey.
  unfold interactive_create_entries, fopen_append. unfold_io. rewrite Hdisk.
  cbn [stdin with_console with_files with_disk]. rewrite Hstdin, length_app.
  cbn [length]. rewrite !Nat.add_succ_r.
  erewrite collect_loop_accept_refused; [|by cbn; rewrite Hstdin|done..].
  erewrite (collect_loop_finish _ _ _ _ []);
    [|done|apply not_elem_of_nil|apply not_elem_of_nil
     |rewrite LINE_MAX_eq; cbn; lia|constructor].
  cbn. rewrite !lookup_insert_eq. done.
Qed.

(** C6.  The claim fails where the write of a typed line is refused.  The
    collector tests what [fprintf] returns (line 206), but [fprintf] only
    fills the buffer of the stream; the write is done by the [fflush] of
    line 210, whose result is not looked at.  Take a file, read or absent,
    that sets no entry, a user at a terminal who says yes to the offer and
    types a line that the collector accepts and then an empty one, and a
    disk on which the file can be opened but the line cannot be written.
    The status is 0, not negative; the last message says that one entry was
    added to the file; the variable is set; and the file, created if need
    be, has not got the line. *)
Theorem load_dotenv_write_refused (w : World)
    (filename line more key value : cstring) (c : ascii) (d : list bool) :
  file_entries (default [] (files w !! filename)) = [] →
  stdin_tty w = true →
  stdin w = c :: LF :: line ++ LF :: LF :: more → c = "y"%char ∨ c = "Y"%char →
  LF ∉ line → NUL ∉ line → length line < LINE_MAX - 1 →
  strchr (trim_inplace line) "=" = Some (key, value) → trim_inplace key ≠ [] →
  disk w = true :: false :: d →
  let run := load_dotenv filename w in
  fst run = 0%Z ∧
  last (console (snd run))
  = Some (Printf Stdout
            "Added %d env entries to %s and set them in the process.\n"
            [AInt 1; AStr filename]) ∧
  environ (snd run) !! trim_inplace key = Some value ∧
  files (snd run) !! filename = Some (default [] (files w !! filename)).
Proof.
  intros Hentries Htty Hstdin Hc HLF HNUL Hlen Heq Hkey Hdisk run. subst run.
  rewrite load_dotenv_eq, load_file_requests by by rewrite Hentries.
  rewrite Hentries, Htty. cbn [length requests_of install foldl].
  change (Z.of_nat 0 =? 0)%Z with true. cbn [andb].
  assert (with_heap (drop 0 (heap w)) (with_environ (environ w) w) = w) as ->
    by by destruct w.
  rewrite answer_offer_eq. cbn [stdin offered with_console]. rewrite Hstdin.
  unfold fgets. cbn [Nat.sub read_line Nat.eqb].
  assert ((c =? LF)%char = false) as -> by (by destruct Hc as [-> | ->]).
  rewrite Ascii.eqb_refl.
  assert ((c =? "y")%char || (c =? "Y")%char = true) as ->
    by (by destruct Hc as [-> | ->]).
  match goal with
  | |- context [interactive_create_entries filename ?w'] =>
      destruct (interactive_create_entries_refused filename w' line more
                  key value d) as (Hadded & Hfile & Henv); [done..|];
      destruct (interactive_create_entries filename w') as [added w1]
  end.
  cbn [fst snd] in *. subst added.
  cbn [Z.ltb Z.compare Z.eqb reported with_console console files environ].
  by rewrite last_snoc.
Qed.

Lemma load_dotenv_write_refused_witness :
  let run := load_dotenv dotenv write_refused in
  fst run = 0%Z ∧
  last (console (snd run))
  = Some (Printf Stdout
            "Added %d env entries to %s and set them in the process.\n"
            [AInt 1; AStr dotenv]) ∧
  environ (snd run) !! cs "A" = Some (cs "1") ∧
  files (snd run) !! dotenv = Some [].
Proof.
  refine (load_dotenv_write_refused write_refused dotenv (cs "A=1") []
            (cs "A") (cs "1") "y" [] _ eq_refl eq_refl (or_introl eq_refl)
            _ _ _ _ _ eq_refl).
  - by vm_compute.
  - apply (bool_decide_unpack (LF ∉ cs "A=1")). by vm_compute.
  - apply (bool_decide_unpack (NUL ∉ cs "A=1")). by vm_compute.
  - rewrite LINE_MAX_eq. cbn. lia.
  - by vm_compute.
  - by vm_compute.
Defined.

(** ** Loader: the offer to type entries *)

Lemma collect_loop_file fuel :
  ∀ filename added w,
    is_Some (files w !! filename) →
    is_Some (files (collect_loop fuel filename added w).2 !! filename).
Proof.
  induction fuel as [|fuel IH]; intros filename added w Hfile;
    cbn [collect_loop]; unfold_io; cbn [stdin with_console];
    destruct (fgets LINE_MAX (stdin w)) as [[line rest]|]; try done.
  destruct (trim_inplace _) as [|c tmp]; [done|].
  destruct (strchr (c :: tmp) "=") as [[key value]|]; [|by apply IH].
  destruct (length key =? 0); [by apply IH|].
  destruct (LINE_MAX <=? length key); [by apply IH|].
  destruct (trim_inplace (take _ _)) as [|k keybuf]; [by apply IH|].
  assert (Hset : ∀ kb v w', is_Some (files w' !! filename) →
                 is_Some (files (set_env_var kb v w').2 !! filename)).
  { intros kb v w' H. unfold set_env_var. by case_if. }
  match goal with
  | |- context [fprintf_line ?f ?t ?w1] =>
      assert (Hw2 : is_Some (files (fprintf_line f t w1).2 !! filename))
        by (unfold fprintf_line; cbn [disk with_stdin with_console];
            destruct (disk w) as [|[] d];
            cbn [snd files with_files with_stdin with_console with_disk];
            rewrite ?lookup_insert_eq; done);
      destruct (fprintf_line f t w1) as [[] w2]; [|done]
  end.
  match goal with
  | |- context [set_env_var ?kb ?v ?w'] =>
      pose proof (Hset kb v w' Hw2) as Hw';
      destruct (set_env_var kb v w') as [rc w'']
  end.
  destruct (rc =? 0)%Z; by apply IH.
Qed.

(** Once entered with a disk that works, the collector leaves the file in
    place, created if need be. *)
Lemma interactive_create_entries_file filename w :
  disk w = [] →
  is_Some (files (interactive_create_entries filename w).2 !! filename).
Proof.
  intros Hdisk. unfold interactive_create_entries, fopen_append. unfold_io.
  rewrite Hdisk. apply collect_loop_file. cbn. rewrite lookup_insert_eq.
  by eexists.
Qed.

(** C7, as the code has it.  When stdin is no terminal the loader reads
    nothing from it, prints nothing but warnings on stderr and writes no
    file.  When it is one and the file, read or absent, set no entry, the
    loader prints its offer and reads an answer: a line that starts with [y]
    or [Y] passes control to the collector, and the loader then reports the
    collector's count ([-4] with an error message when it is negative, [0]
    with the count in a message otherwise); any other answer, or none, ends
    the load with [0] and the collector is not entered. *)
Theorem load_dotenv_offer (w : World) (filename : cstring) :
  (stdin_tty w = false → quiet w (load_dotenv filename w).2) ∧
  (∀ file_missing vars_set w1,
     load_file filename w = ((file_missing, inr vars_set), w1) →
     (stdin_tty w = false ∨ vars_set ≠ 0%Z →
      load_dotenv filename w = (0%Z, w1)) ∧
     (stdin_tty w = true → vars_set = 0%Z →
      let w2 := offered filename file_missing w1 in
      match fgets 8 (stdin w) with
      | Some (c :: line, rest) =>
          if (c =? "y")%char || (c =? "Y")%char then
            let (added, w3) :=
              interactive_create_entries filename (with_stdin rest w2) in
            load_dotenv filename w
            = ((if (added <? 0)%Z then -4 else 0)%Z,
               reported filename added w3)
          else load_dotenv filename w = (0%Z, with_stdin rest w2)
      | Some ([], rest) => load_dotenv filename w = (0%Z, with_stdin rest w2)
      | None => load_dotenv filename w = (0%Z, w2)
      end)).
Proof.
  pose proof (load_file_quiet filename w) as Hquiet. split.
  - intros Htty. rewrite load_dotenv_eq, Htty.
    destruct (load_file filename w) as [[file_missing [code|vars_set]] w1];
      [done|]. by rewrite andb_false_r.
  - intros file_missing vars_set w1 Hload.
    rewrite load_dotenv_eq, Hload. rewrite Hload in Hquiet.
    destruct Hquiet as (_ & Hstdin & _). cbn [snd] in Hstdin. split.
    + intros [-> | Hne]; [by rewrite andb_false_r|].
      by apply Z.eqb_neq in Hne as ->.
    + intros Htty ->. rewrite Htty. cbn [Z.eqb andb]. cbv zeta.
      rewrite answer_offer_eq. cbn [stdin offered with_console].
      rewrite Hstdin.
      destruct (fgets 8 (stdin w)) as [[[|c line] rest]|]; [done| |done].
      destruct ((c =? "y")%char || (c =? "Y")%char); [|done].
      by destruct (interactive_create_entries _ _).
Qed.

Lemma load_dotenv_offer_witness :
  stdin_tty world0 = false ∧ quiet world0 (load_dotenv dotenv world0).2.
Proof.
  split; [reflexivity|].
  apply (proj1 (load_dotenv_offer world0 dotenv)). reflexivity.
Defined.

(** C7 as it is stated fails: no entry was set and stdin is a terminal, yet
    after the answer [n] the collector is not entered -- it would have
    created the file. *)
Lemma load_dotenv_offer_declined :
  (load_file dotenv (terminal (cs "n" ++ [LF]))).1.2 = inr 0%Z ∧
  stdin_tty (terminal (cs "n" ++ [LF])) = true ∧
  files (load_dotenv dotenv (terminal (cs "n" ++ [LF]))).2 !! dotenv = None ∧
  (∀ w, disk w = [] →
        files (interactive_create_entries dotenv w).2 !! dotenv ≠ None).
Proof.
  repeat apply conj; [done|done|by vm_compute|].
  intros w Hdisk. apply not_eq_None_Some.
  by apply interactive_create_entries_file.
Qed.

(** ** Interactive collector: what it writes *)

(** One accepted line and then an empty one: the file gets the line as
    [trim_inplace] leaves it, and the variable the text after the ['=']. *)
Lemma interactive_create_entries_one_line filename w line more key value :
  disk w = [] → stdin w = line ++ LF :: LF :: more →
  LF ∉ line → NUL ∉ line → length line < LINE_MAX - 1 →
  strchr (trim_inplace line) "=" = Some (key, value) → trim_inplace key ≠ [] →
  (interactive_create_entries filename w).1 = 1%Z ∧
  files (interactive_create_entries filename w).2 !! filename
  = Some (default [] (files w !! filename) ++ trim_inplace line ++ [LF]) ∧
  environ (interactive_create_entries filename w).2 !! trim_inplace key
  = Some value.
Proof.
  intros Hdisk Hstdin HLF HNUL Hlen Heq Hkey.
  unfold interactive_create_entries, fopen_append. unfold_io. rewrite Hdisk.
  cbn [stdin with_console with_files]. rewrite Hstdin, length_app.
  cbn [length]. rewrite !Nat.add_succ_r.
  erewrite collect_loop_accept; [|by cbn; rewrite Hstdin|done..].
  erewrite (collect_loop_finish _ _ _ _ []);
    [|done|apply not_elem_of_nil|apply not_elem_of_nil
     |rewrite LINE_MAX_eq; cbn; lia|constructor].
  cbn. rewrite !lookup_insert_eq. done.
Qed.

(** C1, evaluated: the line [  A=1  ] typed at the collector reaches the file
    without the spaces around it. *)
Theorem interactive_create_entries_trims :
  (interactive_create_entries dotenv
     (terminal (cs "  A=1  " ++ [LF; LF]))).1 = 1%Z ∧
  files (interactive_create_entries dotenv
           (terminal (cs "  A=1  " ++ [LF; LF]))).2 !! dotenv
  = Some (cs "A=1" ++ [LF]) ∧
  files (interactive_create_entries dotenv
           (terminal (cs "  A=1  " ++ [LF; LF]))).2 !! dotenv
  ≠ Some (cs "  A=1  " ++ [LF]).
Proof.
  assert (H : files (interactive_create_entries dotenv
                       (terminal (cs "  A=1  " ++ [LF; LF]))).2 !! dotenv
              = Some (cs "A=1" ++ [LF])) by by vm_compute.
  repeat apply conj; [by vm_compute|done|]. rewrite H. discriminate.
Qed.

(** * Further properties of the loader *)

(** ** Trimmer *)

(** X1.  [trim_inplace] takes whitespace, and nothing else, from the two
    ends of a text: the text is its result with whitespace before and after
    it, the result neither starts nor ends with whitespace, trimming it
    again changes nothing, and it is the only such core. *)
Theorem trim_inplace_characterised (s : cstring) :
  (∃ ws1 ws2, s = ws1 ++ trim_inplace s ++ ws2 ∧ blank ws1 ∧ blank ws2) ∧
  tight (trim_inplace s) ∧
  trim_inplace (trim_inplace s) = trim_inplace s ∧
  (∀ ws1 core ws2,
     blank ws1 → blank ws2 → tight core → s = ws1 ++ core ++ ws2 →
     trim_inplace s = core).
Proof.
  destruct (trim_decomposition s) as (ws1 & ws2 & Hs & H1 & H2 & Ht).
  unfold trim in *. rewrite <- trim_inplace_strip in *.
  split; [by exists ws1, ws2|]. split; [done|]. split.
  - rewrite <- (app_nil_r (trim_inplace s)) at 1.
    apply (trim_inplace_tight [] _ []); (done || constructor).
  - intros l core r Hl Hr Hcore ->. by apply trim_inplace_tight.
Qed.

(** ** Value parser: the buffer is never overrun *)

Lemma skip_space_length s : length (skip_space s) ≤ length s.
Proof.
  induction s as [|c s IH]; simpl; [done|]. destruct (isspace c); simpl; lia.
Qed.

Lemma strip_trailing_space_length s :
  length (strip_trailing_space s) ≤ length s.
Proof.
  unfold strip_trailing_space. rewrite length_reverse.
  etrans; [apply skip_space_length|]. by rewrite length_reverse.
Qed.

Lemma copy_quoted_length Q p :
  ∀ idx, length (copy_quoted Q p idx) ≤ LINE_MAX - 1 - idx.
Proof.
  assert (H : ∀ n p idx, length p < n →
                         length (copy_quoted Q p idx) ≤ LINE_MAX - 1 - idx).
  { clear p. induction n as [|n IH]; intros p idx Hn; [lia|].
    destruct p as [|c p]; [simpl; lia|]. cbn [copy_quoted].
    destruct (c =? Q)%char; [simpl; lia|]. cbn [orb].
    destruct (Nat.ltb_spec idx (LINE_MAX - 1)); cbn [negb]; [|simpl; lia].
    assert (Hp : length (copy_quoted Q p (S idx)) ≤ LINE_MAX - 1 - S idx)
      by (apply IH; simpl in Hn; lia).
    destruct (c =? BACKSLASH)%char; [|simpl; lia].
    destruct p as [|d p]; [simpl; lia|].
    assert (length (copy_quoted Q p (S idx)) ≤ LINE_MAX - 1 - S idx)
      by (apply IH; simpl in Hn; lia).
    simpl. lia. }
  intros idx. apply (H (S (length p))). lia.
Qed.

Lemma copy_unquoted_length p :
  ∀ idx, length (copy_unquoted p idx) ≤ LINE_MAX - 1 - idx.
Proof.
  induction p as [|c p IH]; intros idx; [simpl; lia|]. cbn [copy_unquoted].
  destruct (Nat.ltb_spec idx (LINE_MAX - 1)); cbn [negb]; [|simpl; lia].
  destruct (c =? "#")%char; [simpl; lia|]. specialize (IH (S idx)). simpl. lia.
Qed.

Lemma parse_value_buf_length raw : length (parse_value_buf raw) < LINE_MAX.
Proof.
  unfold parse_value_buf. destruct (skip_space raw) as [|c p].
  { rewrite LINE_MAX_eq. simpl. lia. }
  assert (0 < LINE_MAX) by (rewrite LINE_MAX_eq; lia).
  case_if.
  - pose proof (copy_quoted_length c p 0). lia.
  - pose proof (copy_unquoted_length (c :: p) 0).
    pose proof (strip_trailing_space_length (copy_unquoted (c :: p) 0)).
    pose proof (skip_space_length
                  (strip_trailing_space (copy_unquoted (c :: p) 0))).
    lia.
Qed.

(** X2.  Whatever the raw value and whatever the allocator does, a value
    that [parse_value] returns has fewer than [LINE_MAX] characters: with
    its terminator it fits the buffer of [LINE_MAX] bytes it was built in. *)
Theorem parse_value_fits (raw : cstring) (w : World) :
  match (parse_value raw w).1 with
  | Some value => length value < LINE_MAX
  | None => True
  end.
Proof.
  unfold parse_value, xstrdup, mbind, M_bind.
  destruct (malloc w) as [[] w']; [|done]. apply parse_value_buf_length.
Qed.

(** ** Value parser: what an unquoted value looks like *)

Lemma copy_unquoted_no_hash p : ∀ idx, "#" ∉ copy_unquoted p idx.
Proof.
  induction p as [|c p IH]; intros idx; [apply not_elem_of_nil|].
  cbn [copy_unquoted]. destruct (negb _); [apply not_elem_of_nil|].
  destruct (Ascii.eqb_spec c "#"); [apply not_elem_of_nil|].
  apply not_elem_of_cons. split; [congruence|apply IH].
Qed.

Lemma elem_of_strip_trailing_space c s : c ∈ strip_trailing_space s → c ∈ s.
Proof.
  unfold strip_trailing_space. rewrite elem_of_reverse. intros H.
  apply elem_of_skip_space in H. by rewrite elem_of_reverse in H.
Qed.

Lemma skip_space_last s c :
  last (skip_space s) = Some c → last s = Some c.
Proof.
  induction s as [|d s IH]; simpl; [done|].
  destruct (isspace d); [|done]. intros H. apply IH in H.
  destruct s; [done|]. by rewrite last_cons_cons.
Qed.

Lemma strip_trailing_space_last_nonspace s c :
  last (strip_trailing_space s) = Some c → isspace c = false.
Proof.
  unfold strip_trailing_space. rewrite last_reverse. intros H.
  destruct (skip_space (reverse s)) as [|d r] eqn:E; [done|].
  injection H as <-. by eapply skip_space_nonspace.
Qed.

(** X3.  A value whose first character after the whitespace is no quote
    parses to a text without ['#'] that neither starts nor ends with
    whitespace, whatever its length. *)
Theorem parse_value_unquoted_clean (raw : cstring) :
  (∀ c, head (skip_space raw) = Some c → c ≠ DQUOTE ∧ c ≠ SQUOTE) →
  ("#" ∉ parse_value_buf raw) ∧ tight (parse_value_buf raw).
Proof.
  intros Hq. unfold parse_value_buf.
  destruct (skip_space raw) as [|c p].
  { split; [apply not_elem_of_nil|]. by split. }
  destruct (Hq c eq_refl) as [Hd Hs].
  apply Ascii.eqb_neq in Hd, Hs. rewrite Hd, Hs. cbn [orb].
  repeat split.
  - intros H. apply elem_of_skip_space, elem_of_strip_trailing_space in H.
    by apply copy_unquoted_no_hash in H.
  - intros d Hd'.
    destruct (skip_space (strip_trailing_space _)) as [|e r] eqn:E; [done|].
    injection Hd' as <-. by eapply skip_space_nonspace.
  - intros d Hd'. apply skip_space_last in Hd'.
    by eapply strip_trailing_space_last_nonspace.
Qed.

Lemma parse_value_unquoted_clean_witness :
  ("#" ∉ parse_value_buf (cs " a b # c")) ∧
  tight (parse_value_buf (cs " a b # c")).
Proof.
  apply (parse_value_unquoted_clean (cs " a b # c")).
  intros c [= <-]. split; discriminate.
Defined.

(** ** Variable expander: under any allocator *)

Lemma malloc_spec w :
  same_but_heap w (malloc w).2 ∧
  (false ∈ heap (malloc w).2 → false ∈ heap w) ∧
  ((malloc w).1 = false → false ∈ heap w).
Proof.
  split; [apply malloc_frame|]. unfold malloc.
  destruct (heap w) as [|ok h] eqn:E; cbn; rewrite ?E; [done|].
  split; [by right|]. intros ->. by left.
Qed.

Lemma same_but_heap_environ w w' : same_but_heap w w' → environ w' = environ w.
Proof. intros ->. done. Qed.

Lemma expand_loop_any fuel :
  ∀ p out out_cap w,
    ((expand_loop fuel p out out_cap w).1 = None → false ∈ heap w) ∧
    (∀ r, (expand_loop fuel p out out_cap w).1 = Some r →
          r = out ++ expansion (environ w) fuel p).
Proof.
  induction fuel as [|fuel IH]; intros p out out_cap w.
  { destruct p; cbn; (split; [done|]); intros r [= <-]; by rewrite app_nil_r. }
  destruct p as [|c p'].
  { cbn. split; [done|]. intros r [= <-]. by rewrite app_nil_r. }
  assert (Hstep : ∀ q o cap x,
    (∀ env, o ++ expansion env fuel q = out ++ x env) →
    (((ok ← malloc; if ok : bool then expand_loop fuel q o cap else mret None)
        w).1 = None → false ∈ heap w) ∧
    (∀ r, ((ok ← malloc; if ok : bool then expand_loop fuel q o cap
                         else mret None) w).1 = Some r →
          r = out ++ x (environ w))).
  { intros q o cap x Hx. unfold mbind, M_bind.
    destruct (malloc_spec w) as (Hf & Hsuffix & Hfail).
    destruct (malloc w) as [[] w1]; cbn [fst snd] in *.
    - destruct (IH q o cap w1) as [Hnone Hsome].
      rewrite (same_but_heap_environ w w1), Hx in Hsome by done. split; auto.
    - split; [auto|done]. }
  assert (Hdirect : ∀ q o x,
    (∀ env, o ++ expansion env fuel q = out ++ x env) →
    ((expand_loop fuel q o out_cap w).1 = None → false ∈ heap w) ∧
    (∀ r, (expand_loop fuel q o out_cap w).1 = Some r →
          r = out ++ x (environ w))).
  { intros q o x Hx. destruct (IH q o out_cap w) as [Hnone Hsome].
    rewrite Hx in Hsome. by split. }
  assert (Hcopy : ∀ env, (out ++ [c]) ++ expansion env fuel p'
                         = out ++ c :: expansion env fuel p')
    by (intros env; by rewrite <- app_assoc).
  cbn [expand_loop]. rewrite expansion_cons.
  destruct ((c =? "$")%char && starts_with (cs "{") p').
  2:{ case_if; [apply (Hstep _ _ _ (λ env, c :: expansion env fuel p') Hcopy)
               |apply (Hdirect _ _ (λ env, c :: expansion env fuel p') Hcopy)]. }
  destruct (find_close (tail p')) as [[name rest]|].
  2:{ case_if; [apply (Hstep _ _ _ (λ env, c :: expansion env fuel p') Hcopy)
               |apply (Hdirect _ _ (λ env, c :: expansion env fuel p') Hcopy)]. }
  unfold mbind, M_bind, getenv, mret, M_ret.
  destruct (malloc_spec w) as (Hf & Hsuffix & Hfail).
  destruct (malloc w) as [[] w1]; cbn [fst snd] in *; [|split; [auto|done]].
  rewrite (same_but_heap_environ w w1) by done.
  set (val := default [] (environ w !! name)).
  assert (Hval : ∀ env, (out ++ val) ++ expansion env fuel rest
                        = out ++ (val ++ expansion env fuel rest))
    by (intros env; by rewrite <- app_assoc).
  case_if.
  - destruct (malloc_spec w1) as (Hf1 & Hsuffix1 & Hfail1).
    destruct (malloc w1) as [[] w2]; cbn [fst snd] in *; [|split; [auto|done]].
    destruct (IH rest (out ++ val) ((length out + length val + 1) * 2) w2)
      as [Hnone Hsome].
    rewrite (same_but_heap_environ w1 w2), (same_but_heap_environ w w1), Hval
      in Hsome by done.
    split; auto.
  - destruct (IH rest (out ++ val) out_cap w1) as [Hnone Hsome].
    rewrite (same_but_heap_environ w w1), Hval in Hsome by done.
    split; auto.
Qed.

(** X4.  Whatever the allocator does, [expand_vars] changes nothing in the
    world but the allocator, returns NULL only when an allocation failed,
    and otherwise returns the very text it returns when memory never runs
    out. *)
Theorem expand_vars_any_allocator (inp : cstring) (w : World) :
  same_but_heap w (expand_vars inp w).2 ∧
  ((expand_vars inp w).1 = None → false ∈ heap w) ∧
  (∀ r, (expand_vars inp w).1 = Some r →
        (expand_vars inp (with_heap [] w)).1 = Some r).
Proof.
  split; [apply expand_vars_frame|].
  rewrite (expand_vars_ok (with_heap [] w)) by done. cbn [fst environ with_heap].
  unfold expand_vars, mbind, M_bind, mret, M_ret.
  destruct (malloc_spec w) as (Hf & Hsuffix & Hfail).
  destruct (malloc w) as [[] w1]; cbn [fst snd] in *; [|split; [auto|done]].
  destruct (expand_loop_any (length inp) inp [] (length inp + 1) w1)
    as [Hnone Hsome].
  rewrite (same_but_heap_environ w w1) in Hsome by done.
  split; [auto|]. intros r Hr. by rewrite (Hsome r Hr).
Qed.

(** ** Loader: how a line is read *)

Lemma trim_inplace_is_tight s : tight (trim_inplace s).
Proof.
  destruct (trim_decomposition s) as (_ & _ & _ & _ & _ & Ht).
  unfold trim in Ht. by rewrite <- trim_inplace_strip in Ht.
Qed.

Lemma entry_of_line_trimmed line key raw :
  entry_of_line line = Some (key, raw) →
  ∃ x, key = trim_inplace x ∧ length x < LINE_MAX.
Proof.
  unfold entry_of_line.
  destruct (trim_inplace (strncpy line (LINE_MAX - 1))) as [|c s]; [done|].
  destruct (c =? "#")%char; [done|].
  destruct (strchr _ "=") as [[k v]|]; [|done].
  destruct (trim_inplace (take _ _)) as [|k0 key'] eqn:Hkey; [done|].
  intros [= <- _]. eexists. split; [by rewrite Hkey|].
  rewrite length_take.
  destruct (Nat.leb_spec LINE_MAX (length k)); rewrite LINE_MAX_eq in *; lia.
Qed.

(** X5.  Every key that the loader takes from a line is fit for [setenv]:
    not empty, without ['='], without whitespace at its ends and shorter
    than [LINE_MAX]; setting it does not fail for a bad name. *)
Theorem entry_of_line_key_valid (line key raw value : cstring) (w : World) :
  entry_of_line line = Some (key, raw) →
  key ≠ [] ∧ ("=" ∉ key) ∧ tight key ∧ length key < LINE_MAX ∧
  (set_env_var key value w).1 = 0%Z.
Proof.
  intros H. destruct (entry_of_line_key line key raw H) as [Hne Heq].
  destruct (entry_of_line_trimmed line key raw H) as (x & -> & Hx).
  split; [done|]. split; [done|]. split; [apply trim_inplace_is_tight|].
  split.
  - pose proof (trim_inplace_length x). lia.
  - by rewrite set_env_var_ok.
Qed.

Lemma entry_of_line_key_valid_witness :
  (set_env_var (cs "PATH") (cs "/bin") world0).1 = 0%Z.
Proof.
  apply (entry_of_line_key_valid (cs " PATH = /bin") (cs "PATH") (cs " /bin")).
  by vm_compute.
Defined.

Lemma blank_no_eq ws : blank ws → "=" ∉ ws.
Proof.
  intros H Hin. eapply Forall_forall in H; [|exact Hin]. discriminate.
Qed.

Lemma tight_line key ws value :
  tight key → key ≠ [] → (∀ c, last value = Some c → isspace c = false) →
  tight (key ++ ws ++ "=" :: value).
Proof.
  intros [Hh Hl] Hne Hv. split.
  - intros c Hc. apply Hh. by destruct key.
  - intros c Hc. rewrite app_assoc, last_app_cons in Hc.
    destruct value as [|v value].
    + by injection Hc as <-.
    + rewrite last_cons_cons in Hc. by apply Hv.
Qed.

Lemma strip_eol_id s :
  (∀ c, last s = Some c → isspace c = false) → strip_eol s = s.
Proof.
  intros H. unfold strip_eol.
  destruct (reverse s) as [|c r] eqn:E.
  { by rewrite <- (reverse_involutive s), E. }
  assert (Hc : isspace c = false).
  { apply H. by rewrite <- head_reverse, E. }
  cbn [skip_eol].
  assert ((c =? LF)%char || (c =? CR)%char = false) as ->.
  { apply orb_false_iff.
    split; apply Ascii.eqb_neq; intros ->; discriminate. }
  by rewrite <- E, reverse_involutive.
Qed.

(** The part of [entry_of_line] after the trimming and the [export]. *)
Lemma key_and_value ws0 key ws value :
  blank ws0 → blank ws → tight key → key ≠ [] → "=" ∉ key →
  (∀ c, last value = Some c → isspace c = false) →
  length (ws0 ++ key ++ ws) < LINE_MAX →
  match strchr (ws0 ++ key ++ ws ++ "=" :: value) "=" with
  | None => None
  | Some (k, val_raw) =>
      let keylen := if LINE_MAX <=? length k then LINE_MAX - 1 else length k in
      match trim_inplace (take keylen (ws0 ++ key ++ ws ++ "=" :: value)) with
      | [] => None
      | (_ :: _) as keybuf => Some (keybuf, strip_eol val_raw)
      end
  end = Some (key, value).
Proof.
  intros H0 Hws Hkey Hne Heq Hval Hlen.
  replace (ws0 ++ key ++ ws ++ "=" :: value)
    with ((ws0 ++ key ++ ws) ++ "=" :: value) by by rewrite <- !app_assoc.
  rewrite strchr_app.
  2:{ rewrite !not_elem_of_app.
      repeat split; [by apply blank_no_eq| done | by apply blank_no_eq]. }
  cbv zeta. destruct (Nat.leb_spec LINE_MAX (length (ws0 ++ key ++ ws))); [lia|].
  rewrite take_app_length, trim_inplace_tight by done.
  destruct key; [done|]. by rewrite strip_eol_id.
Qed.

Lemma entry_of_plain_line ws1 key ws value ws2 :
  blank ws1 → blank ws → blank ws2 → tight key → key ≠ [] → "=" ∉ key →
  head key ≠ Some "#" →
  starts_with (cs "export ") (key ++ ws ++ "=" :: value) = false →
  (∀ c, last value = Some c → isspace c = false) →
  length (ws1 ++ (key ++ ws ++ "=" :: value) ++ ws2) < LINE_MAX →
  entry_of_line (ws1 ++ (key ++ ws ++ "=" :: value) ++ ws2)
  = Some (key, value).
Proof.
  intros H1 Hws H2 Hkey Hne Heq Hhash Hexport Hval Hlen.
  unfold entry_of_line, strncpy. rewrite take_ge by lia.
  rewrite trim_inplace_tight by (done || by apply tight_line).
  rewrite !length_app in Hlen.
  pose proof (key_and_value [] key ws value (Forall_nil_2 _) Hws Hkey Hne Heq
                Hval) as Hkv.
  cbn [app] in Hkv. rewrite length_app in Hkv.
  specialize (Hkv ltac:(lia)).
  destruct key as [|k0 key']; [done|]. cbn [app] in *.
  assert ((k0 =? "#")%char = false) as ->
    by (apply Ascii.eqb_neq; intros ->; by apply Hhash).
  rewrite Hexport. exact Hkv.
Qed.

(** X6.  A line made of a key, an ['='] and a value, with whitespace allowed
    before the key, between the key and the ['='] and at the end, is read
    as that key and that value (the whitespace after the ['='] belongs to
    the value and is left to the parser), provided the line is shorter than
    [LINE_MAX], the key does not start with ['#'] and the line does not
    start with [export] and a space. *)
Theorem entry_of_line_plain (ws1 key ws value ws2 : cstring) :
  blank ws1 → blank ws → blank ws2 → tight key → key ≠ [] → "=" ∉ key →
  head key ≠ Some "#" →
  starts_with (cs "export ") (key ++ ws ++ "=" :: value) = false →
  (∀ c, last value = Some c → isspace c = false) →
  length (ws1 ++ (key ++ ws ++ "=" :: value) ++ ws2) < LINE_MAX →
  entry_of_line (ws1 ++ (key ++ ws ++ "=" :: value) ++ ws2)
  = Some (key, value).
Proof. apply entry_of_plain_line. Qed.

Lemma entry_of_line_plain_witness :
  entry_of_line (cs "  DB_HOST = localhost  ") = Some (cs "DB_HOST", cs " localhost").
Proof.
  refine (entry_of_line_plain (cs "  ") (cs "DB_HOST") (cs " ")
            (cs " localhost") (cs "  ") _ _ _ _ _ _ _ _ _ _).
  - repeat constructor.
  - repeat constructor.
  - repeat constructor.
  - split; intros c [= <-]; reflexivity.
  - discriminate.
  - intros H.
    by repeat (apply elem_of_cons in H as [H|H]; [discriminate|]);
      apply elem_of_nil in H.
  - discriminate.
  - reflexivity.
  - intros c [= <-]. reflexivity.
  - rewrite LINE_MAX_eq. cbn. lia.
Defined.

(** X7.  The word [export] and a space before the key change nothing, nor
    does whitespace between them and the key: the line is read as the same
    key and value.  (Here the key may start with ['#'].) *)
Theorem entry_of_line_export (ws1 ws0 key ws value ws2 : cstring) :
  blank ws1 → blank ws0 → blank ws → blank ws2 →
  tight key → key ≠ [] → "=" ∉ key →
  (∀ c, last value = Some c → isspace c = false) →
  length (ws1 ++ (cs "export " ++ ws0 ++ key ++ ws ++ "=" :: value) ++ ws2)
  < LINE_MAX →
  entry_of_line
    (ws1 ++ (cs "export " ++ ws0 ++ key ++ ws ++ "=" :: value) ++ ws2)
  = Some (key, value).
Proof.
  intros H1 H0 Hws H2 Hkey Hne Heq Hval Hlen.
  unfold entry_of_line, strncpy. rewrite take_ge by lia.
  rewrite trim_inplace_tight; [|done|done|].
  - rewrite !length_app in Hlen.
    pose proof (key_and_value ws0 key ws value H0 Hws Hkey Hne Heq Hval) as Hkv.
    rewrite !length_app in Hkv. specialize (Hkv ltac:(lia)).
    exact Hkv.
  - split.
    + intros c [= <-]. reflexivity.
    + intros c Hc. change (cs "export ") with (cs "export" ++ [" "]) in Hc.
      rewrite <- !app_assoc in Hc.
      replace (cs "export" ++ [" "] ++ ws0 ++ key ++ ws ++ "=" :: value)
        with ((cs "export" ++ [" "] ++ ws0) ++ key ++ ws ++ "=" :: value) in Hc
        by by rewrite <- !app_assoc.
      rewrite last_app in Hc.
      pose proof (tight_line key ws value Hkey Hne Hval) as [_ Hl].
      destruct (last (key ++ ws ++ "=" :: value)) as [d|] eqn:E.
      * injection Hc as <-. by apply Hl.
      * destruct key; [done|]. by apply last_None in E.
Qed.

Lemma entry_of_line_export_witness :
  entry_of_line (cs "export  #A=1") = Some (cs "#A", cs "1").
Proof.
  refine (entry_of_line_export [] (cs " ") (cs "#A") [] (cs "1") []
            _ _ _ _ _ _ _ _ _).
  - constructor.
  - repeat constructor.
  - constructor.
  - constructor.
  - split; intros c [= <-]; reflexivity.
  - discriminate.
  - intros H.
    by repeat (apply elem_of_cons in H as [H|H]; [discriminate|]);
      apply elem_of_nil in H.
  - intros c [= <-]. reflexivity.
  - rewrite LINE_MAX_eq. cbn. lia.
Defined.

Lemma trim_inplace_blank ws : blank ws → trim_inplace ws = [].
Proof.
  intros H. unfold trim_inplace. by rewrite skip_space_all_blank.
Qed.

Lemma elem_of_drop {A} (x : A) n l : x ∈ drop n l → x ∈ l.
Proof.
  intros H. rewrite <- (take_drop n l). apply elem_of_app. by right.
Qed.

Lemma elem_of_take_list {A} (x : A) n l : x ∈ take n l → x ∈ l.
Proof.
  intros H. rewrite <- (take_drop n l). apply elem_of_app. by left.
Qed.

(** What the loop of the loader drops, a buffer of [fgets] at a time. *)
Lemma entry_of_line_none (line : cstring) :
  (blank line → entry_of_line line = None) ∧
  (∀ ws comment, blank ws → line = ws ++ "#" :: comment →
                 entry_of_line line = None) ∧
  ("=" ∉ line → entry_of_line line = None) ∧
  (∀ ws rest, blank ws → line = ws ++ "=" :: rest →
              entry_of_line line = None).
Proof.
  unfold entry_of_line, strncpy. repeat apply conj.
  - intros H. by rewrite trim_inplace_blank by by apply blank_take.
  - intros ws comment Hws ->. unfold trim_inplace.
    rewrite take_app, skip_space_blank by by apply blank_take.
    destruct (LINE_MAX - 1 - length ws) as [|n]; [done|].
    cbn [take skip_space]. change (isspace "#") with false. cbv iota.
    by rewrite Ascii.eqb_refl.
  - intros Hno.
    destruct (trim_inplace (take (LINE_MAX - 1) line)) as [|c s] eqn:E; [done|].
    destruct (c =? "#")%char; [done|].
    assert (Hs : "=" ∉ c :: s).
    { rewrite <- E. intros H. apply elem_of_trim_inplace in H.
      by apply elem_of_take_list in H. }
    assert (strchr (if starts_with (cs "export ") (c :: s)
                    then drop 7 (c :: s) else c :: s) "=" = None) as ->;
      [|done].
    apply strchr_None. case_if; [|done].
    intros H. by apply elem_of_drop in H.
  - intros ws rest Hws ->. unfold trim_inplace.
    rewrite take_app, skip_space_blank by by apply blank_take.
    destruct (LINE_MAX - 1 - length ws) as [|n]; [done|].
    cbn [take skip_space]. change (isspace "=") with false. cbv iota.
    change ("=" =? "#")%char with false. cbv iota.
    cbn [starts_with cs list_ascii_of_string].
    change ("e" =? "=")%char with false. cbn [andb strchr].
    rewrite Ascii.eqb_refl. cbn [length].
    assert ((LINE_MAX <=? 0) = false) as ->
      by (apply Nat.leb_gt; rewrite LINE_MAX_eq; lia).
    by rewrite take_0.
Qed.

(** ** Loader: which variables it sets *)

Lemma install_is_Some env entries name :
  is_Some (env !! name) → is_Some (install env entries !! name).
Proof.
  revert env. induction entries as [|[key raw] later IH]; intros env H; [done|].
  rewrite install_cons. apply IH.
  destruct (decide (key = name)) as [->|Hne].
  - rewrite lookup_insert_eq. by eexists.
  - by rewrite lookup_insert_ne.
Qed.

Lemma install_lookup_key env entries name :
  name ∈ entries.*1 → is_Some (install env entries !! name).
Proof.
  revert env. induction entries as [|[key raw] later IH]; intros env H.
  { by apply elem_of_nil in H. }
  rewrite fmap_cons in H. rewrite install_cons.
  apply elem_of_cons in H as [->|H]; [|by apply IH].
  apply install_is_Some. cbn. rewrite lookup_insert_eq. by eexists.
Qed.

(** X9.  A load without failing allocation and without the offer to type
    entries sets every key of the file and leaves every other variable as
    it was; it unsets nothing, writes no file, reads nothing from stdin and
    prints nothing. *)
Theorem load_dotenv_sets_only_keys (w : World) (filename content : cstring) :
  heap w = [] → files w !! filename = Some content →
  stdin_tty w = false ∨ file_entries content ≠ [] →
  (∀ name, name ∉ (file_entries content).*1 →
     environ (load_dotenv filename w).2 !! name = environ w !! name) ∧
  (∀ name, name ∈ (file_entries content).*1 →
     is_Some (environ (load_dotenv filename w).2 !! name)) ∧
  (∀ name, is_Some (environ w !! name) →
     is_Some (environ (load_dotenv filename w).2 !! name)) ∧
  files (load_dotenv filename w).2 = files w ∧
  stdin (load_dotenv filename w).2 = stdin w ∧
  console (load_dotenv filename w).2 = console w.
Proof.
  intros Hheap Hfile Hquiet.
  rewrite (load_dotenv_quiet filename content w) by done.
  cbn [snd environ files stdin console with_environ].
  repeat apply conj; try done.
  - intros name. apply install_lookup_other.
  - intros name. apply install_lookup_key.
  - intros name. apply install_is_Some.
Qed.

Lemma load_dotenv_sets_only_keys_witness :
  environ (load_dotenv dotenv (world_with_file scoped_file)).2 !! cs "HOME"
  = environ (world_with_file scoped_file) !! cs "HOME".
Proof.
  refine (proj1 (load_dotenv_sets_only_keys (world_with_file scoped_file)
                   dotenv scoped_file eq_refl _ _) (cs "HOME") _).
  - apply lookup_singleton_eq.
  - by left.
  - apply (bool_decide_unpack (cs "HOME" ∉ (file_entries scoped_file).*1)).
    by vm_compute.
Defined.

(** ** Files are only appended to *)

Lemma appended_same_files f w w' : files w' = files w → appended f w w'.
Proof.
  intros H. split; intros; rewrite H; [done|]. exists []. by rewrite app_nil_r.
Qed.

Lemma appended_trans f w1 w2 w3 :
  appended f w1 w2 → appended f w2 w3 → appended f w1 w3.
Proof.
  intros [Ho Hf] [Ho' Hf']. split.
  - intros other Hne. by rewrite Ho', Ho.
  - intros old Hold. destruct (Hf old Hold) as [more Hmore].
    destruct (Hf' _ Hmore) as [more' Hmore'].
    exists (more ++ more'). by rewrite Hmore', app_assoc.
Qed.

Lemma appended_insert f w w' text :
  files w' = <[f := default [] (files w !! f) ++ text]> (files w) →
  appended f w w'.
Proof.
  intros H. split.
  - intros other Hne. by rewrite H, lookup_insert_ne.
  - intros old Hold. exists text. by rewrite H, lookup_insert_eq, Hold.
Qed.

Lemma fprintf_line_appended f text w : appended f w (fprintf_line f text w).2.
Proof.
  unfold fprintf_line.
  destruct (disk w) as [|[] d]; cbn [snd];
    [eapply appended_insert; by cbn
    |eapply appended_insert; by cbn
    |by apply appended_same_files].
Qed.

Lemma fopen_append_appended f w : appended f w (fopen_append f w).2.
Proof.
  unfold fopen_append.
  destruct (disk w) as [|[] d]; cbn [snd];
    [eapply (appended_insert _ _ _ []); cbn; by rewrite app_nil_r
    |eapply (appended_insert _ _ _ []); cbn; by rewrite app_nil_r
    |by apply appended_same_files].
Qed.

Lemma set_env_var_files key value w :
  files (set_env_var key value w).2 = files w.
Proof. unfold set_env_var. by case_if. Qed.

Lemma collect_loop_appended fuel :
  ∀ filename added w, appended filename w (collect_loop fuel filename added w).2.
Proof.
  induction fuel as [|fuel IH]; intros filename added w;
    cbn [collect_loop]; unfold_io; cbn [stdin with_console];
    destruct (fgets LINE_MAX (stdin w)) as [[line rest]|];
    try by apply appended_same_files.
  assert (Hnext : ∀ w1 a, files w1 = files w →
            appended filename w (collect_loop fuel filename a w1).2).
  { intros w1 a H. eapply appended_trans; [|apply IH].
    by apply appended_same_files. }
  destruct (trim_inplace _) as [|c tmp]; [by apply appended_same_files|].
  destruct (strchr (c :: tmp) "=") as [[key value]|]; [|by apply Hnext].
  destruct (length key =? 0); [by apply Hnext|].
  destruct (LINE_MAX <=? length key); [by apply Hnext|].
  destruct (trim_inplace (take _ _)) as [|k keybuf]; [by apply Hnext|].
  match goal with
  | |- context [fprintf_line ?f ?t ?w1] =>
      pose proof (fprintf_line_appended f t w1) as Hw;
      destruct (fprintf_line f t w1) as [[] w2]; cbn [snd] in Hw
  end.
  - assert (Hw2 : appended filename w w2).
    { eapply appended_trans; [|exact Hw]. by apply appended_same_files. }
    match goal with
    | |- context [set_env_var ?kb ?v w2] =>
        pose proof (set_env_var_files kb v w2) as Hset;
        destruct (set_env_var kb v w2) as [rc w3]; cbn [snd] in Hset
    end.
    destruct (rc =? 0)%Z;
      (eapply appended_trans; [exact Hw2|]);
      (eapply appended_trans; [|apply IH]); by apply appended_same_files.
  - eapply appended_trans; [|exact Hw]. by apply appended_same_files.
Qed.

Lemma interactive_create_entries_appended filename w :
  appended filename w (interactive_create_entries filename w).2.
Proof.
  unfold interactive_create_entries. unfold_io.
  pose proof (fopen_append_appended filename w) as H.
  destruct (fopen_append filename w) as [[] w1]; cbn [snd] in H; [|done].
  eapply appended_trans; [exact H|].
  eapply appended_trans; [|apply collect_loop_appended].
  by apply appended_same_files.
Qed.

Lemma answer_offer_appended filename w :
  appended filename w (answer_offer filename w).2.
Proof.
  rewrite answer_offer_eq.
  destruct (fgets 8 (stdin w)) as [[[|c line] rest]|];
    try by apply appended_same_files.
  case_if; [|by apply appended_same_files].
  pose proof (interactive_create_entries_appended filename (with_stdin rest w))
    as H.
  destruct (interactive_create_entries _ _) as [added w1]. cbn [snd] in *.
  eapply appended_trans; [by apply appended_same_files|].
  eapply appended_trans; [exact H|]. by apply appended_same_files.
Qed.

(** X10.  Whatever is typed and whatever fails, [load_dotenv] touches no
    file but the one it is given, and that one it only creates or extends:
    what was in it before is still there, at the start. *)
Theorem load_dotenv_append_only (w : World) (filename : cstring) :
  (∀ other, other ≠ filename →
     files (load_dotenv filename w).2 !! other = files w !! other) ∧
  (∀ old, files w !! filename = Some old →
     ∃ more, files (load_dotenv filename w).2 !! filename = Some (old ++ more)).
Proof.
  change (appended filename w (load_dotenv filename w).2).
  rewrite load_dotenv_eq.
  pose proof (load_file_quiet filename w) as (Hfiles & _).
  destruct (load_file filename w) as [[file_missing [code|vars_set]] w1];
    cbn [snd] in *; [by apply appended_same_files|].
  case_if; [|by apply appended_same_files].
  eapply appended_trans; [|apply answer_offer_appended].
  by apply appended_same_files.
Qed.

(** ** Interactive collector: lines it does not take *)

Lemma collect_loop_no_equals fuel filename added w line more :
  stdin w = line ++ LF :: more →
  LF ∉ line → NUL ∉ line → length line < LINE_MAX - 1 →
  trim_inplace line ≠ [] → "=" ∉ line →
  collect_loop (S fuel) filename added w
  = collect_loop fuel filename added
      (with_console
         (console (prompted w) ++
          [Printf Stdout "Invalid format (missing '='). Use KEY=VALUE.\n" []])
         (with_stdin more (prompted w))).
Proof.
  intros Hstdin HLF HNUL Hlen Hne Heq.
  destruct (typed_line line more) as [Hgets Htmp]; [done..|].
  cbn [collect_loop]. unfold_io. cbn [stdin with_console].
  rewrite Hstdin, Hgets, Htmp.
  destruct (trim_inplace line) as [|c tmp] eqn:E; [done|].
  assert (strchr (c :: tmp) "=" = None) as ->; [|done].
  apply strchr_None. rewrite <- E. intros H.
  by apply elem_of_trim_inplace in H.
Qed.

Lemma collect_loop_no_key fuel filename added w line more ws rest :
  stdin w = line ++ LF :: more →
  LF ∉ line → NUL ∉ line → length line < LINE_MAX - 1 →
  blank ws → line = ws ++ "=" :: rest →
  collect_loop (S fuel) filename added w
  = collect_loop fuel filename added
      (with_console
         (console (prompted w) ++ [Printf Stdout "Key is empty.\n" []])
         (with_stdin more (prompted w))).
Proof.
  intros Hstdin HLF HNUL Hlen Hws Hline.
  destruct (typed_line line more) as [Hgets Htmp]; [done..|].
  cbn [collect_loop]. unfold_io. cbn [stdin with_console].
  rewrite Hstdin, Hgets, Htmp. subst line.
  unfold trim_inplace. rewrite skip_space_blank by done.
  cbn [skip_space]. change (isspace "=") with false. cbv iota.
  cbn [strchr]. by rewrite Ascii.eqb_refl.
Qed.

(** X11.  A typed line without ['='], or with only whitespace before its
    first ['='], is turned down: followed by an empty line it leaves the
    count at 0, the file as it was (created empty if it was not there) and
    the environment untouched. *)
Theorem collector_rejects_line (w : World) (filename line more : cstring) :
  disk w = [] → stdin w = line ++ LF :: LF :: more →
  LF ∉ line → NUL ∉ line → length line < LINE_MAX - 1 →
  trim_inplace line ≠ [] →
  "=" ∉ line ∨ (∃ ws rest, blank ws ∧ line = ws ++ "=" :: rest) →
  (interactive_create_entries filename w).1 = 0%Z ∧
  files (interactive_create_entries filename w).2
  = <[filename := default [] (files w !! filename)]> (files w) ∧
  environ (interactive_create_entries filename w).2 = environ w ∧
  stdin (interactive_create_entries filename w).2 = more.
Proof.
  intros Hdisk Hstdin HLF HNUL Hlen Hne Hbad.
  unfold interactive_create_entries, fopen_append. unfold_io. rewrite Hdisk.
  cbn [stdin with_console with_files]. rewrite Hstdin, length_app.
  cbn [length]. rewrite !Nat.add_succ_r.
  assert (Hfinish : ∀ fuel a w1, stdin w1 = LF :: more →
            collect_loop (S fuel) filename a w1
            = (a, with_stdin more (prompted w1))).
  { intros fuel a w1 Hw1.
    apply (collect_loop_finish fuel filename a w1 [] more);
      [done|apply not_elem_of_nil|apply not_elem_of_nil
      |rewrite LINE_MAX_eq; cbn; lia|constructor]. }
  destruct Hbad as [Heq|(ws & rest & Hws & Hline)].
  - erewrite collect_loop_no_equals; [|by cbn; rewrite Hstdin|done..].
    by rewrite Hfinish.
  - erewrite collect_loop_no_key; [|by cbn; rewrite Hstdin|done..].
    by rewrite Hfinish.
Qed.

Lemma collector_rejects_line_witness :
  (interactive_create_entries dotenv
     (terminal (cs "just words" ++ [LF; LF]))).1 = 0%Z.
Proof.
  refine (proj1 (collector_rejects_line
                   (terminal (cs "just words" ++ [LF; LF])) dotenv
                   (cs "just words") [] eq_refl eq_refl _ _ _ _ _)).
  - intros H.
    by repeat (apply elem_of_cons in H as [H|H]; [discriminate|]);
      apply elem_of_nil in H.
  - intros H.
    by repeat (apply elem_of_cons in H as [H|H]; [discriminate|]);
      apply elem_of_nil in H.
  - rewrite LINE_MAX_eq. cbn. lia.
  - by vm_compute.
  - left. intros H.
    by repeat (apply elem_of_cons in H as [H|H]; [discriminate|]);
      apply elem_of_nil in H.
Defined.

(** ** Interactive collector: two checks that cannot fire *)

(** The text before the first ['='] of a trimmed buffer of [LINE_MAX - 1]
    characters, when not empty, is shorter than [LINE_MAX] and does not
    trim to nothing. *)
Lemma collector_key_checks x key value :
  strchr (trim_inplace (strncpy x (LINE_MAX - 1))) "=" = Some (key, value) →
  (length key =? 0) = false →
  (LINE_MAX <=? length key) = false ∧
  trim_inplace (take (length key)
                  (trim_inplace (strncpy x (LINE_MAX - 1)))) ≠ [].
Proof.
  intros Heq Hk. apply strchr_Some in Heq as [Htmp _].
  apply Nat.eqb_neq in Hk.
  pose proof (trim_inplace_length (strncpy x (LINE_MAX - 1))) as Hlen.
  unfold strncpy in *. rewrite length_take in Hlen.
  rewrite Htmp in Hlen. rewrite length_app in Hlen. cbn [length] in Hlen.
  split; [apply Nat.leb_gt; lia|].
  pose proof (trim_inplace_is_tight (take (LINE_MAX - 1) x)) as [Hh _].
  rewrite Htmp in *. rewrite take_app_length.
  destruct key as [|k key]; [done|].
  unfold trim_inplace. cbn [skip_space]. by rewrite (Hh k).
Qed.

Lemma printed_refl P w w' : console w' = console w → printed P w w'.
Proof. intros H. exists []. by rewrite app_nil_r. Qed.

Lemma printed_one P w w' o :
  console w' = console w ++ [o] → P o → printed P w w'.
Proof. intros H Ho. exists [o]. split; [done|]. by constructor. Qed.

Lemma printed_trans P w1 w2 w3 :
  printed P w1 w2 → printed P w2 w3 → printed P w1 w3.
Proof.
  intros (e & He & HP) (e' & He' & HP'). exists (e ++ e'). split.
  - by rewrite He', He, app_assoc.
  - by apply Forall_app.
Qed.

Lemma set_env_var_console key value w :
  console (set_env_var key value w).2 = console w.
Proof. unfold set_env_var. by case_if. Qed.

Lemma fprintf_line_console f text w :
  console (fprintf_line f text w).2 = console w.
Proof. unfold fprintf_line. by destruct (disk w) as [|[] d]. Qed.

Lemma collect_loop_messages fuel :
  ∀ filename added w,
    printed live_message w (collect_loop fuel filename added w).2.
Proof.
  induction fuel as [|fuel IH]; intros filename added w;
    cbn [collect_loop]; unfold_io; cbn [stdin with_console];
    destruct (fgets LINE_MAX (stdin w)) as [[line rest]|];
    try (by eapply printed_one; [done|split; discriminate]).
  assert (Hprompt : printed live_message w
            (with_stdin rest
               (with_console (console w ++ [Printf Stdout "> " []]) w)))
    by (eapply printed_one; [done|split; discriminate]).
  assert (Hnext : ∀ w1 a, printed live_message w w1 →
            printed live_message w (collect_loop fuel filename a w1).2).
  { intros w1 a H. eapply printed_trans; [exact H|apply IH]. }
  assert (Hsay : ∀ w1 a fmt args,
            printed live_message w w1 →
            live_message (Printf Stdout fmt args) →
            printed live_message w
              (collect_loop fuel filename a
                 (with_console (console w1 ++ [Printf Stdout fmt args]) w1)).2).
  { intros w1 a fmt args H Hlive. apply Hnext.
    eapply printed_trans; [exact H|]. by eapply printed_one. }
  destruct (trim_inplace _) as [|c tmp] eqn:E; [done|].
  destruct (strchr (c :: tmp) "=") as [[key value]|] eqn:Heq;
    [|by apply Hsay; [|split]].
  destruct (length key =? 0) eqn:Hk; [by apply Hsay; [|split]|].
  rewrite <- E in Heq.
  destruct (collector_key_checks _ key value Heq Hk) as [-> Hkey].
  rewrite E in Hkey.
  destruct (trim_inplace (take _ _)) as [|k keybuf]; [done|].
  match goal with
  | |- context [fprintf_line ?f ?t ?w1] =>
      pose proof (fprintf_line_console f t w1) as Hw;
      destruct (fprintf_line f t w1) as [[] w2]; cbn [snd] in Hw
  end.
  - assert (Hw2 : printed live_message w w2).
    { eapply printed_trans; [exact Hprompt|]. by apply printed_refl. }
    match goal with
    | |- context [set_env_var ?kb ?v w2] =>
        pose proof (set_env_var_console kb v w2) as Hset;
        destruct (set_env_var kb v w2) as [rc w3]; cbn [snd] in Hset
    end.
    assert (Hw3 : printed live_message w w3).
    { eapply printed_trans; [exact Hw2|]. by apply printed_refl. }
    destruct (rc =? 0)%Z; [by apply Hnext|by apply Hsay; [|split]].
  - eapply printed_trans; [exact Hprompt|]. by apply printed_refl.
Qed.

(** X12.  The collector never prints [Key too long.] nor [Key is empty
    (after trim).]: the buffer it looks at is trimmed and shorter than
    [LINE_MAX], so the checks of lines 198 and 202 cannot fire, whatever is
    typed. *)
Theorem collector_dead_checks (w : World) (filename : cstring) :
  ∃ extra,
    console (interactive_create_entries filename w).2 = console w ++ extra ∧
    Forall (λ o, out_fmt o ≠ "Key too long.\n"%string ∧
                 out_fmt o ≠ "Key is empty (after trim).\n"%string) extra.
Proof.
  change (printed live_message w (interactive_create_entries filename w).2).
  unfold interactive_create_entries, fopen_append. unfold_io.
  destruct (disk w) as [|[] d]; try by apply printed_refl.
  - eapply printed_trans; [|apply collect_loop_messages].
    eapply printed_one; [done|split; discriminate].
  - eapply printed_trans; [|apply collect_loop_messages].
    eapply printed_one; [done|split; discriminate].
Qed.

(** ** Splitter: whatever the allocator answers *)

Lemma trim_string_copy_any start w :
  same_but_heap w (trim_string_copy start w).2 ∧
  ((trim_string_copy start w).1 = None ∨
   (trim_string_copy start w).1 = Some (trim start)).
Proof.
  unfold trim_string_copy, xstrdup, mbind, M_bind, mret, M_ret, trim.
  pose proof (malloc_frame w) as Hf.
  destruct (malloc w) as [[] w1]; cbn [fst snd] in *; (split; [done|]);
    [|by left].
  right. destruct (skip_space start) as [|c r] eqn:E; [done|].
  rewrite strip_trailing_space_cons; [done|]. by eapply skip_space_nonspace.
Qed.

Lemma split_loop_any delim fuel :
  ∀ rest result capacity count w,
    length rest ≤ fuel → length result = capacity → count < capacity →
    same_but_heap w (split_loop fuel delim rest result capacity count w).2 ∧
    ∀ array n,
      (split_loop fuel delim rest result capacity count w).1
      = Some (array, n) →
      ∃ tokens,
        n = count + length tokens ∧
        take n array = take count result ++ (Str <$> tokens) ∧
        array !! n = Some Null ∧
        tokens `sublist_of` split_spec delim rest.
Proof.
  assert (Hstop : ∀ rest (result : list cell) capacity count (w : World),
    length result = capacity → count < capacity →
    same_but_heap w w ∧
    ∀ array n,
      Some (<[count := Null]> result, count) = Some (array, n) →
      ∃ tokens,
        n = count + length tokens ∧
        take n array = take count result ++ (Str <$> tokens) ∧
        array !! n = Some Null ∧
        tokens `sublist_of` split_spec delim rest).
  { intros rest result capacity count w Hlen Hcount.
    split; [apply same_but_heap_refl|]. intros array n [= <- <-].
    exists []. cbn [length fmap list_fmap]. rewrite Nat.add_0_r, app_nil_r.
    split; [done|]. split; [by rewrite take_insert_ge|].
    split; [apply list_lookup_insert_eq; lia|apply sublist_nil_l]. }
  induction fuel as [|fuel IH];
    intros rest result capacity count w Hfuel Hlen Hcount.
  - cbn [split_loop]. destruct (strtok delim rest) as [[token rest']|];
      by apply (Hstop rest result capacity).
  - cbn [split_loop].
    destruct (strtok delim rest) as [[token rest']|] eqn:Htok;
      [|by apply (Hstop rest result capacity)].
    apply strtok_Some in Htok as [Hspec Hrest].
    unfold mbind, M_bind.
    destruct (trim_string_copy_any token w) as [Hf Hcopy].
    destruct (trim_string_copy token w) as [clean w1]; cbn [fst snd] in *.
    assert (Hskip :
      same_but_heap w
        (split_loop fuel delim rest' result capacity count w1).2 ∧
      ∀ array n,
        (split_loop fuel delim rest' result capacity count w1).1
        = Some (array, n) →
        ∃ tokens,
          n = count + length tokens ∧
          take n array = take count result ++ (Str <$> tokens) ∧
          array !! n = Some Null ∧
          tokens `sublist_of` split_spec delim rest).
    { destruct (IH rest' result capacity count w1) as [Hf' Hres];
        [lia|done|done|].
      split; [by eapply same_but_heap_trans|].
      intros array n Hn. destruct (Hres array n Hn) as (tokens & ? & ? & ? & Hsub).
      exists tokens. repeat (split; [done|]).
      rewrite Hspec. by apply sublist_inserts_l. }
    destruct clean as [[|c t]|]; [done| |done].
    destruct Hcopy as [?|[= Htrim]]; [done|].
    rewrite <- Htrim in Hspec.
    rewrite filter_cons_True, filter_nil in Hspec by done.
    assert (Htake : ∀ (grown : list cell) array n tokens,
      count < length grown → take count grown = take count result →
      n = S count + length tokens →
      take n array
      = take (S count) (<[count := Str (c :: t)]> grown) ++ (Str <$> tokens) →
      n = count + length (( c :: t) :: tokens) ∧
      take n array
      = take count result ++ (Str <$> (c :: t) :: tokens)).
    { intros grown array n tokens Hg Hsame -> Harr. split; [simpl; lia|].
      rewrite Harr, (take_S_r _ _ (Str (c :: t)))
        by (by apply list_lookup_insert_eq).
      rewrite take_insert_ge, Hsame by lia. by rewrite <- app_assoc. }
    destruct (Nat.leb_spec (capacity - 1) count).
    + pose proof (malloc_frame w1) as Hf1.
      destruct (malloc w1) as [[] w2]; cbn [fst snd] in *.
      2:{ split; [by eapply same_but_heap_trans|done]. }
      destruct (IH rest'
                  (<[count := Str (c :: t)]>
                     (result ++ replicate capacity Uninit))
                  (capacity * 2) (S count) w2) as [Hf2 Hres];
        [lia|rewrite length_insert, length_app, length_replicate; lia|lia|].
      split; [eapply same_but_heap_trans; [exact Hf|];
              by eapply same_but_heap_trans|].
      intros array n Hn.
      destruct (Hres array n Hn) as (tokens & Hcnt & Harr & Hnull & Hsub).
      exists ((c :: t) :: tokens).
      destruct (Htake (result ++ replicate capacity Uninit) array n tokens)
        as [Hn' Harr']; [rewrite length_app, length_replicate; lia
                        |by rewrite take_app_le by lia|done|done|].
      repeat (split; [done|]). rewrite Hspec. by apply sublist_skip.
    + destruct (IH rest' (<[count := Str (c :: t)]> result) capacity
                  (S count) w1) as [Hf2 Hres];
        [lia|by rewrite length_insert|lia|].
      split; [by eapply same_but_heap_trans|].
      intros array n Hn.
      destruct (Hres array n Hn) as (tokens & Hcnt & Harr & Hnull & Hsub).
      exists ((c :: t) :: tokens).
      destruct (Htake result array n tokens) as [Hn' Harr'];
        [lia|done|done|done|].
      repeat (split; [done|]). rewrite Hspec. by apply sublist_skip.
Qed.

Lemma get_env_result w key delim count_out array n w' :
  get_env key delim count_out w = ((Some array, n), w') →
  ∃ value tokens,
    environ w !! key = Some value ∧ value ≠ [] ∧
    n = (if count_out then Some (length tokens) else None) ∧
    holds array tokens ∧
    tokens `sublist_of`
      match delim with
      | Some ((_ :: _) as delim) => split_spec delim value
      | _ => [trim value]
      end ∧
    same_but_heap w w'.
Proof.
  unfold get_env, mbind, M_bind, getenv, mret, M_ret.
  destruct (environ w !! key) as [[|v value]|] eqn:Hkey; [done| |done].
  destruct delim as [[|d delim]|].
  1,3: pose proof (malloc_frame w) as Hf;
       destruct (malloc w) as [[] w1]; cbn [fst snd] in *; [|done];
       destruct (trim_string_copy_any (v :: value) w1) as [Hf1 Hcopy];
       destruct (trim_string_copy (v :: value) w1) as [[first|] w2];
       cbn [fst snd] in *; [|done];
       destruct Hcopy as [?|[= ->]]; [done|]; intros [= <- <- <-];
       exists (v :: value), [trim (v :: value)];
       repeat (split; [done|]); by eapply same_but_heap_trans.
  unfold xstrdup, mbind, M_bind, mret, M_ret.
  pose proof (malloc_frame w) as Hf.
  destruct (malloc w) as [[] w1]; cbn [fst snd] in *; [|done].
  pose proof (malloc_frame w1) as Hf1.
  destruct (malloc w1) as [[] w2]; cbn [fst snd] in *; [|done].
  destruct (split_loop_any (d :: delim) (length (v :: value)) (v :: value)
              (replicate 10 Uninit) 10 0 w2) as [Hf2 Hres]; [done|done|lia|].
  destruct (split_loop _ _ _ _ _ _ w2) as [[[result count]|] w3];
    cbn [fst snd] in *; [|done].
  intros [= <- <- <-].
  destruct (Hres result count eq_refl) as (tokens & -> & Harr & Hnull & Hsub).
  exists (v :: value), tokens. cbn [Nat.add] in *.
  repeat (split; [done|]).
  eapply same_but_heap_trans; [exact Hf|]. by eapply same_but_heap_trans.
Qed.

(** X13.  Whatever the allocator answers, an array that [get_env] returns
    for a non-empty delimiter string holds, in their order, pieces of the
    value as C5 describes them, followed by [NULL], and the count is their
    number; but pieces may be missing: a piece whose copy could not be
    allocated is left out without any sign.  Nothing but the allocator
    changes. *)
Theorem get_env_any_allocator (w w' : World) (key delim : cstring)
    (array : list cell) (n : option nat) :
  delim ≠ [] →
  get_env key (Some delim) true w = ((Some array, n), w') →
  ∃ value tokens,
    environ w !! key = Some value ∧
    n = Some (length tokens) ∧
    holds array tokens ∧
    tokens `sublist_of` split_spec delim value ∧
    same_but_heap w w'.
Proof.
  intros Hdelim Hget. destruct delim as [|d delim]; [done|].
  apply get_env_result in Hget
    as (value & tokens & Hkey & _ & Hn & Hholds & Hsub & Hf).
  by exists value, tokens.
Qed.

Lemma get_env_any_allocator_witness :
  ∃ value tokens,
    environ (world_third_refused (cs "L") (cs "a,b,c")) !! cs "L" = Some value ∧
    Some 2 = Some (length tokens) ∧
    holds [Str (cs "b"); Str (cs "c"); Null; Uninit; Uninit; Uninit; Uninit;
           Uninit; Uninit; Uninit] tokens ∧
    tokens `sublist_of` split_spec (cs ",") value ∧
    same_but_heap (world_third_refused (cs "L") (cs "a,b,c"))
      (world_with_var (cs "L") (cs "a,b,c")).
Proof.
  apply (get_env_any_allocator (world_third_refused (cs "L") (cs "a,b,c"))
           (world_with_var (cs "L") (cs "a,b,c")) (cs "L") (cs ",")).
  - done.
  - reflexivity.
Defined.

(** ** Splitter: no delimiter *)

(** X14.  Without a delimiter ([NULL] or the empty string) [get_env] never
    splits: for a variable with a non-empty value it returns one element,
    the trimmed value, and a count of 1.  This holds also for a value of
    nothing but whitespace, whose single element is the empty string ---
    where a delimiter would give no element at all (C10). *)
Theorem get_env_whole_value (w : World) (key value : cstring)
    (delim : option cstring) :
  heap w = [] → environ w !! key = Some value → value ≠ [] →
  delim = None ∨ delim = Some [] →
  get_env key delim true w = ((Some [Str (trim value); Null], Some 1), w) ∧
  (blank value → trim value = []).
Proof.
  intros Hheap Hkey Hvalue Hdelim. split.
  - destruct value as [|v value]; [done|].
    unfold get_env, mbind, M_bind, getenv. rewrite Hkey.
    destruct Hdelim as [-> | ->];
      by rewrite malloc_ok, trim_string_copy_ok by done.
  - intros Hblank. unfold trim. by rewrite skip_space_all_blank.
Qed.

Lemma get_env_whole_value_witness :
  get_env (cs "E") None true (world_with_var (cs "E") (cs "  "))
  = ((Some [Str []; Null], Some 1), world_with_var (cs "E") (cs "  ")).
Proof.
  apply (get_env_whole_value (world_with_var (cs "E") (cs "  ")) (cs "E")
           (cs "  ") None eq_refl).
  - apply lookup_singleton_eq.
  - done.
  - by left.
Defined.

(** ** Splitter and [free_env] *)

Lemma free_loop_strings tokens :
  ∀ array i,
    take (length tokens) (drop i array) = Str <$> tokens →
    free_loop array i (length tokens) = Some tokens.
Proof.
  induction tokens as [|t tokens IH]; intros array i H; [done|].
  cbn [length free_loop].
  destruct (drop i array) as [|x rest] eqn:Hdrop; [done|].
  cbn in H. injection H as -> Hrest.
  assert (Hi : array !! i = Some (Str t)).
  { rewrite <- (Nat.add_0_r i), <- lookup_drop, Hdrop. done. }
  rewrite Hi, IH; [done|].
  rewrite (drop_S _ _ _ Hi) in Hdrop. by injection Hdrop as ->.
Qed.

(** X15.  An array and a count that [get_env] has returned can be handed
    to [free_env]: it reads only slots that [get_env] has written, never one
    past the end, and frees exactly [count] strings; this holds with a
    delimiter or without one and whichever allocations failed.  [free_env]
    of the [NULL] that [get_env] returns otherwise does nothing. *)
Theorem get_env_free_env (w w' : World) (key : cstring)
    (delim : option cstring) (array : list cell) (n : nat) :
  get_env key delim true w = ((Some array, Some n), w') →
  (∃ tokens, free_env (Some array) n = Some tokens ∧ length tokens = n ∧
             Forall (λ t, Str t ∈ array) tokens) ∧
  (∀ count, free_env None count = Some []).
Proof.
  intros Hget. split; [|done].
  apply get_env_result in Hget
    as (value & tokens & _ & _ & [= ->] & [Htake Hnull] & _ & _).
  exists tokens. split; [|split; [done|]].
  - apply free_loop_strings. by rewrite drop_0.
  - apply Forall_forall. intros t Ht.
    assert (Hin : Str t ∈ take (length tokens) array).
    { rewrite Htake. by apply list_elem_of_fmap_2. }
    by eapply elem_of_take_list.
Qed.

Lemma get_env_free_env_witness :
  ∃ tokens,
    free_env (Some [Str (cs "b"); Str (cs "c"); Null; Uninit; Uninit; Uninit;
                    Uninit; Uninit; Uninit; Uninit]) 2 = Some tokens ∧
    length tokens = 2 ∧
    Forall (λ t, Str t ∈ [Str (cs "b"); Str (cs "c"); Null; Uninit; Uninit;
                          Uninit; Uninit; Uninit; Uninit; Uninit]) tokens.
Proof.
  apply (get_env_free_env (world_third_refused (cs "L") (cs "a,b,c"))
           (world_with_var (cs "L") (cs "a,b,c")) (cs "L") (Some (cs ","))).
  reflexivity.
Defined.

(** ** Reading a file line by line *)

Lemma read_line_cons room c input :
  read_line room (c :: input)
  = if room =? 0 then ([], c :: input)
    else if (c =? LF)%char then ([c], input)
    else let (line, rest') := read_line (room - 1) input in (c :: line, rest').
Proof. done. Qed.

Lemma read_line_length input :
  ∀ room, length (read_line room input).2 ≤ length input.
Proof.
  induction input as [|c input IH]; intros room; [done|].
  rewrite read_line_cons. destruct (room =? 0); [done|].
  destruct (c =? LF)%char; [simpl; lia|].
  specialize (IH (room - 1)).
  destruct (read_line (room - 1) input) as [l r]. cbn [snd length] in *. lia.
Qed.

Lemma read_line_progress room c input :
  0 < room → length (read_line room (c :: input)).2 < length (c :: input).
Proof.
  intros Hroom. rewrite read_line_cons.
  destruct (Nat.eqb_spec room 0); [lia|].
  destruct (c =? LF)%char; [simpl; lia|].
  pose proof (read_line_length input (room - 1)) as Hle.
  destruct (read_line (room - 1) input) as [l r]. cbn [snd length] in *. lia.
Qed.

Lemma read_line_long line more :
  LF ∉ line → ∀ room, room ≤ length line →
  read_line room (line ++ LF :: more)
  = (take room line, drop room line ++ LF :: more).
Proof.
  intros Hline. induction line as [|c line IH]; intros room Hroom.
  - cbn [length] in Hroom. by replace room with 0 by lia.
  - apply not_elem_of_cons in Hline as [Hc Hline]. cbn [app].
    rewrite read_line_cons. destruct room as [|room]; [done|].
    cbn [Nat.eqb].
    assert ((c =? LF)%char = false) as -> by (apply Ascii.eqb_neq; congruence).
    rewrite Nat.sub_succ, Nat.sub_0_r, IH; [done|done|simpl in Hroom; lia].
Qed.

Lemma read_line_app old rest :
  last old = Some LF →
  ∀ room,
    read_line room (old ++ rest)
    = ((read_line room old).1, (read_line room old).2 ++ rest) ∧
    ((read_line room old).2 = [] ∨ last (read_line room old).2 = Some LF).
Proof.
  induction old as [|c old IH]; intros Hlast room; [done|].
  cbn [app]. rewrite !read_line_cons.
  destruct (room =? 0); [by split; [|right]|].
  destruct (Ascii.eqb_spec c LF) as [->|Hc].
  - split; [done|]. destruct old; [by left|right]. by rewrite last_cons_cons in Hlast.
  - destruct old as [|d old]; [by injection Hlast|].
    rewrite last_cons_cons in Hlast.
    destruct (IH Hlast (room - 1)) as [-> Hrest].
    by destruct (read_line (room - 1) (d :: old)).
Qed.

(** More turns than characters change nothing. *)
Lemma file_lines_fuel n :
  ∀ f fuel, length f ≤ n → length f ≤ fuel →
            file_lines fuel f = file_lines (length f) f.
Proof.
  induction n as [|n IH]; intros f fuel Hn Hfuel.
  - destruct f; [by destruct fuel|simpl in Hn; lia].
  - destruct f as [|c f]; [by destruct fuel|].
    destruct fuel as [|fuel]; [simpl in Hfuel; lia|].
    cbn [length file_lines fgets].
    pose proof (read_line_progress (LINE_MAX - 1) c f) as Hlt.
    rewrite LINE_MAX_eq in Hlt. specialize (Hlt ltac:(lia)).
    rewrite <- LINE_MAX_eq in Hlt.
    destruct (read_line (LINE_MAX - 1) (c :: f)) as [l r].
    cbn [snd length] in *.
    rewrite (IH r fuel), (IH r (length f)) by lia. done.
Qed.

Lemma file_lines_app n rest :
  ∀ old fuel,
    length old ≤ n → old = [] ∨ last old = Some LF →
    length (old ++ rest) ≤ fuel →
    file_lines fuel (old ++ rest)
    = file_lines (length old) old ++ file_lines (length rest) rest.
Proof.
  induction n as [|n IH]; intros old fuel Hn Hlast Hfuel.
  - destruct old; [|simpl in Hn; lia]. cbn [app] in *.
    by apply (file_lines_fuel (length rest)).
  - destruct old as [|c old].
    { cbn [app] in *. by apply (file_lines_fuel (length rest)). }
    destruct Hlast as [?|Hlast]; [done|].
    destruct fuel as [|fuel]; [simpl in Hfuel; lia|].
    cbn [length]. cbn [app file_lines fgets].
    change (c :: old ++ rest) with ((c :: old) ++ rest).
    destruct (read_line_app (c :: old) rest Hlast (LINE_MAX - 1)) as [-> Hr].
    pose proof (read_line_progress (LINE_MAX - 1) c old) as Hlt.
    rewrite LINE_MAX_eq in Hlt. specialize (Hlt ltac:(lia)).
    rewrite <- LINE_MAX_eq in Hlt.
    destruct (read_line (LINE_MAX - 1) (c :: old)) as [l r].
    cbn [fst snd length app] in *. rewrite length_app in Hfuel.
    rewrite (IH r fuel) by (done || rewrite ?length_app; lia).
    by rewrite (file_lines_fuel (length old) r (length old)) by lia.
Qed.

Lemma file_entries_app old rest :
  old = [] ∨ last old = Some LF →
  file_entries (old ++ rest) = file_entries old ++ file_entries rest.
Proof.
  intros Hlast. unfold file_entries, entries_of_lines.
  rewrite (file_lines_app (length old)) by done. apply omap_app.
Qed.

Lemma file_lines_one line :
  LF ∉ line → length line < LINE_MAX - 1 →
  file_lines (length (line ++ [LF])) (line ++ [LF]) = [line ++ [LF]].
Proof.
  intros HLF Hlen. rewrite length_app, Nat.add_comm. cbn [length Nat.add].
  cbn [file_lines]. unfold fgets at 1.
  rewrite read_line_newline by done.
  destruct line; cbn [app]; by destruct (length _).
Qed.

(** X8.  What the loader skips.  A buffer that [fgets] has filled is
    dropped when it is blank, when its first character after the whitespace
    is ['#'], when it has no ['='], and when there is nothing but
    whitespace before its first ['='].  A line of fewer than
    [LINE_MAX - 1] characters comes in one buffer: a line of one of these
    four kinds adds no entry to those of the file, whatever stands before
    and after it.  (A longer line comes in pieces, and each piece is judged
    for itself.) *)
Theorem entry_of_line_skipped (line : cstring) :
  (blank line → entry_of_line line = None) ∧
  (∀ ws comment, blank ws → line = ws ++ "#" :: comment →
                 entry_of_line line = None) ∧
  ("=" ∉ line → entry_of_line line = None) ∧
  (∀ ws rest, blank ws → line = ws ++ "=" :: rest →
              entry_of_line line = None) ∧
  (∀ before after,
     before = [] ∨ last before = Some LF →
     LF ∉ line → NUL ∉ line → length line < LINE_MAX - 1 →
     blank line ∨ (∃ ws comment, blank ws ∧ line = ws ++ "#" :: comment) ∨
     "=" ∉ line ∨ (∃ ws rest, blank ws ∧ line = ws ++ "=" :: rest) →
     file_entries (before ++ line ++ LF :: after)
     = file_entries before ++ file_entries after).
Proof.
  destruct (entry_of_line_none line) as (H1 & H2 & H3 & H4).
  repeat apply conj; [done..|].
  intros before after Hbefore HLF HNUL Hlen Hkind.
  assert (Hnone : entry_of_line (line ++ [LF]) = None).
  { destruct (entry_of_line_none (line ++ [LF])) as (B1 & B2 & B3 & B4).
    destruct Hkind as [Hb|[(ws & comment & Hws & ->)|[Heq|(ws & rest & Hws & ->)]]].
    - apply B1. apply Forall_app. split; [done|]. by repeat constructor.
    - apply (B2 ws (comment ++ [LF])); [done|]. by rewrite <- app_assoc.
    - apply B3. rewrite not_elem_of_app. split; [done|].
      intros H. apply list_elem_of_singleton in H. discriminate.
    - apply (B4 ws (rest ++ [LF])); [done|]. by rewrite <- app_assoc. }
  replace (before ++ line ++ LF :: after)
    with (before ++ (line ++ [LF]) ++ after)
    by (by rewrite <- (app_assoc line)).
  rewrite file_entries_app by done.
  rewrite (file_entries_app (line ++ [LF])) by (right; apply last_snoc).
  assert (file_entries (line ++ [LF]) = []) as ->; [|done].
  unfold file_entries, entries_of_lines. rewrite file_lines_one by done.
  cbn [omap list_omap]. rewrite c_str_id, Hnone; [done|].
  rewrite not_elem_of_app. split; [done|].
  intros H. apply list_elem_of_singleton in H. discriminate.
Qed.

Lemma entry_of_line_skipped_witness :
  file_entries ((cs "A=1" ++ [LF]) ++ cs "  # B=2" ++ LF :: cs "C=3" ++ [LF])
  = file_entries (cs "A=1" ++ [LF]) ++ file_entries (cs "C=3" ++ [LF]).
Proof.
  refine (proj2 (proj2 (proj2 (proj2 (entry_of_line_skipped (cs "  # B=2")))))
            (cs "A=1" ++ [LF]) (cs "C=3" ++ [LF]) (or_intror eq_refl) _ _ _
            (or_intror (or_introl _))).
  - apply (bool_decide_unpack (LF ∉ cs "  # B=2")). by vm_compute.
  - apply (bool_decide_unpack (NUL ∉ cs "  # B=2")). by vm_compute.
  - rewrite LINE_MAX_eq. cbn. lia.
  - exists (cs "  "), (cs " B=2"). split; [by repeat constructor|done].
Defined.

(** ** From the collector to the loader *)

Lemma interactive_create_entries_one_line_world filename w line more key value :
  disk w = [] → stdin w = line ++ LF :: LF :: more →
  LF ∉ line → NUL ∉ line → length line < LINE_MAX - 1 →
  strchr (trim_inplace line) "=" = Some (key, value) → trim_inplace key ≠ [] →
  heap (interactive_create_entries filename w).2 = heap w ∧
  environ (interactive_create_entries filename w).2
  = <[trim_inplace key := value]> (environ w) ∧
  files (interactive_create_entries filename w).2 !! filename
  = Some (default [] (files w !! filename) ++ trim_inplace line ++ [LF]).
Proof.
  intros Hdisk Hstdin HLF HNUL Hlen Heq Hkey.
  unfold interactive_create_entries, fopen_append. unfold_io. rewrite Hdisk.
  cbn [stdin with_console with_files]. rewrite Hstdin, length_app.
  cbn [length]. rewrite !Nat.add_succ_r.
  erewrite collect_loop_accept; [|by cbn; rewrite Hstdin|done..].
  erewrite (collect_loop_finish _ _ _ _ []);
    [|done|apply not_elem_of_nil|apply not_elem_of_nil
     |rewrite LINE_MAX_eq; cbn; lia|constructor].
  cbn. rewrite !lookup_insert_eq. done.
Qed.

(** What the loader makes of a line as the collector has written it. *)
Lemma written_line_entry line key value :
  NUL ∉ line → length line < LINE_MAX - 1 →
  strchr (trim_inplace line) "=" = Some (key, value) → trim_inplace key ≠ [] →
  starts_with (cs "export ") (trim_inplace line) = false →
  entry_of_line (c_str (trim_inplace line ++ [LF]))
  = if bool_decide (head (trim_inplace line) = Some "#"%char) then None
    else Some (trim_inplace key, value).
Proof.
  intros HNUL Hlen Heq Hkey Hexport.
  destruct (accepted_checks line key value) as (Hne & Hk0 & Hkmax & Htake & _);
    [lia|done..|].
  pose proof (trim_inplace_is_tight line) as Htight.
  pose proof (trim_inplace_length line) as Hle.
  assert (Htrim : trim_inplace (trim_inplace line) = trim_inplace line).
  { rewrite <- (app_nil_r (trim_inplace line)) at 1.
    apply (trim_inplace_tight [] _ []); [constructor|constructor|done]. }
  rewrite c_str_id.
  2:{ rewrite not_elem_of_app. split.
      - intros H. by apply elem_of_trim_inplace in H.
      - intros H. apply list_elem_of_singleton in H. discriminate. }
  unfold entry_of_line, strncpy.
  rewrite take_ge by (rewrite length_app; cbn [length]; lia).
  rewrite trim_inplace_blank_r by (by repeat constructor). rewrite Htrim.
  destruct (trim_inplace line) as [|c t] eqn:Et; [done|]. cbn [head].
  destruct (Ascii.eqb_spec c "#") as [->|Hc].
  { by rewrite bool_decide_eq_true_2. }
  rewrite bool_decide_eq_false_2 by congruence.
  rewrite Hexport, Heq, Hkmax, Htake.
  destruct (trim_inplace key) as [|k keybuf] eqn:Ek; [done|].
  f_equal. f_equal. apply strip_eol_id.
  apply strchr_Some in Heq as [Heq _]. destruct Htight as [_ Hl].
  intros d Hd. apply Hl. rewrite Heq.
  destruct value as [|v value]; [done|].
  by rewrite last_app_cons, last_cons_cons.
Qed.

Lemma written_line_entries line key value old :
  old = [] ∨ last old = Some LF →
  LF ∉ line → NUL ∉ line → length line < LINE_MAX - 1 →
  strchr (trim_inplace line) "=" = Some (key, value) → trim_inplace key ≠ [] →
  starts_with (cs "export ") (trim_inplace line) = false →
  file_entries (old ++ trim_inplace line ++ [LF])
  = file_entries old ++
    if bool_decide (head (trim_inplace line) = Some "#"%char) then []
    else [(trim_inplace key, value)].
Proof.
  intros Hold HLF HNUL Hlen Heq Hkey Hexport.
  rewrite file_entries_app by done. f_equal.
  unfold file_entries, entries_of_lines. rewrite file_lines_one.
  - cbn [omap list_omap]. rewrite (written_line_entry line key value) by done.
    by case_bool_decide.
  - intros H. by apply elem_of_trim_inplace in H.
  - pose proof (trim_inplace_length line). lia.
Qed.

(** X16.  A line that the collector accepts is set in the process as it
    was typed, the text after the ['='] taken literally; the same line read
    back from the file by a later load goes through the parser and the
    expansion.  So [A="x y"] typed at the prompt gives [A] the value
    ["x y"] with its quotes now, and [x y] after the next load.  (The file
    is new, or ends in a newline; the line starts neither with ['#'] nor
    with [export] and a space; every [${...}] of the file and of the line
    holds the name of a variable, a text that is not empty and has no
    ['='] in it.) *)
Theorem collector_then_reload (w : World)
    (filename line more key value old : cstring) :
  disk w = [] → heap w = [] → stdin w = line ++ LF :: LF :: more →
  default [] (files w !! filename) = old → old = [] ∨ last old = Some LF →
  LF ∉ line → NUL ∉ line → length line < LINE_MAX - 1 →
  strchr (trim_inplace line) "=" = Some (key, value) → trim_inplace key ≠ [] →
  head (trim_inplace line) ≠ Some "#"%char →
  starts_with (cs "export ") (trim_inplace line) = false →
  refers_to_names (file_entries old ++ [(trim_inplace key, value)]) = true →
  environ (interactive_create_entries filename w).2 !! trim_inplace key
  = Some value ∧
  (load_dotenv filename (interactive_create_entries filename w).2).1 = 0%Z ∧
  environ (load_dotenv filename (interactive_create_entries filename w).2).2
    !! trim_inplace key
  = Some (expand (install (<[trim_inplace key := value]> (environ w))
                    (file_entries old))
            (parse_value_buf value)).
Proof.
  intros Hdisk Hheap Hstdin Hfile Hold HLF HNUL Hlen Heq Hkey Hhash Hexport _.
  destruct (interactive_create_entries_one_line_world filename w line more
              key value) as (Hheap1 & Henv1 & Hfiles1); [done..|].
  rewrite Hfile in Hfiles1.
  pose proof (written_line_entries line key value old Hold HLF HNUL Hlen Heq
                Hkey Hexport) as Hentries.
  rewrite bool_decide_eq_false_2 in Hentries by done.
  split; [by rewrite Henv1, lookup_insert_eq|].
  rewrite (load_dotenv_quiet filename _ _ (eq_trans Hheap1 Hheap) Hfiles1).
  2:{ right. rewrite Hentries. by destruct (file_entries old). }
  split; [done|]. cbn [snd environ with_environ].
  rewrite Hentries, install_app, Henv1. cbn [install foldl fst snd].
  by rewrite lookup_insert_eq.
Qed.

Lemma collector_then_reload_witness :
  environ (interactive_create_entries dotenv
             (terminal (quoted_entry ++ [LF; LF]))).2 !! cs "A"
  = Some ([DQUOTE] ++ cs "x y" ++ [DQUOTE]) ∧
  (load_dotenv dotenv
     (interactive_create_entries dotenv
        (terminal (quoted_entry ++ [LF; LF]))).2).1 = 0%Z ∧
  environ (load_dotenv dotenv
             (interactive_create_entries dotenv
                (terminal (quoted_entry ++ [LF; LF]))).2).2 !! cs "A"
  = Some (cs "x y").
Proof.
  refine (collector_then_reload (terminal (quoted_entry ++ [LF; LF])) dotenv
            quoted_entry [] (cs "A") ([DQUOTE] ++ cs "x y" ++ [DQUOTE]) []
            eq_refl eq_refl eq_refl eq_refl (or_introl eq_refl)
            _ _ _ _ _ _ _ _).
  - apply (bool_decide_unpack (LF ∉ quoted_entry)). by vm_compute.
  - apply (bool_decide_unpack (NUL ∉ quoted_entry)). by vm_compute.
  - rewrite LINE_MAX_eq. cbn. lia.
  - by vm_compute.
  - by vm_compute.
  - by vm_compute.
  - by vm_compute.
  - by vm_compute.
Defined.



(** ** From the set-up of [state_start] to the splitter *)

Lemma quoted_text_plain Q s :
  Q ∉ s → BACKSLASH ∉ s → quoted_text Q s s.
Proof.
  induction s as [|c s IH]; intros HQ HB; [constructor|].
  apply not_elem_of_cons in HQ as [? ?], HB as [? ?].
  constructor; auto.
Qed.

Lemma expansion_no_refs env fuel :
  ∀ p, length p ≤ fuel → references fuel p = [] → expansion env fuel p = p.
Proof.
  induction fuel as [|fuel IH]; intros p Hlen Hrefs.
  - destruct p; [done|simpl in Hlen; lia].
  - destruct p as [|c p']; [done|]. cbn [length] in Hlen.
    cbn [references] in Hrefs. rewrite expansion_cons.
    destruct ((c =? "$")%char && starts_with (cs "{") p').
    + destruct (find_close (tail p')) as [[name rest]|]; [done|].
      rewrite IH; [done|lia|done].
    + rewrite IH; [done|lia|done].
Qed.

Lemma expand_no_refs env v : var_refs v = [] → expand env v = v.
Proof. intros H. by apply expansion_no_refs. Qed.

(** A line as [state_start] writes it, alone in a file. *)
Lemma assignment_line_entries key input :
  tight key → key ≠ [] → "=" ∉ key → LF ∉ key → NUL ∉ key →
  head key ≠ Some "#"%char →
  (∀ rest, starts_with (cs "export ") (key ++ rest) = false) →
  LF ∉ input → NUL ∉ input → length key + length input + 4 < LINE_MAX →
  file_entries (key ++ "="%char :: DQUOTE :: input ++ [DQUOTE; LF])
  = [(key, DQUOTE :: input ++ [DQUOTE])].
Proof.
  intros Hkey Hne Heq HLF HNUL Hhash Hexport HLFi HNULi Hlen.
  set (value := DQUOTE :: input ++ [DQUOTE]).
  assert (Hline : key ++ "="%char :: DQUOTE :: input ++ [DQUOTE; LF]
                  = (key ++ "="%char :: value) ++ [LF]).
  { unfold value. rewrite <- !app_assoc. cbn [app]. by rewrite <- !app_assoc. }
  assert (Hlv : length (key ++ "="%char :: value) = length key + length input + 3).
  { unfold value. rewrite length_app. cbn [length].
    rewrite length_app. cbn [length]. lia. }
  assert (Hnot : ∀ c, c ∉ key → c ∉ input → c ≠ "="%char → c ≠ DQUOTE →
                      c ∉ key ++ "="%char :: value).
  { intros c Hk Hi H1 H2. unfold value.
    rewrite not_elem_of_app, !not_elem_of_cons, not_elem_of_app,
      not_elem_of_cons. repeat split; try done. apply not_elem_of_nil. }
  rewrite Hline. unfold file_entries, entries_of_lines.
  rewrite file_lines_one by ((by apply Hnot) || lia).
  cbn [omap list_omap]. rewrite c_str_id.
  2:{ rewrite not_elem_of_app. split; [by apply Hnot|].
      intros H. apply list_elem_of_singleton in H. discriminate. }
  pose proof (entry_of_plain_line [] key [] value [LF]) as Hentry.
  cbn [app] in Hentry. rewrite Hentry; [done|constructor|constructor| |done..| | |].
  - by repeat constructor.
  - apply Hexport.
  - unfold value. intros c Hc.
    change (DQUOTE :: input ++ [DQUOTE]) with ((DQUOTE :: input) ++ [DQUOTE]) in Hc.
    rewrite last_snoc in Hc. by injection Hc as <-.
  - rewrite length_app. cbn [length]. lia.
Qed.

Lemma quoted_value_parsed env input :
  DQUOTE ∉ input → BACKSLASH ∉ input → length input < LINE_MAX →
  var_refs input = [] →
  expand env (parse_value_buf (DQUOTE :: input ++ [DQUOTE])) = input.
Proof.
  intros HQ HB Hlen Hrefs.
  pose proof (parse_value_buf_quoted [] DQUOTE (input ++ [DQUOTE])
                (Forall_nil_2 _) (or_introl eq_refl)) as Hparse.
  cbn [app] in Hparse. rewrite Hparse.
  rewrite (copy_quoted_closed DQUOTE input input [])
    by (done || by apply quoted_text_plain).
  rewrite take_ge by lia. by apply expand_no_refs.
Qed.

Lemma fprintf_text_ok filename text w :
  disk w = [] →
  fprintf_text filename text w
  = (tt, with_files
           (<[filename := default [] (files w !! filename) ++ text]> (files w))
           w).
Proof. unfold fprintf_text. by intros ->. Qed.

Lemma append_credentials_file names mails w :
  disk w = [] →
  files (append_credentials names mails w).2 !! dotenv
  = Some (default [] (files w !! dotenv)
          ++ usernames_line names ++ emails_line mails).
Proof.
  intros Hdisk.
  unfold append_credentials, fopen_append, mbind, M_bind. rewrite Hdisk.
  cbv beta iota zeta.
  rewrite !fprintf_text_ok by done.
  unfold printf, mret, M_ret.
  cbn [snd files with_files with_console default].
  rewrite !lookup_insert_eq. unfold default at 1 2. cbn [from_option id].
  by rewrite <- app_assoc.
Qed.

(** X18.  What [state_start] writes to [.env] on the first run is what the
    next run reads: for names and addresses as [get_input_string] returns
    them into its buffer of 512 bytes (not empty, no newline), without double
    quote, backslash or reference to a variable, appended to a file that is
    new or ends in a newline, the next [load_dotenv] succeeds and [get_env]
    then splits [USERNAMES] and [EMAILS] into the pieces that were typed
    between the semicolons, whatever the file held before and whatever the
    environment of the new process. *)
Theorem credentials_read_back (w w' : World) (names mails old : cstring) :
  disk w = [] → default [] (files w !! dotenv) = old →
  old = [] ∨ last old = Some LF →
  length names < 512 → length mails < 512 → names ≠ [] → mails ≠ [] →
  (∀ c, c ∈ [DQUOTE; BACKSLASH; LF; NUL] → (c ∉ names) ∧ (c ∉ mails)) →
  var_refs names = [] → var_refs mails = [] →
  heap w' = [] → files w' = files (append_credentials names mails w).2 →
  ∃ w'' users addrs,
    load_dotenv dotenv w' = (0%Z, w'') ∧
    get_env (cs "USERNAMES") (Some (cs ";")) true w''
    = ((Some users, Some (length (split_spec (cs ";") names))), w'') ∧
    holds users (split_spec (cs ";") names) ∧
    get_env (cs "EMAILS") (Some (cs ";")) true w''
    = ((Some addrs, Some (length (split_spec (cs ";") mails))), w'') ∧
    holds addrs (split_spec (cs ";") mails).
Proof.
  intros Hdisk Hold Hlast Hn Hm Hnames Hmails Hchars Hrn Hrm Hheap Hfiles.
  destruct (Hchars DQUOTE) as [HQn HQm]; [by left|].
  destruct (Hchars BACKSLASH) as [HBn HBm]; [by right; left|].
  destruct (Hchars LF) as [HLn HLm]; [by do 2 right; left|].
  destruct (Hchars NUL) as [HNn HNm]; [by do 3 right; left|].
  assert (Hcontent : files w' !! dotenv
    = Some (old ++ usernames_line names ++ emails_line mails)).
  { by rewrite Hfiles, append_credentials_file, Hold. }
  assert (Hu : usernames_line names
               = cs "USERNAMES" ++ "="%char :: DQUOTE :: names ++ [DQUOTE; LF]).
  { unfold usernames_line, snprintf. apply take_ge. rewrite length_app.
    change (length (cs "USERNAMES")) with 9. cbn [length].
    rewrite length_app. cbn [length]. lia. }
  assert (He : emails_line mails
               = cs "EMAILS" ++ "="%char :: DQUOTE :: mails ++ [DQUOTE; LF]).
  { unfold emails_line, snprintf. apply take_ge. rewrite length_app.
    change (length (cs "EMAILS")) with 6. cbn [length].
    rewrite length_app. cbn [length]. lia. }
  assert (Hentries :
    file_entries (old ++ usernames_line names ++ emails_line mails)
    = file_entries old ++
      [(cs "USERNAMES", DQUOTE :: names ++ [DQUOTE]);
       (cs "EMAILS", DQUOTE :: mails ++ [DQUOTE])]).
  { rewrite file_entries_app by done. f_equal.
    rewrite file_entries_app.
    2:{ right. rewrite Hu.
        change (cs "USERNAMES" ++ "="%char :: DQUOTE :: names ++ [DQUOTE; LF])
          with ((cs "USERNAMES" ++ ["="%char; DQUOTE]) ++ names ++ [DQUOTE; LF]).
        rewrite !app_assoc.
        change [DQUOTE; LF] with ([DQUOTE] ++ [LF]).
        rewrite app_assoc. apply last_snoc. }
    rewrite Hu, He.
    rewrite !assignment_line_entries; try done;
      try (rewrite LINE_MAX_eq; cbn; lia);
      try (by vm_compute);
      try (split; intros c [= <-]; reflexivity);
      try (apply (bool_decide_unpack _); by vm_compute). }
  set (env0 := install (environ w') (file_entries old)).
  set (w'' := with_environ
                (install (environ w')
                   (file_entries
                      (old ++ usernames_line names ++ emails_line mails))) w').
  assert (Hload : load_dotenv dotenv w' = (0%Z, w'')).
  { apply load_dotenv_quiet; [done|done|]. right. rewrite Hentries.
    by destruct (file_entries old). }
  assert (Henv : environ w'' !! cs "USERNAMES" = Some names ∧
                 environ w'' !! cs "EMAILS" = Some mails).
  { unfold w''. cbn [environ with_environ].
    rewrite Hentries, install_app. fold env0. cbn [install foldl fst snd].
    rewrite !quoted_value_parsed by (done || rewrite LINE_MAX_eq; lia).
    split.
    - rewrite lookup_insert_ne by done. by rewrite lookup_insert_eq.
    - by rewrite lookup_insert_eq. }
  destruct Henv as [Hun Hem].
  destruct (get_env_split_ok w'' (cs "USERNAMES") names (cs ";") true)
    as (users & Hget1 & Hholds1); [done..|].
  destruct (get_env_split_ok w'' (cs "EMAILS") mails (cs ";") true)
    as (addrs & Hget2 & Hholds2); [done..|].
  by exists w'', users, addrs.
Qed.

Lemma credentials_read_back_witness :
  ∃ w'' users addrs,
    load_dotenv dotenv next_run = (0%Z, w'') ∧
    get_env (cs "USERNAMES") (Some (cs ";")) true w''
    = ((Some users, Some (length (split_spec (cs ";") (cs "Ann;Bob")))), w'') ∧
    holds users (split_spec (cs ";") (cs "Ann;Bob")) ∧
    get_env (cs "EMAILS") (Some (cs ";")) true w''
    = ((Some addrs,
        Some (length (split_spec (cs ";") (cs "a@x.org;b@x.org")))), w'') ∧
    holds addrs (split_spec (cs ";") (cs "a@x.org;b@x.org")).
Proof.
  apply (credentials_read_back world0 next_run (cs "Ann;Bob")
           (cs "a@x.org;b@x.org") []).
  - reflexivity.
  - by vm_compute.
  - by left.
  - cbn. lia.
  - cbn. lia.
  - done.
  - done.
  - intros c Hc.
    repeat (apply elem_of_cons in Hc as [-> | Hc];
            [split; apply (bool_decide_unpack _); by vm_compute|]).
    by apply elem_of_nil in Hc.
  - by vm_compute.
  - by vm_compute.
  - reflexivity.
  - reflexivity.
Defined.

(** ** Lines that do not fit the buffer of the loader *)

Lemma file_lines_cons fuel c f :
  file_lines (S fuel) (c :: f)
  = (read_line (LINE_MAX - 1) (c :: f)).1
    :: file_lines fuel (read_line (LINE_MAX - 1) (c :: f)).2.
Proof.
  cbn [file_lines fgets]. by destruct (read_line (LINE_MAX - 1) (c :: f)).
Qed.

(** X19.  The loader does not read a line of [LINE_MAX - 1] characters or
    more as one line: [fgets] hands it over in pieces of [LINE_MAX - 1]
    characters, and the loader looks at each piece as a line of its own.
    So what comes after the first [LINE_MAX - 1] characters of a long line
    is an entry of the file whenever it reads as one, such as the [B=1] at
    the end of a long value. *)
Theorem long_line_read_in_pieces (first rest : cstring) :
  length first = LINE_MAX - 1 → LF ∉ first → LF ∉ rest →
  length rest < LINE_MAX - 1 →
  file_lines (length (first ++ rest ++ [LF])) (first ++ rest ++ [LF])
  = [first; rest ++ [LF]] ∧
  (∀ key value,
     entry_of_line (c_str (rest ++ [LF])) = Some (key, value) →
     (key, value) ∈ file_entries (first ++ rest ++ [LF])).
Proof.
  intros Hfirst HLF1 HLF2 Hrest.
  assert (Hlines :
    file_lines (length (first ++ rest ++ [LF])) (first ++ rest ++ [LF])
    = [first; rest ++ [LF]]).
  { destruct first as [|c first]; [rewrite LINE_MAX_eq in Hfirst; done|].
    rewrite length_app. cbn [length Nat.add].
    change ((c :: first) ++ rest ++ [LF]) with (c :: first ++ rest ++ [LF]).
    rewrite file_lines_cons.
    change (c :: first ++ rest ++ [LF]) with ((c :: first) ++ rest ++ [LF]).
    replace ((c :: first) ++ rest ++ [LF])
      with (((c :: first) ++ rest) ++ LF :: []) by by rewrite <- app_assoc.
    rewrite read_line_long; [|by rewrite not_elem_of_app
                             |rewrite length_app; lia].
    rewrite <- Hfirst, take_app_length, drop_app_length. cbn [fst snd].
    f_equal.
    rewrite (file_lines_fuel (length (rest ++ [LF])))
      by (rewrite ?length_app; cbn [length]; lia).
    by apply file_lines_one. }
  split; [done|]. intros key value Hentry.
  unfold file_entries, entries_of_lines. rewrite Hlines.
  apply list_elem_of_omap. exists (rest ++ [LF]). split; [|done].
  right. by left.
Qed.

Lemma long_line_read_in_pieces_witness :
  (cs "B", cs "1") ∈ file_entries (long_line ++ [LF]).
Proof.
  unfold long_line.
  replace ((cs "A=" ++ replicate (LINE_MAX - 3) "x"%char ++ cs "B=1") ++ [LF])
    with ((cs "A=" ++ replicate (LINE_MAX - 3) "x"%char) ++ cs "B=1" ++ [LF])
    by by rewrite <- !app_assoc.
  apply (long_line_read_in_pieces
           (cs "A=" ++ replicate (LINE_MAX - 3) "x"%char) (cs "B=1")).
  - rewrite length_app, length_replicate, LINE_MAX_eq. reflexivity.
  - apply (bool_decide_unpack _). rewrite LINE_MAX_eq. by vm_compute.
  - apply (bool_decide_unpack _). by vm_compute.
  - rewrite LINE_MAX_eq. cbn. lia.
  - by vm_compute.
Defined.

(** ** Appending to a file that does not end in a newline *)

(** A plain line, alone in a file. *)
Lemma plain_line_entries key value :
  tight key → key ≠ [] → "=" ∉ key → head key ≠ Some "#"%char →
  (∀ rest, starts_with (cs "export ") (key ++ rest) = false) →
  (∀ c, last value = Some c → isspace c = false) →
  LF ∉ key ++ value → NUL ∉ key ++ value →
  length key + length value + 2 < LINE_MAX →
  file_entries (key ++ "="%char :: value ++ [LF]) = [(key, value)].
Proof.
  intros Hkey Hne Heq Hhash Hexport Hlast HLF HNUL Hlen.
  apply not_elem_of_app in HLF as [HLFk HLFv].
  apply not_elem_of_app in HNUL as [HNULk HNULv].
  assert (Hline : key ++ "="%char :: value ++ [LF]
                  = (key ++ "="%char :: value) ++ [LF])
    by by rewrite <- app_assoc.
  assert (Hnot : ∀ c, c ∉ key → c ∉ value → c ≠ "="%char →
                      c ∉ key ++ "="%char :: value).
  { intros c Hk Hv H1. by rewrite not_elem_of_app, not_elem_of_cons. }
  rewrite Hline. unfold file_entries, entries_of_lines.
  rewrite file_lines_one
    by ((by apply Hnot) || (rewrite length_app; cbn [length]; lia)).
  cbn [omap list_omap]. rewrite c_str_id.
  2:{ rewrite not_elem_of_app. split; [by apply Hnot|].
      intros H. apply list_elem_of_singleton in H. discriminate. }
  pose proof (entry_of_plain_line [] key [] value [LF]) as Hentry.
  cbn [app] in Hentry.
  rewrite Hentry; [done|constructor|constructor| |done..| | |].
  - by repeat constructor.
  - apply Hexport.
  - done.
  - rewrite length_app. cbn [length]. rewrite length_app. cbn [length]. lia.
Qed.

(** X20.  The collector appends to the file as it is.  When the last line
    of the file does not end in a newline, the entry that was typed is
    written onto the end of that line: it is counted and set in the process,
    but in the file it is no entry of its own --- the next load reads the
    typed text as the end of the value of the old last line. *)
Theorem collector_after_unterminated_line (w : World)
    (filename line more key value before old_key old_value : cstring) :
  disk w = [] → stdin w = line ++ LF :: LF :: more →
  files w !! filename = Some (before ++ old_key ++ "="%char :: old_value) →
  before = [] ∨ last before = Some LF →
  tight old_key → old_key ≠ [] → "=" ∉ old_key →
  head old_key ≠ Some "#"%char →
  (∀ rest, starts_with (cs "export ") (old_key ++ rest) = false) →
  LF ∉ old_key ++ old_value → NUL ∉ old_key ++ old_value →
  LF ∉ line → NUL ∉ line →
  length old_key + length old_value + length line + 2 < LINE_MAX →
  strchr (trim_inplace line) "=" = Some (key, value) → trim_inplace key ≠ [] →
  (interactive_create_entries filename w).1 = 1%Z ∧
  environ (interactive_create_entries filename w).2 !! trim_inplace key
  = Some value ∧
  ∃ content,
    files (interactive_create_entries filename w).2 !! filename
    = Some content ∧
    file_entries content
    = file_entries before ++ [(old_key, old_value ++ trim_inplace line)].
Proof.
  intros Hdisk Hstdin Hfile Hbefore Hk1 Hk2 Hk3 Hk4 Hk5 HLF0 HNUL0 HLF HNUL
    Hlen Heq Hkey.
  destruct (interactive_create_entries_one_line filename w line more
              key value) as (Hcount & Hfiles1 & Henv1);
    [done|done|done|done|lia|done|done|].
  rewrite Hfile in Hfiles1. cbn [default from_option id] in Hfiles1.
  split; [done|]. split; [done|]. eexists. split; [exact Hfiles1|].
  pose proof (trim_inplace_is_tight line) as [_ Htight].
  pose proof (trim_inplace_length line) as Htlen.
  assert (Hne : trim_inplace line ≠ []).
  { apply strchr_Some in Heq as [-> _]. by destruct key. }
  replace ((before ++ old_key ++ "="%char :: old_value)
           ++ trim_inplace line ++ [LF])
    with (before ++ old_key ++ "="%char
          :: (old_value ++ trim_inplace line) ++ [LF])
    by (by rewrite <- !app_assoc).
  rewrite file_entries_app by done. f_equal.
  apply not_elem_of_app in HLF0 as [HLFk HLFv].
  apply not_elem_of_app in HNUL0 as [HNULk HNULv].
  apply plain_line_entries; try done.
  - intros c Hc. apply Htight.
    destruct (trim_inplace line) as [|t0 t] eqn:Et; [done|].
    by rewrite last_app_cons in Hc.
  - rewrite !not_elem_of_app. repeat split; try done.
    intros H. by apply elem_of_trim_inplace in H.
  - rewrite !not_elem_of_app. repeat split; try done.
    intros H. by apply elem_of_trim_inplace in H.
  - rewrite length_app. lia.
Qed.

Lemma collector_after_unterminated_line_witness :
  ∃ content,
    files (interactive_create_entries dotenv unterminated).2 !! dotenv
    = Some content ∧
    file_entries content = file_entries [] ++ [(cs "A", cs "1" ++ cs "B=2")].
Proof.
  refine (proj2 (proj2 (collector_after_unterminated_line unterminated dotenv
                          (cs "B=2") [] (cs "B") (cs "2") [] (cs "A") (cs "1")
                          eq_refl eq_refl _ (or_introl eq_refl)
                          _ _ _ _ _ _ _ _ _ _ _ _))).
  - by vm_compute.
  - split; intros c [= <-]; reflexivity.
  - done.
  - apply (bool_decide_unpack _). by vm_compute.
  - done.
  - intros rest. reflexivity.
  - apply (bool_decide_unpack _). by vm_compute.
  - apply (bool_decide_unpack _). by vm_compute.
  - apply (bool_decide_unpack _). by vm_compute.
  - apply (bool_decide_unpack _). by vm_compute.
  - rewrite LINE_MAX_eq. cbn. lia.
  - by vm_compute.
  - by vm_compute.
Defined.

(** ** A load that runs out of memory *)






(** * Properties of the terminal helpers *)

Ltac unfold_session :=
  unfold mbind, T_bind, mret, T_ret, on_host, tcgetattr, tcsetattr,
    atexit_disable_raw_mode, printf.

Lemma disable_raw_mode_eq s :
  disable_raw_mode s
  = (tt,
     if raw_mode_enabled s then
       with_raw_mode_enabled false
         (with_host
            (with_console
               (console (host s) ++ [Printf Stdout "\033[?25h" []]) (host s))
            (if stdin_tty (host s) then with_tty (orig_termios s) s else s))
     else s).
Proof.
  unfold disable_raw_mode. unfold_session.
  destruct (raw_mode_enabled s); [|done]. by destruct (stdin_tty (host s)).
Qed.

Lemma enable_raw_mode_eq s :
  enable_raw_mode s
  = (tt,
     let s1 :=
       if raw_mode_enabled s then s
       else with_raw_mode_enabled true
              (with_atexit_calls (S (atexit_calls s))
                 (with_orig_termios (saved s) s)) in
     with_host
       (with_console
          (console (host s) ++ [Printf Stdout "\033[?25l" []]) (host s))
       (if stdin_tty (host s) then with_tty (raw_of (saved s)) s1 else s1)).
Proof.
  unfold enable_raw_mode, saved, raw_of. unfold_session.
  by destruct s as [[e f i [] co h d] t o [] n c r].
Qed.

Lemma raw_of_flags t n :
  (0 ≤ n)%Z →
  Z.testbit (c_lflag (raw_of t)) n
  = Z.testbit (c_lflag t) n && negb (bool_decide (n = 1 ∨ n = 3)%Z).
Proof.
  intros Hn. unfold raw_of. cbn [c_lflag with_c_lflag].
  rewrite Z.land_spec, Z.lnot_spec by done. f_equal. f_equal.
  change (Z.lor ECHO ICANON) with 10%Z.
  destruct (decide (n = 1)%Z) as [->|H1].
  { by rewrite bool_decide_eq_true_2 by by left. }
  destruct (decide (n = 3)%Z) as [->|H3].
  { by rewrite bool_decide_eq_true_2 by by right. }
  rewrite bool_decide_eq_false_2 by lia.
  destruct (decide (n = 0)%Z) as [->|H0]; [done|].
  destruct (decide (n = 2)%Z) as [->|H2]; [done|].
  apply Z.bits_above_log2; [done|]. change (Z.log2 10) with 3%Z. lia.
Qed.

Lemma enable_raw_mode_state s :
  raw_mode_enabled (enable_raw_mode s).2 = true ∧
  atexit_calls (enable_raw_mode s).2
  = (if raw_mode_enabled s then atexit_calls s else S (atexit_calls s)) ∧
  orig_termios (enable_raw_mode s).2 = saved s ∧
  tty (enable_raw_mode s).2
  = (if stdin_tty (host s) then raw_of (saved s) else tty s) ∧
  stdin_tty (host (enable_raw_mode s).2) = stdin_tty (host s) ∧
  stdin (host (enable_raw_mode s).2) = stdin (host s).
Proof.
  rewrite enable_raw_mode_eq. unfold saved.
  by destruct s as [[e f i [] co h d] t o [] n c r].
Qed.

Lemma disable_raw_mode_state s :
  raw_mode_enabled (disable_raw_mode s).2 = false ∧
  atexit_calls (disable_raw_mode s).2 = atexit_calls s ∧
  orig_termios (disable_raw_mode s).2 = orig_termios s ∧
  tty (disable_raw_mode s).2
  = (if raw_mode_enabled s && stdin_tty (host s) then orig_termios s
     else tty s) ∧
  stdin_tty (host (disable_raw_mode s).2) = stdin_tty (host s) ∧
  stdin (host (disable_raw_mode s).2) = stdin (host s).
Proof.
  rewrite disable_raw_mode_eq.
  by destruct s as [[e f i [] co h d] t o [] n c r].
Qed.

(** X22.  On a terminal, [enable_raw_mode] switches off [ECHO] and [ICANON]
    (bits 3 and 1 of [c_lflag]) and nothing else, and [disable_raw_mode]
    puts the terminal back exactly as it was found.  Enabling a second
    time changes nothing more: the settings saved at first are not
    overwritten by the raw ones, so that [disable_raw_mode] still restores
    the terminal, and nothing is registered with [atexit] again. *)
Theorem raw_mode_round_trip (s : Session) :
  stdin_tty (host s) = true → raw_mode_enabled s = false →
  (∀ n, (0 ≤ n)%Z →
     Z.testbit (c_lflag (tty (enable_raw_mode s).2)) n
     = Z.testbit (c_lflag (tty s)) n && negb (bool_decide (n = 1 ∨ n = 3)%Z)) ∧
  with_c_lflag (c_lflag (tty s)) (tty (enable_raw_mode s).2) = tty s ∧
  tty (disable_raw_mode (enable_raw_mode s).2).2 = tty s ∧
  tty (enable_raw_mode (enable_raw_mode s).2).2 = tty (enable_raw_mode s).2 ∧
  atexit_calls (enable_raw_mode (enable_raw_mode s).2).2
  = S (atexit_calls s) ∧
  tty (disable_raw_mode (enable_raw_mode (enable_raw_mode s).2).2).2 = tty s ∧
  raw_mode_enabled
    (disable_raw_mode (enable_raw_mode (enable_raw_mode s).2).2).2 = false.
Proof.
  intros Htty Hraw.
  destruct (enable_raw_mode_state s) as (He1 & Ha1 & Ho1 & Ht1 & Hy1 & _).
  destruct (enable_raw_mode_state (enable_raw_mode s).2)
    as (He2 & Ha2 & Ho2 & Ht2 & Hy2 & _).
  destruct (disable_raw_mode_state (enable_raw_mode s).2)
    as (_ & _ & _ & Hd1 & _).
  destruct (disable_raw_mode_state (enable_raw_mode (enable_raw_mode s).2).2)
    as (Hd2e & _ & _ & Hd2 & _).
  assert (Hsaved : saved s = tty s) by (unfold saved; by rewrite Hraw, Htty).
  assert (Hsaved1 : saved (enable_raw_mode s).2 = tty s)
    by (unfold saved; by rewrite He1, Ho1).
  rewrite Htty, Hsaved in Ht1. rewrite Hy1, Htty, Hsaved1 in Ht2.
  rewrite He1, Hy1, Htty, Ho1, Hsaved in Hd1.
  rewrite He2, Hy2, Hy1, Htty, Ho2, Hsaved1 in Hd2.
  rewrite He1, Ha1, Hraw in Ha2.
  repeat split; try done.
  - intros n Hn. rewrite Ht1. by apply raw_of_flags.
  - rewrite Ht1. by destruct (tty s).
  - by rewrite Ht2, Ht1.
Qed.

Lemma raw_mode_round_trip_witness :
  tty (disable_raw_mode (enable_raw_mode (session0 cooked [])).2).2 = cooked ∧
  c_lflag (tty (enable_raw_mode (session0 cooked [])).2) = 35377%Z.
Proof.
  split.
  - apply (raw_mode_round_trip (session0 cooked []) eq_refl eq_refl).
  - reflexivity.
Defined.

Lemma on_host_input {A} (m : M A) s :
  stdin (host (on_host m s).2) = stdin (m (host s)).2.
Proof. unfold on_host. by destruct (m (host s)). Qed.

Lemma printf_input fmt args s :
  stdin (host (on_host (printf fmt args) s).2) = stdin (host s).
Proof. by rewrite on_host_input. Qed.

Lemma on_host_state {A} (m : M A) s :
  (∀ w, stdin_tty (m w).2 = stdin_tty w) →
  raw_mode_enabled (on_host m s).2 = raw_mode_enabled s ∧
  atexit_calls (on_host m s).2 = atexit_calls s ∧
  orig_termios (on_host m s).2 = orig_termios s ∧
  tty (on_host m s).2 = tty s ∧
  stdin_tty (host (on_host m s).2) = stdin_tty (host s).
Proof.
  intros Hm. unfold on_host. specialize (Hm (host s)).
  by destruct (m (host s)).
Qed.

Lemma printf_tty fmt args w : stdin_tty (printf fmt args w).2 = stdin_tty w.
Proof. done. Qed.

Lemma getchar_tty w : stdin_tty (getchar w).2 = stdin_tty w.
Proof. unfold getchar. by destruct (stdin w). Qed.

Lemma fgets_stdin_tty size w : stdin_tty (fgets_stdin size w).2 = stdin_tty w.
Proof. unfold fgets_stdin. by destruct (fgets size (stdin w)) as [[]|]. Qed.

(** Leaving raw mode, doing something that does not touch the terminal
    settings, and entering raw mode again. *)
Lemma raw_mode_cycle {A} (k : T A) s :
  (∀ s0, raw_mode_enabled (k s0).2 = raw_mode_enabled s0 ∧
         atexit_calls (k s0).2 = atexit_calls s0 ∧
         orig_termios (k s0).2 = orig_termios s0 ∧
         tty (k s0).2 = tty s0 ∧
         stdin_tty (host (k s0).2) = stdin_tty (host s0)) →
  raw_mode_enabled (enable_raw_mode (k (disable_raw_mode s).2).2).2 = true ∧
  atexit_calls (enable_raw_mode (k (disable_raw_mode s).2).2).2
  = S (atexit_calls s) ∧
  (stdin_tty (host s) = true →
   tty (enable_raw_mode (k (disable_raw_mode s).2).2).2 = raw_of (saved s)) ∧
  stdin_tty (host (enable_raw_mode (k (disable_raw_mode s).2).2).2)
  = stdin_tty (host s).
Proof.
  intros Hk.
  destruct (disable_raw_mode_state s) as (Hd1 & Hd2 & Hd3 & Hd4 & Hd5 & _).
  destruct (Hk (disable_raw_mode s).2) as (Hk1 & Hk2 & Hk3 & Hk4 & Hk5).
  destruct (enable_raw_mode_state (k (disable_raw_mode s).2).2)
    as (He1 & He2 & He3 & He4 & He5 & _).
  rewrite Hk1, Hd1, Hk2, Hd2 in He2.
  rewrite Hk5, Hd5 in He4, He5.
  repeat split; try done.
  intros Htty. rewrite He4, Htty. f_equal. unfold saved.
  rewrite Hk1, Hd1, Hk5, Hd5, Htty, Hk4, Hd4, Htty, andb_true_r.
  by destruct (raw_mode_enabled s).
Qed.

Lemma pausef_eq fmt s :
  ∃ pre,
    (pausef fmt s).2
    = (on_host (printf "\n" [])
         (enable_raw_mode (on_host getchar (disable_raw_mode pre).2).2).2).2 ∧
    raw_mode_enabled pre = raw_mode_enabled s ∧
    atexit_calls pre = atexit_calls s ∧
    orig_termios pre = orig_termios s ∧
    tty pre = tty s ∧
    stdin_tty (host pre) = stdin_tty (host s) ∧
    stdin (host pre) = stdin (host s).
Proof.
  unfold pausef, mbind, T_bind.
  set (first := match fmt with
                | Some (fmt0, args) =>
                    if (0 <? String.length fmt0)%nat
                    then on_host (printf fmt0 args) else mret ()
                | None => mret ()
                end).
  assert (Hfirst : raw_mode_enabled (first s).2 = raw_mode_enabled s ∧
                   atexit_calls (first s).2 = atexit_calls s ∧
                   orig_termios (first s).2 = orig_termios s ∧
                   tty (first s).2 = tty s ∧
                   stdin_tty (host (first s).2) = stdin_tty (host s)).
  { unfold first. destruct fmt as [[fmt0 args]|]; [|done].
    destruct (0 <? String.length fmt0)%nat; [|done].
    apply on_host_state, printf_tty. }
  assert (Hfirst' : stdin (host (first s).2) = stdin (host s)).
  { unfold first. destruct fmt as [[fmt0 args]|]; [|done].
    destruct (0 <? String.length fmt0)%nat; [|done]. apply printf_input. }
  destruct (first s) as [[] s0]. cbn [snd] in Hfirst, Hfirst'.
  pose proof (on_host_state (printf "Press any key to continue..." []) s0
                (printf_tty _ _)) as Hprompt.
  pose proof (printf_input "Press any key to continue..." [] s0) as Hprompt'.
  destruct (on_host (printf "Press any key to continue..." []) s0) as [[] s1].
  cbn [snd] in Hprompt, Hprompt'. exists s1.
  destruct (disable_raw_mode s1) as [[] s2] eqn:E2.
  destruct (on_host getchar s2) as [c s3] eqn:E3.
  destruct (enable_raw_mode s3) as [[] s4] eqn:E4. cbn [snd].
  split; [by rewrite E3; cbn [snd]; rewrite E4|].
  destruct Hfirst as (F1 & F2 & F3 & F4 & F5).
  destruct Hprompt as (P1 & P2 & P3 & P4 & P5).
  repeat split; congruence.
Qed.

Lemma get_input_string_eq buffer size s :
  get_input_string buffer size s
  = let s1 := (on_host (printf " > " []) (disable_raw_mode s).2).2 in
    let line := (on_host (fgets_stdin size) s1).1 in
    (match line with
     | Some line => Some (chomp (c_str line))
     | None => buffer
     end,
     (enable_raw_mode (on_host (fgets_stdin size) s1).2).2).
Proof.
  unfold get_input_string, mbind, T_bind, mret, T_ret.
  destruct (disable_raw_mode s) as [[] s1]. cbn [snd].
  destruct (on_host (printf " > " []) s1) as [[] s2]. cbn [snd].
  destruct (on_host (fgets_stdin size) s2) as [line s3]. cbn [fst snd].
  by destruct (enable_raw_mode s3) as [[] s4].
Qed.

(** X23.  [pausef] and [get_input_string] end in raw mode whatever the
    mode was when they were called --- also when raw mode was off, although
    the comment of line 70 says that it is re-enabled only if it was enabled
    before --- and each call registers [disable_raw_mode] with [atexit]
    once more.  On a terminal the settings are then the raw version of
    those that were in force outside raw mode. *)
Theorem prompts_leave_raw_mode (s : Session)
    (fmt : option (string * list arg)) (buffer : option cstring) (size : nat) :
  (raw_mode_enabled (pausef fmt s).2 = true ∧
   atexit_calls (pausef fmt s).2 = S (atexit_calls s) ∧
   (stdin_tty (host s) = true → tty (pausef fmt s).2 = raw_of (saved s))) ∧
  (raw_mode_enabled (get_input_string buffer size s).2 = true ∧
   atexit_calls (get_input_string buffer size s).2 = S (atexit_calls s) ∧
   (stdin_tty (host s) = true →
    tty (get_input_string buffer size s).2 = raw_of (saved s))).
Proof.
  split.
  - destruct (pausef_eq fmt s) as (pre & -> & Hp1 & Hp2 & Hp3 & Hp4 & Hp5 & _).
    destruct (raw_mode_cycle (on_host getchar) pre) as (Hc1 & Hc2 & Hc3 & Hc4).
    { intros s0. apply on_host_state, getchar_tty. }
    destruct (on_host_state (printf "\n" [])
                (enable_raw_mode (on_host getchar (disable_raw_mode pre).2).2).2
                (printf_tty _ _)) as (-> & -> & _ & -> & _).
    rewrite Hc1, Hc2, Hp2. repeat split; try done.
    intros Htty. rewrite Hc3 by congruence. unfold saved.
    by rewrite Hp1, Hp3, Hp4, Hp5.
  - rewrite get_input_string_eq. cbn [snd].
    destruct (raw_mode_cycle
                (λ s0, on_host (fgets_stdin size)
                         (on_host (printf " > " []) s0).2) s)
      as (Hc1 & Hc2 & Hc3 & Hc4); [|done].
    intros s0.
    destruct (on_host_state (printf " > " []) s0 (printf_tty _ _))
      as (H1 & H2 & H3 & H4 & H5).
    destruct (on_host_state (fgets_stdin size)
                (on_host (printf " > " []) s0).2 (fgets_stdin_tty size))
      as (-> & -> & -> & -> & ->).
    done.
Qed.

(** ** What [get_input_string] leaves in the buffer *)

Lemma prompt_input s :
  stdin (host (on_host (printf " > " []) (disable_raw_mode s).2).2)
  = stdin (host s).
Proof.
  destruct (disable_raw_mode_state s) as (_ & _ & _ & _ & _ & H).
  by rewrite <- H, on_host_input.
Qed.

Lemma on_host_fgets size s :
  on_host (fgets_stdin size) s
  = match fgets size (stdin (host s)) with
    | Some (l, rest) => (Some l, with_host (with_stdin rest (host s)) s)
    | None => (None, with_host (host s) s)
    end.
Proof.
  unfold on_host, fgets_stdin.
  by destruct (fgets size (stdin (host s))) as [[l rest]|].
Qed.

Lemma chomp_newline line : chomp (line ++ [LF]) = line.
Proof.
  unfold chomp. rewrite reverse_app. cbn [reverse app].
  change (reverse [LF]) with [LF]. cbn [app].
  by rewrite Ascii.eqb_refl, reverse_involutive.
Qed.

Lemma chomp_id s : LF ∉ s → chomp s = s.
Proof.
  intros Hs. unfold chomp. destruct (reverse s) as [|c r] eqn:E; [done|].
  assert (Hc : c ∈ s) by (apply elem_of_reverse; rewrite E; by left).
  assert ((c =? LF)%char = false) as ->; [|done].
  apply Ascii.eqb_neq. by intros ->.
Qed.

Lemma c_str_app_newline line :
  NUL ∉ line → c_str (line ++ [LF]) = line ++ [LF].
Proof.
  intros H. apply c_str_id. rewrite not_elem_of_app. split; [done|].
  intros Hin. apply list_elem_of_singleton in Hin. discriminate.
Qed.

(** A line is read: what the buffer holds then, and what is left of the
    input. *)
Lemma get_input_string_line s buffer size line more :
  stdin (host s) = line ++ LF :: more → LF ∉ line → NUL ∉ line →
  (get_input_string buffer size s).1 = Some (take (size - 1) line) ∧
  stdin (host (get_input_string buffer size s).2)
  = (if length line <? size - 1 then more
     else drop (size - 1) line ++ LF :: more).
Proof.
  intros Hstdin HLF HNUL.
  assert (Hfgets : fgets size (line ++ LF :: more)
            = Some (if length line <? size - 1 then (line ++ [LF], more)
                    else (take (size - 1) line,
                          drop (size - 1) line ++ LF :: more))).
  { unfold fgets. destruct (Nat.ltb_spec (length line) (size - 1)).
    - rewrite read_line_newline by done. by destruct line.
    - rewrite read_line_long by done. by destruct line. }
  split.
  - rewrite get_input_string_eq. cbn [fst].
    rewrite on_host_fgets, prompt_input, Hstdin, Hfgets.
    destruct (Nat.ltb_spec (length line) (size - 1)); cbn [fst].
    + by rewrite c_str_app_newline, chomp_newline, take_ge by (done || lia).
    + rewrite c_str_id, chomp_id; [done| |];
        intros Hx; by apply elem_of_take_list in Hx.
  - rewrite get_input_string_eq. cbn [snd].
    destruct (enable_raw_mode_state
                (on_host (fgets_stdin size)
                   (on_host (printf " > " []) (disable_raw_mode s).2).2).2)
      as (_ & _ & _ & _ & _ & ->).
    rewrite on_host_fgets, prompt_input, Hstdin, Hfgets.
    by destruct (length line <? size - 1).
Qed.

(** X24.  [get_input_string] leaves in the buffer the typed line without
    its newline, cut to [size - 1] characters; a carriage return before the
    newline stays.  What was cut off is not thrown away: the rest of the
    line stays in the input and answers the next question.  At the end of
    the input the buffer is left as it was, which for a buffer that the
    caller has not initialised means: without a defined content. *)
Theorem get_input_string_buffer (s : Session) (buffer : option cstring)
    (size : nat) (line more : cstring) :
  stdin (host s) = line ++ LF :: more → LF ∉ line → NUL ∉ line →
  (get_input_string buffer size s).1 = Some (take (size - 1) line) ∧
  stdin (host (get_input_string buffer size s).2)
  = (if length line <? size - 1 then more
     else drop (size - 1) line ++ LF :: more) ∧
  (∀ s', stdin (host s') = [] →
         (get_input_string buffer size s').1 = buffer).
Proof.
  intros Hstdin HLF HNUL.
  destruct (get_input_string_line s buffer size line more) as [Hbuf Hrest];
    [done..|].
  split; [done|]. split; [done|].
  intros s' Hend. rewrite get_input_string_eq. cbn [fst].
  by rewrite on_host_fgets, prompt_input, Hend.
Qed.

Lemma get_input_string_buffer_witness :
  (get_input_string None 8 (session0 cooked (cs "yes please" ++ [LF]))).1
  = Some (cs "yes ple") ∧
  stdin (host (get_input_string None 8
                 (session0 cooked (cs "yes please" ++ [LF]))).2)
  = cs "ase" ++ [LF].
Proof.
  destruct (get_input_string_buffer (session0 cooked (cs "yes please" ++ [LF]))
              None 8 (cs "yes please") []) as (H1 & H2 & _).
  - reflexivity.
  - apply (bool_decide_unpack _). by vm_compute.
  - apply (bool_decide_unpack _). by vm_compute.
  - split; [exact H1|exact H2].
Defined.

(** ** The pause and the question after it *)

Lemma pausef_input fmt s :
  stdin (host (pausef fmt s).2) = tail (stdin (host s)).
Proof.
  destruct (pausef_eq fmt s) as (pre & -> & _ & _ & _ & _ & _ & Hpre).
  rewrite printf_input.
  destruct (enable_raw_mode_state (on_host getchar (disable_raw_mode pre).2).2)
    as (_ & _ & _ & _ & _ & ->).
  rewrite on_host_input.
  destruct (disable_raw_mode_state pre) as (_ & _ & _ & _ & _ & Hd).
  rewrite <- Hpre, <- Hd. unfold getchar.
  destruct (stdin (host (disable_raw_mode pre).2)) eqn:E; [|done].
  cbn [snd tail]. exact E.
Qed.

(** X25.  [pausef] takes one byte of the input and no more.  A terminal in
    line mode delivers a key only with the Enter after it, so after any key
    but Enter alone the rest of that line is still there when [pausef]
    returns, and the next [get_input_string] takes it for its answer: it
    returns the rest of the line --- the empty string when one key and Enter
    were pressed --- and what is typed after its prompt is left for later. *)
Theorem pausef_leaves_rest_of_line (s : Session)
    (fmt : option (string * list arg)) (buffer : option cstring) (size : nat)
    (c : ascii) (line more : cstring) :
  stdin (host s) = c :: line ++ LF :: more → LF ∉ line → NUL ∉ line →
  stdin (host (pausef fmt s).2) = line ++ LF :: more ∧
  (get_input_string buffer size (pausef fmt s).2).1
  = Some (take (size - 1) line) ∧
  (length line < size - 1 →
   stdin (host (get_input_string buffer size (pausef fmt s).2).2) = more).
Proof.
  intros Hstdin HLF HNUL.
  assert (Hrest : stdin (host (pausef fmt s).2) = line ++ LF :: more)
    by by rewrite pausef_input, Hstdin.
  destruct (get_input_string_line (pausef fmt s).2 buffer size line more)
    as [Hbuf Hleft]; [done..|].
  split; [done|]. split; [done|]. intros Hlen. rewrite Hleft.
  by destruct (Nat.ltb_spec (length line) (size - 1)); [|lia].
Qed.

Lemma pausef_leaves_rest_of_line_witness :
  (get_input_string None 100 (pausef None key_then_answer).2).1 = Some [] ∧
  stdin (host (get_input_string None 100 (pausef None key_then_answer).2).2)
  = cs "main" ++ [LF].
Proof.
  destruct (pausef_leaves_rest_of_line key_then_answer None None 100 "x" []
              (cs "main" ++ [LF])) as (_ & H1 & H2).
  - reflexivity.
  - apply not_elem_of_nil.
  - apply not_elem_of_nil.
  - split; [exact H1|]. apply H2. cbn. lia.
Defined.

(** * Properties of the menu *)

Lemma run_cmd_input text s : stdin (host (run_cmd text s).2) = stdin (host s).
Proof. done. Qed.

Lemma print_options_input options selected n :
  ∀ i s, stdin (host (print_options options selected i n s).2)
         = stdin (host s).
Proof.
  induction n as [|n IH]; intros i s; [done|]. cbn [print_options].
  destruct (options !! i) as [option|]; [|done].
  unfold mbind, T_bind.
  pose proof (printf_input
                (if (Z.of_nat i =? selected)%Z
                 then "\033[7m  -> %s \033[0m\n" else "     %s\n")
                [AStr option] s) as H.
  destruct (on_host _ s) as [[] s1]. cbn [snd] in H. by rewrite IH.
Qed.

Lemma print_options_in_bounds options selected n :
  ∀ i s, i + n ≤ length options →
         (print_options options selected i n s).1 = true.
Proof.
  induction n as [|n IH]; intros i s Hlen; [done|]. cbn [print_options].
  destruct (lookup_lt_is_Some_2 options i) as [option ->]; [lia|].
  unfold mbind, T_bind. destruct (on_host _ s) as [[] s1].
  apply IH. lia.
Qed.

Lemma get_key_decode s :
  get_key s
  = match decode_key (stdin (host s)) with
    | None => (None, s)
    | Some (key, rest) => (Some key, with_host (with_stdin rest (host s)) s)
    end.
Proof.
  unfold get_key, decode_key, mbind, T_bind, mret, T_ret, on_host, getchar.
  destruct s as [[e f i y co h d] t o r n c st]. cbn.
  destruct i as [|c0 i]; [done|]. destruct (c0 =? ESC)%char; [|done].
  destruct i as [|c1 i]; [done|]. cbn. destruct i as [|c2 i]; done.
Qed.

(** One turn of the loop: the menu is drawn, which reads nothing, and a key
    is read. *)
Lemma menu_loop_unfold fuel title options count selected s :
  ∃ (in_bounds : bool) s1,
    stdin (host s1) = stdin (host s) ∧
    (Z.to_nat count ≤ length options → in_bounds = true) ∧
    menu_loop fuel title options count selected s
    = if in_bounds then
        match decode_key (stdin (host s1)) with
        | None => (Hangs, s1)
        | Some (key, rest) =>
            let s2 := with_host (with_stdin rest (host s1)) s1 in
            match fuel with
            | 0 => (Undefined, s2)
            | S fuel =>
                if (key =? KEY_UP)%Z then
                  menu_loop fuel title options count
                    (if (selected - 1 <? 0)%Z then (count - 1)%Z
                     else (selected - 1)%Z) s2
                else if (key =? KEY_DOWN)%Z then
                  menu_loop fuel title options count
                    (if (count <=? selected + 1)%Z then 0%Z
                     else (selected + 1)%Z) s2
                else if (key =? KEY_ENTER)%Z then (Returns selected, s2)
                else menu_loop fuel title options count selected s2
            end
        end
      else (Undefined, s1).
Proof.
  assert (Hdraw : ∃ (in_bounds : bool) s1,
    stdin (host s1) = stdin (host s) ∧
    (Z.to_nat count ≤ length options → in_bounds = true) ∧
    (_ ← clear_screen;
     _ ← on_host (printf "Current branch: " []);
     _ ← run_cmd (cs "git branch --show-current");
     _ ← on_host (printf "\n" []);
     _ ← on_host (printf "=== %s ===\n\n" [AStr title]);
     print_options options selected 0 (Z.to_nat count)) s = (in_bounds, s1)).
  { unfold mbind, T_bind, clear_screen.
    pose proof (printf_input "\033[H\033[J" [] s) as H1.
    destruct (on_host (printf "\033[H\033[J" []) s) as [[] s1].
    pose proof (printf_input "Current branch: " [] s1) as H2.
    destruct (on_host (printf "Current branch: " []) s1) as [[] s2].
    pose proof (run_cmd_input (cs "git branch --show-current") s2) as H3.
    destruct (run_cmd (cs "git branch --show-current") s2) as [status s3].
    pose proof (printf_input "\n" [] s3) as H4.
    destruct (on_host (printf "\n" []) s3) as [[] s4].
    pose proof (printf_input "=== %s ===\n\n" [AStr title] s4) as H5.
    destruct (on_host (printf "=== %s ===\n\n" [AStr title]) s4) as [[] s5].
    pose proof (print_options_input options selected (Z.to_nat count) 0 s5)
      as H6.
    pose proof (print_options_in_bounds options selected (Z.to_nat count) 0 s5)
      as H7.
    destruct (print_options options selected 0 (Z.to_nat count) s5)
      as [in_bounds s6].
    cbn [fst snd] in *. exists in_bounds, s6.
    repeat split; [congruence|auto]. }
  destruct Hdraw as (in_bounds & s1 & Hin & Hb & Hdraw).
  exists in_bounds, s1. split; [done|]. split; [done|].
  unfold mbind, T_bind in Hdraw.
  destruct fuel as [|fuel]; cbn [menu_loop]; unfold mbind, T_bind, mret, T_ret.
  - destruct (clear_screen s) as [[] s'1].
    destruct (on_host (printf "Current branch: " []) s'1) as [[] s'2].
    destruct (run_cmd (cs "git branch --show-current") s'2) as [status s'3].
    destruct (on_host (printf "\n" []) s'3) as [[] s'4].
    destruct (on_host (printf "=== %s ===\n\n" [AStr title]) s'4) as [[] s'5].
    rewrite Hdraw. destruct in_bounds; [|done].
    rewrite get_key_decode.
    by destruct (decode_key (stdin (host s1))) as [[key rest]|].
  - destruct (clear_screen s) as [[] s'1].
    destruct (on_host (printf "Current branch: " []) s'1) as [[] s'2].
    destruct (run_cmd (cs "git branch --show-current") s'2) as [status s'3].
    destruct (on_host (printf "\n" []) s'3) as [[] s'4].
    destruct (on_host (printf "=== %s ===\n\n" [AStr title]) s'4) as [[] s'5].
    rewrite Hdraw. destruct in_bounds; [|done].
    rewrite get_key_decode.
    destruct (decode_key (stdin (host s1))) as [[key rest]|]; [|done].
    cbv zeta. destruct (key =? KEY_UP)%Z; [done|].
    destruct (key =? KEY_DOWN)%Z; [done|]. by destruct (key =? KEY_ENTER)%Z.
Qed.

Lemma menu_loop_range title options count fuel :
  ∀ selected s k s',
    (0 ≤ selected < count)%Z →
    menu_loop fuel title options count selected s = (Returns k, s') →
    (0 ≤ k < count)%Z.
Proof.
  induction fuel as [|fuel IH]; intros selected s k s' Hsel.
  { destruct (menu_loop_unfold 0 title options count selected s)
      as (in_bounds & s1 & _ & _ & ->).
    destruct in_bounds; [|done].
    by destruct (decode_key (stdin (host s1))) as [[key rest]|]. }
  destruct (menu_loop_unfold (S fuel) title options count selected s)
    as (in_bounds & s1 & _ & _ & ->).
  destruct in_bounds; [|done].
  destruct (decode_key (stdin (host s1))) as [[key rest]|]; [|done].
  cbv zeta.
  destruct (key =? KEY_UP)%Z.
  { apply IH. destruct (Z.ltb_spec (selected - 1) 0); lia. }
  destruct (key =? KEY_DOWN)%Z.
  { apply IH. destruct (Z.leb_spec count (selected + 1)); lia. }
  destruct (key =? KEY_ENTER)%Z; [|by apply IH].
  by intros [= <- _].
Qed.

(** X26.  For a menu of at least one entry, whatever is typed and whatever
    the array holds, an index that [show_menu] returns is one of the
    entries: at least 0 and less than [count]. *)
Theorem show_menu_in_range (s s' : Session) (title : cstring)
    (options : list cstring) (count k : Z) :
  (0 < count)%Z →
  show_menu title options count s = (Returns k, s') →
  (0 ≤ k < count)%Z.
Proof.
  intros Hcount Hmenu. unfold show_menu in Hmenu.
  eapply menu_loop_range; [|exact Hmenu]. lia.
Qed.

Lemma show_menu_in_range_witness :
  (show_menu (cs "Select Scope") [cs "auth"; cs "api"; cs "ui"] 3
     down_enter).1 = Returns 1%Z ∧
  (0 ≤ 1 < 3)%Z.
Proof.
  split; [by vm_compute|].
  apply (show_menu_in_range down_enter
           (show_menu (cs "Select Scope") [cs "auth"; cs "api"; cs "ui"] 3
              down_enter).2
           (cs "Select Scope") [cs "auth"; cs "api"; cs "ui"] 3 1).
  - lia.
  - by vm_compute.
Defined.

(** ** Moving through the menu *)

Lemma int_of_char_inj c d :
  (int_of_char d < 128)%Z → (0 ≤ int_of_char d)%Z →
  int_of_char c = int_of_char d → c = d.
Proof.
  unfold int_of_char. intros Hd1 Hd2 H.
  pose proof (nat_ascii_bounded c) as Hc. pose proof (nat_ascii_bounded d) as Hb.
  assert (nat_of_ascii c = nat_of_ascii d) as Hn.
  { destruct (Z.ltb_spec (Z.of_nat (nat_of_ascii c)) 128);
      destruct (Z.ltb_spec (Z.of_nat (nat_of_ascii d)) 128); lia. }
  by rewrite <- (ascii_nat_embedding c), Hn, ascii_nat_embedding.
Qed.

(** What [get_key] returns for a press, as far as the menu looks at it. *)
Lemma decode_press p rest :
  proper p →
  ∃ key,
    decode_key (bytes_of p ++ rest) = Some (key, rest) ∧
    key ≠ KEY_ENTER ∧
    (key = KEY_UP ↔ step_of p = (-1)%Z) ∧
    (key = KEY_DOWN ↔ step_of p = 1%Z).
Proof.
  intros Hp. destruct p as [| | | |c|seq0 seq1]; cbn [proper] in Hp.
  1-4: eexists; split; [reflexivity|]; repeat split; done.
  - exists (int_of_char c).
    apply not_elem_of_cons in Hp as [HE Hp].
    apply not_elem_of_cons in Hp as [HA Hp].
    apply not_elem_of_cons in Hp as [HB Hp].
    apply not_elem_of_cons in Hp as [HL _].
    split.
    { cbn [bytes_of app decode_key].
      by assert ((c =? ESC)%char = false) as ->
        by (by apply Ascii.eqb_neq). }
    cbn [step_of]. repeat split; try done.
    + intros H. apply HL. by apply (int_of_char_inj c LF).
    + intros H. destruct HA. by apply (int_of_char_inj c "A").
    + intros H. destruct HB. by apply (int_of_char_inj c "B").
  - exists 0%Z. split; [|by repeat split].
    cbn [bytes_of app decode_key]. rewrite Ascii.eqb_refl.
    destruct (Ascii.eqb_spec seq0 "[") as [->|]; [|done].
    destruct (Ascii.eqb_spec seq1 "A") as [->|]; [by destruct Hp; auto|].
    destruct (Ascii.eqb_spec seq1 "B") as [->|]; [by destruct Hp; auto|].
    done.
Qed.

Lemma menu_loop_navigation title options more presses :
  Forall proper presses →
  ∀ fuel selected s,
    length presses < fuel →
    (0 ≤ selected < Z.of_nat (length options))%Z →
    stdin (host s) = typed presses ++ LF :: more →
    ∃ s',
      menu_loop fuel title options (Z.of_nat (length options)) selected s
      = (Returns ((selected + steps presses) `mod` Z.of_nat (length options))%Z,
         s') ∧
      stdin (host s') = more.
Proof.
  set (count := Z.of_nat (length options)).
  induction 1 as [|p presses Hp Hps IH]; intros fuel selected s Hfuel Hsel Hin.
  - destruct fuel as [|fuel]; [simpl in Hfuel; lia|].
    destruct (menu_loop_unfold (S fuel) title options count selected s)
      as (in_bounds & s1 & Hs1 & Hb & ->).
    rewrite Hb by (unfold count; lia). rewrite Hs1, Hin.
    change (decode_key (typed [] ++ LF :: more)) with (Some (10%Z, more)).
    cbv beta iota zeta. change (10 =? KEY_UP)%Z with false.
    change (10 =? KEY_DOWN)%Z with false. change (10 =? KEY_ENTER)%Z with true.
    cbv iota. eexists.
    split; [cbn [steps foldr]; by rewrite Z.add_0_r, Z.mod_small|done].
  - destruct fuel as [|fuel]; [simpl in Hfuel; lia|].
    destruct (menu_loop_unfold (S fuel) title options count selected s)
      as (in_bounds & s1 & Hs1 & Hb & ->).
    rewrite Hb by (unfold count; lia). rewrite Hs1, Hin.
    unfold typed. rewrite fmap_cons, concat_cons, <- app_assoc.
    fold (typed presses).
    destruct (decode_press p (typed presses ++ LF :: more) Hp)
      as (key & -> & Henter & Hup & Hdown).
    cbv beta iota zeta.
    assert (Hnext : ∀ selected',
      (0 ≤ selected' < count)%Z →
      (selected' `mod` count = (selected + step_of p) `mod` count)%Z →
      ∃ s',
        menu_loop fuel title options count selected'
          (with_host
             (with_stdin (typed presses ++ LF :: more) (host s1)) s1)
        = (Returns ((selected + steps (p :: presses)) `mod` count)%Z, s') ∧
        stdin (host s') = more).
    { intros selected' Hsel' Hmod.
      destruct (IH fuel selected'
                  (with_host
                     (with_stdin (typed presses ++ LF :: more) (host s1)) s1))
        as (s' & -> & Hs'); [simpl in Hfuel; lia|done|done|].
      exists s'. split; [|done]. do 2 f_equal. cbn [steps foldr].
      fold (steps presses).
      rewrite <- (Z.add_mod_idemp_l selected'), Hmod, Z.add_mod_idemp_l by lia.
      f_equal. lia. }
    destruct (Z.eqb_spec key KEY_UP) as [Hk|Hk].
    { apply Hup in Hk. rewrite Hk in Hnext.
      apply Hnext; destruct (Z.ltb_spec (selected - 1) 0); try lia; [|done].
      replace (selected + -1)%Z with (count - 1 + (-1) * count)%Z by lia.
      by rewrite Z.mod_add by lia. }
    destruct (Z.eqb_spec key KEY_DOWN) as [Hk'|Hk'].
    { apply Hdown in Hk'. rewrite Hk' in Hnext.
      apply Hnext; destruct (Z.leb_spec count (selected + 1)); try lia.
      replace (selected + 1)%Z with (0 + 1 * count)%Z by lia.
      by rewrite Z.mod_add by lia. }
    destruct (Z.eqb_spec key KEY_ENTER) as [?|_]; [done|].
    assert (step_of p = 0%Z) as Hstep.
    { destruct p; try done; [by destruct Hk; apply Hup
                            |by destruct Hk'; apply Hdown
                            |by destruct Hk; apply Hup
                            |by destruct Hk'; apply Hdown]. }
    apply Hnext; [done|]. by rewrite Hstep, Z.add_0_r.
Qed.

(** X27.  The menu follows the keys: with each up arrow, or letter [A], the
    selection moves one entry up, with each down arrow, or letter [B], one
    entry down, around the ends of the menu; every other key, and every
    other escape sequence of three bytes, changes nothing; at Enter the
    index of the selected entry is returned, and the bytes after it are
    left in the input.  In short: the index is the sum of the moves modulo
    the number of entries. *)
Theorem show_menu_navigation (s : Session) (title : cstring)
    (options : list cstring) (presses : list press) (more : cstring) :
  options ≠ [] → Forall proper presses →
  stdin (host s) = typed presses ++ LF :: more →
  ∃ s',
    show_menu title options (Z.of_nat (length options)) s
    = (Returns (steps presses `mod` Z.of_nat (length options))%Z, s') ∧
    stdin (host s') = more.
Proof.
  intros Hne Hproper Hin. unfold show_menu.
  destruct (menu_loop_navigation title options more presses Hproper
              (length (stdin (host s))) 0%Z s) as (s' & Hloop & Hs'); [| |done|].
  - rewrite Hin, length_app. cbn [length].
    assert (length presses ≤ length (typed presses)); [|lia].
    clear. induction presses as [|p presses IH]; [done|].
    unfold typed in *. rewrite fmap_cons, concat_cons, length_app.
    cbn [length]. destruct p; cbn [bytes_of length]; lia.
  - destruct options; [done|]. cbn [length]. lia.
  - exists s'. by rewrite Hloop.
Qed.

Lemma show_menu_navigation_witness :
  ∃ s',
    show_menu (cs "Select Scope") [cs "auth"; cs "api"; cs "ui"] 3
      letter_and_arrows
    = (Returns 1%Z, s') ∧
    stdin (host s') = [].
Proof.
  apply (show_menu_navigation letter_and_arrows (cs "Select Scope")
           [cs "auth"; cs "api"; cs "ui"]
           [LetterB; ArrowUp; ArrowUp; ArrowUp] []).
  - done.
  - repeat constructor; cbn [proper]; done.
  - by vm_compute.
Defined.

(** ** The menu and the arrays of [get_env] *)

Lemma holds_lookup array tokens i :
  holds array tokens → i < length tokens →
  ∃ t, tokens !! i = Some t ∧ array !! i = Some (Str t).
Proof.
  intros [Htake _] Hi.
  destruct (lookup_lt_is_Some_2 tokens i Hi) as [t Ht]. exists t.
  split; [done|].
  rewrite <- (lookup_take_lt array (length tokens) i) by done.
  by rewrite Htake, list_lookup_fmap, Ht.
Qed.

(** X28.  The way [state_start] picks the credentials is safe: when
    [get_env] has returned two arrays with the same count, not 0, and the
    menu is shown with that count, the index that the menu returns is the
    index of a string in both arrays, never of the [NULL] after them or of a
    slot beyond. *)
Theorem menu_choice_is_a_string (w1 w1' w2 w2' : World) (s s' : Session)
    (key1 key2 title : cstring) (delim1 delim2 : option cstring)
    (options : list cstring) (usernames emails : list cell)
    (username_count email_count : nat) (choice : Z) :
  get_env key1 delim1 true w1
  = ((Some usernames, Some username_count), w1') →
  get_env key2 delim2 true w2 = ((Some emails, Some email_count), w2') →
  username_count ≠ 0 → username_count = email_count →
  show_menu title options (Z.of_nat username_count) s = (Returns choice, s') →
  ∃ name address,
    usernames !! Z.to_nat choice = Some (Str name) ∧
    emails !! Z.to_nat choice = Some (Str address).
Proof.
  intros Hget1 Hget2 Hcount Hsame Hmenu.
  apply get_env_result in Hget1
    as (v1 & t1 & _ & _ & [= Hn1] & Hholds1 & _ & _).
  apply get_env_result in Hget2
    as (v2 & t2 & _ & _ & [= Hn2] & Hholds2 & _ & _).
  unfold show_menu in Hmenu. apply menu_loop_range in Hmenu; [|lia].
  destruct (holds_lookup usernames t1 (Z.to_nat choice) Hholds1)
    as (name & _ & Hname); [lia|].
  destruct (holds_lookup emails t2 (Z.to_nat choice) Hholds2)
    as (address & _ & Haddress); [lia|].
  by exists name, address.
Qed.

Lemma menu_choice_is_a_string_witness :
  ∃ name address,
    array_of_two (cs "Ann") (cs "Bob") !! Z.to_nat 1 = Some (Str name) ∧
    array_of_two (cs "a@x.org") (cs "b@x.org") !! Z.to_nat 1
    = Some (Str address).
Proof.
  apply (menu_choice_is_a_string two_names two_names two_addresses
           two_addresses down_enter
           (show_menu (cs "Select Git Credentials")
              [cs "Ann <a@x.org>"; cs "Bob <b@x.org>"] 2 down_enter).2
           (cs "USERNAMES") (cs "EMAILS") (cs "Select Git Credentials")
           (Some (cs ";")) (Some (cs ";"))
           [cs "Ann <a@x.org>"; cs "Bob <b@x.org>"]
           (array_of_two (cs "Ann") (cs "Bob"))
           (array_of_two (cs "a@x.org") (cs "b@x.org")) 2 2 1).
  - by vm_compute.
  - by vm_compute.
  - done.
  - done.
  - by vm_compute.
Defined.

(** ** The title of a commit *)

Lemma read_line_fst_length input :
  ∀ room, length (read_line room input).1 ≤ room.
Proof.
  induction input as [|c input IH]; intros room; [simpl; lia|].
  rewrite read_line_cons. destruct (Nat.eqb_spec room 0); [simpl; lia|].
  destruct (c =? LF)%char; [simpl; lia|].
  specialize (IH (room - 1)).
  destruct (read_line (room - 1) input) as [l r]. cbn [fst length] in *. lia.
Qed.

Lemma c_str_length buf : length (c_str buf) ≤ length buf.
Proof.
  induction buf as [|c buf IH]; [done|]. cbn [c_str].
  destruct (c =? NUL)%char; cbn [length]; lia.
Qed.

Lemma chomp_length s : length (chomp s) ≤ length s.
Proof.
  unfold chomp. destruct (reverse s) as [|c r] eqn:E; [done|].
  destruct (c =? LF)%char; [|done].
  rewrite <- (reverse_involutive s), E, reverse_cons, length_app, !length_reverse.
  lia.
Qed.

(** What [get_input_string] has read fits the buffer. *)
Lemma get_input_string_length size s t :
  0 < size → (get_input_string None size s).1 = Some t → length t < size.
Proof.
  intros Hsize. rewrite get_input_string_eq. cbn [fst].
  unfold on_host, fgets_stdin, fgets.
  destruct (stdin (host _)) as [|c input]; [done|].
  pose proof (read_line_fst_length (c :: input) (size - 1)) as Hlen.
  destruct (read_line (size - 1) (c :: input)) as [line rest].
  cbn [fst] in *. intros [= <-].
  pose proof (chomp_length (c_str line)). pose proof (c_str_length line). lia.
Qed.

Lemma semantic_types_words i entry :
  SEMANTIC_TYPES !! i = Some entry →
  ∃ type, commit_types !! i = Some type ∧ sscanf_word 20 entry = Some type ∧
          length type ≤ 8.
Proof.
  intros H.
  do 11 (destruct i as [|i];
         [injection H as <-; eexists; split; [reflexivity|];
          split; [by vm_compute|cbn; lia]|]).
  done.
Qed.

Lemma scopes_short j scope : SCOPES !! j = Some scope → length scope ≤ 5.
Proof.
  intros H.
  do 8 (destruct j as [|j]; [injection H as <-; cbn; lia|]).
  done.
Qed.

(** X29.  The title of the commit that [action_push] builds.  Whatever is
    chosen in the two menus, the first word of the chosen type fits
    [type_str] and is one of the eleven types of a conventional commit.
    When a title was read into its buffer of 200 bytes, the title put
    together fits [full_title] and reads [type(scope): title], or
    [type: title] for the scope [none].  At the end of the input
    [get_input_string] leaves the buffer as it was, never written, and
    lines 587 and 589 pass it to [sprintf] all the same: what is built then
    is not defined. *)
Theorem commit_title_fits (s1 s1' s2 s2' s3 : Session)
    (type_idx scope_idx : Z) :
  show_menu (cs "Select Type") SEMANTIC_TYPES 11 s1
  = (Returns type_idx, s1') →
  show_menu (cs "Select Scope") SCOPES 8 s2 = (Returns scope_idx, s2') →
  let title := (get_input_string None 200 s3).1 in
  ∃ type scope,
    commit_types !! Z.to_nat type_idx = Some type ∧
    SCOPES !! Z.to_nat scope_idx = Some scope ∧
    match title with
    | Some typed =>
        stdin (host s3) ≠ [] ∧
        ∃ text,
          commit_title type_idx scope_idx title = Some text ∧
          text = (if bool_decide (scope = cs "none")
                  then type ++ cs ": " ++ typed
                  else type ++ cs "(" ++ scope ++ cs "): " ++ typed) ∧
          length text < 512
    | None =>
        stdin (host s3) = [] ∧ commit_title type_idx scope_idx title = None
    end.
Proof.
  intros Htype Hscope title.
  unfold show_menu in Htype, Hscope.
  apply menu_loop_range in Htype; [|lia].
  apply menu_loop_range in Hscope; [|lia].
  destruct (lookup_lt_is_Some_2 SEMANTIC_TYPES (Z.to_nat type_idx))
    as [entry Hentry]; [cbn; lia|].
  destruct (lookup_lt_is_Some_2 SCOPES (Z.to_nat scope_idx))
    as [scope Hsc]; [cbn; lia|].
  destruct (semantic_types_words _ _ Hentry) as (type & Hty & Hword & Hlen).
  pose proof (scopes_short _ _ Hsc) as Hlen'.
  exists type, scope. split; [done|]. split; [done|].
  assert (Hend : stdin (host s3) = [] ↔ title = None).
  { subst title. rewrite get_input_string_eq. cbn [fst].
    rewrite on_host_fgets, prompt_input.
    destruct (stdin (host s3)) as [|c input]; [done|].
    unfold fgets. by destruct (read_line _ _). }
  pose proof (get_input_string_length 200 s3) as Htitle. fold title in Htitle.
  unfold commit_title.
  assert ((type_idx <? 0)%Z || (scope_idx <? 0)%Z = false) as ->.
  { apply orb_false_iff. split; apply Z.ltb_ge; lia. }
  rewrite Hentry. cbn [mbind option_bind]. rewrite Hword. cbn [mbind option_bind].
  rewrite Hsc. cbn [mbind option_bind].
  destruct title as [typed|]; [|split; [by apply Hend|done]].
  split; [intros H; by apply Hend in H|].
  specialize (Htitle typed ltac:(lia) eq_refl).
  cbn [mbind option_bind]. unfold sprintf.
  destruct (bool_decide (scope = cs "none")).
  - assert (Hfit : length (type ++ cs ": " ++ typed) < 512).
    { rewrite !length_app. change (length (cs ": ")) with 2. lia. }
    destruct (Nat.ltb_spec (length (type ++ cs ": " ++ typed)) 512); [|lia].
    by eexists.
  - assert (Hfit : length (type ++ cs "(" ++ scope ++ cs "): " ++ typed) < 512).
    { rewrite !length_app. change (length (cs "(")) with 1.
      change (length (cs "): ")) with 3. lia. }
    destruct (Nat.ltb_spec
                (length (type ++ cs "(" ++ scope ++ cs "): " ++ typed)) 512);
      [|lia].
    by eexists.
Qed.

Lemma commit_title_fits_witness :
  ∃ type scope,
    commit_types !! Z.to_nat 1 = Some type ∧
    SCOPES !! Z.to_nat 0 = Some scope ∧
    stdin (host title_typed) ≠ [] ∧
    ∃ text,
      commit_title 1 0 (Some (cs "add login button")) = Some text ∧
      text = (if bool_decide (scope = cs "none")
              then type ++ cs ": " ++ cs "add login button"
              else type ++ cs "(" ++ scope ++ cs "): "
                   ++ cs "add login button") ∧
      length text < 512.
Proof.
  refine (commit_title_fits down_enter
            (show_menu (cs "Select Type") SEMANTIC_TYPES 11 down_enter).2
            enter_only
            (show_menu (cs "Select Scope") SCOPES 8 enter_only).2
            title_typed 1%Z 0%Z _ _).
  - by vm_compute.
  - by vm_compute.
Defined.

(** ** A menu without Enter *)

Lemma int_of_char_enter c : int_of_char c = KEY_ENTER → c = LF.
Proof. intros H. by apply (int_of_char_inj c LF). Qed.

Lemma decode_key_no_enter input key rest :
  LF ∉ input → decode_key input = Some (key, rest) →
  key ≠ KEY_ENTER ∧ (LF ∉ rest) ∧ length rest < length input.
Proof.
  intros HLF. destruct input as [|c input]; [done|].
  apply not_elem_of_cons in HLF as [Hc HLF]. cbn [decode_key].
  destruct (c =? ESC)%char.
  - destruct input as [|seq0 [|seq1 input]].
    + intros [= <- <-]. repeat split; [done|apply not_elem_of_nil|simpl; lia].
    + intros [= <- <-]. repeat split; [done|apply not_elem_of_nil|simpl; lia].
    + apply not_elem_of_cons in HLF as [_ HLF].
      apply not_elem_of_cons in HLF as [_ HLF].
      intros [= <- <-]. repeat split; [|done|simpl; lia].
      destruct (seq0 =? "[")%char; [|done].
      destruct (seq1 =? "A")%char; [done|]. by destruct (seq1 =? "B")%char.
  - intros [= <- <-]. repeat split; [|done|simpl; lia].
    intros H. by apply int_of_char_enter in H.
Qed.

Lemma menu_loop_no_enter title options count fuel :
  Z.to_nat count ≤ length options →
  ∀ selected s,
    length (stdin (host s)) ≤ fuel → LF ∉ stdin (host s) →
    (menu_loop fuel title options count selected s).1 = Hangs.
Proof.
  intros Hcount. induction fuel as [|fuel IH]; intros selected s Hfuel HLF.
  { destruct (menu_loop_unfold 0 title options count selected s)
      as (in_bounds & s1 & Hs1 & Hb & ->).
    rewrite Hb, Hs1 by done.
    by destruct (stdin (host s)); [|simpl in Hfuel; lia]. }
  destruct (menu_loop_unfold (S fuel) title options count selected s)
    as (in_bounds & s1 & Hs1 & Hb & ->).
  rewrite Hb by done.
  destruct (decode_key (stdin (host s1))) as [[key rest]|] eqn:Hkey; [|done].
  rewrite Hs1 in Hkey.
  apply decode_key_no_enter in Hkey as (Henter & Hrest & Hlen); [|done].
  cbv zeta.
  assert (Hnext : ∀ selected',
    (menu_loop fuel title options count selected'
       (with_host (with_stdin rest (host s1)) s1)).1 = Hangs).
  { intros selected'. apply IH; cbn; [lia|done]. }
  destruct (key =? KEY_UP)%Z; [apply Hnext|].
  destruct (key =? KEY_DOWN)%Z; [apply Hnext|].
  destruct (Z.eqb_spec key KEY_ENTER); [done|apply Hnext].
Qed.

(** X30.  Only Enter ends the menu: on an input without a newline --- an
    empty input, or one that ends before Enter is pressed --- [show_menu]
    does not return; at the end of the input [get_key] waits in its loop for
    a byte that does not come. *)
Theorem show_menu_needs_enter (s : Session) (title : cstring)
    (options : list cstring) :
  LF ∉ stdin (host s) →
  (show_menu title options (Z.of_nat (length options)) s).1 = Hangs.
Proof.
  intros HLF. unfold show_menu. apply menu_loop_no_enter; [lia|done|done].
Qed.

Lemma show_menu_needs_enter_witness :
  (show_menu (cs "Select Scope") SCOPES (Z.of_nat (length SCOPES))
     (session0 cooked (typed [ArrowDown; ArrowDown]))).1 = Hangs.
Proof.
  apply (show_menu_needs_enter (session0 cooked (typed [ArrowDown; ArrowDown]))).
  apply (bool_decide_unpack _). by vm_compute.
Defined.
